(** * hbc.js: the data-to-hierarchy transformation of the hierarchical
      bundling chart

    A shallow embedding of the pure part of [hierarchicalBundlingChart]
    (src/hbc.js): [getGroups], [getGroupPairs], [isInGroupColNames],
    [aggregateByCol], [sortBy], [copyObj], [getNodes], [getLinks],
    [isInt], [isLeafNode], [isGroupColNode], [mouseovered] and
    [mouseouted], together with models of the JavaScript and D3 (v3)
    primitives they call.

    Conventions of the embedding.
    - A string is a list of characters, each standing for one UTF-16 code
      unit below 256; strings with higher code units are outside the
      embedding. On these strings the order of [String.ltb] is the order
      that [<] and [>] compare code units in.
    - A JSON scalar is a string or a number; the numbers of the input are
      integers (a number with a fraction is outside the embedding).
    - A JavaScript number produced by the program is [NaN], an infinity,
      or an integer that is an IEEE 754 double; [+] rounds to the nearest
      double, ties to even, and overflows to an infinity.
    - A record (a parsed JSON object) is the list of its own properties in
      the order [Object.keys] enumerates them; a property read also
      reaches the members of [Object.prototype].
    - The dataset is an array of records, what the callback of [d3.json]
      receives when the request has succeeded.
    - [undefined] is [None]; an uncaught [TypeError] is [Throw]. *)

From Stdlib Require Import ZArith Lia Ascii Sorted Permutation.
From stdpp Require Import base option list strings pretty gmap fin_maps.

Local Set Warnings "-clear-no-such-hyp".
Local Open Scope string_scope.
Local Open Scope list_scope.
Local Open Scope Z_scope.

(** ** JavaScript values *)

Module JS.

(** What a property read of a record gives: a JSON scalar of the input
    document, or a member of [Object.prototype] (the member of the given
    name), which every parsed JSON object inherits. *)
Inductive JsonValue :=
| JStr (s : string)
| JInt (z : Z)
| JProto (name : string).

(** A parsed JSON object: own properties in enumeration order. *)
Definition DataRow := list (string * JsonValue).

(** A number computed by the program: [Inf false] is [Infinity] and
    [Inf true] is [-Infinity]. *)
Inductive JSNum :=
| NaN
| Num (z : Z)
| Inf (negative : bool).

(** The outcome of a call that may throw. *)
Inductive Res (A : Type) :=
| Ret (a : A)
| Throw.
Arguments Ret {A} a.
Arguments Throw {A}.

Definition bind {A B} (r : Res A) (k : A -> Res B) : Res B :=
  match r with
  | Ret a => k a
  | Throw => Throw
  end.

(** The first own property named [c], or [undefined]. *)
Fixpoint ownProp (d : DataRow) (c : string) : option JsonValue :=
  match d with
  | [] => None
  | (k, v) :: d' => if String.eqb k c then Some v else ownProp d' c
  end.

(** The property names of [Object.prototype]. *)
Definition protoMembers : list string :=
  [ "constructor"; "hasOwnProperty"; "isPrototypeOf"; "propertyIsEnumerable";
    "toLocaleString"; "toString"; "valueOf"; "__proto__";
    "__defineGetter__"; "__defineSetter__"; "__lookupGetter__";
    "__lookupSetter__" ].

(** [d[c]]: the own property named [c]; without one, the member of
    [Object.prototype] of that name; without one, [undefined]. *)
Definition getProp (d : DataRow) (c : string) : option JsonValue :=
  match ownProp d c with
  | Some v => Some v
  | None => if existsb (String.eqb c) protoMembers then Some (JProto c) else None
  end.

(** [Object.keys(d)]. *)
Definition Object_keys (d : DataRow) : list string := d.*1.

(** [ToString] of a member of [Object.prototype]: [__proto__] is the
    prototype object itself, [constructor] is the function [Object], and
    the others are built-in functions of their own name, printed the way
    V8 prints a built-in function. *)
Definition protoText (c : string) : string :=
  if String.eqb c "__proto__" then "[object Object]"
  else "function "
         +:+ (if String.eqb c "constructor" then "Object" else c)
         +:+ "() { [native code] }".

(** *** Numbers: IEEE 754 doubles that hold integers *)

(** 2^53: up to this magnitude every integer is a double. *)
Definition maxExact : Z := 9007199254740992.

(** The double nearest to the integer [z], ties to even: the 53 leading
    bits of [z] are kept and the [e] bits below them rounded away; from
    2^1024 on the result is an infinity. *)
Definition toDouble (z : Z) : JSNum :=
  let a := Z.abs z in
  if a <=? maxExact then Num z
  else
    let e := Z.log2 a - 52 in
    let q := Z.shiftr a e in
    let r := a - Z.shiftl q e in
    let half := Z.shiftl 1 (e - 1) in
    let q' := if (half <? r) || ((r =? half) && Z.odd q) then q + 1 else q in
    let m := Z.shiftl q' e in
    if Z.shiftl 1 1024 <=? m then Inf (z <? 0) else Num (Z.sgn z * m).

(** [a + b] on numbers. *)
Definition add (a b : JSNum) : JSNum :=
  match a, b with
  | NaN, _ => NaN
  | _, NaN => NaN
  | Num x, Num y => toDouble (x + y)
  | Inf s, Inf t => if Bool.eqb s t then Inf s else NaN
  | Inf s, Num _ => Inf s
  | Num _, Inf t => Inf t
  end.

(** [isNaN]. *)
Definition isNaN (a : JSNum) : bool :=
  match a with
  | NaN => true
  | _ => false
  end.

(** [a > b] and [a === b] on numbers; a comparison with [NaN] is
    false. *)
Definition num_gt (a b : JSNum) : bool :=
  match a, b with
  | NaN, _ => false
  | _, NaN => false
  | Num x, Num y => y <? x
  | Inf s, Inf t => negb s && t
  | Inf s, Num _ => negb s
  | Num _, Inf t => t
  end.

Definition num_eq (a b : JSNum) : bool :=
  match a, b with
  | Num x, Num y => x =? y
  | Inf s, Inf t => Bool.eqb s t
  | _, _ => false
  end.

(** *** [Number::toString] on doubles that hold integers

    The decimal digits of a double: up to 2^53 every digit of the
    integer; above, the digits of the shortest decimal that rounds to the
    double (the nearer one when two do), followed by zeros, and from
    10^21 on in exponent notation. *)

Definition digitCount (a : Z) : Z := Z.of_nat (String.length (pretty a)).

Definition roundsTo (v a : Z) : bool :=
  match toDouble v with
  | Num z => z =? a
  | _ => false
  end.

(** The shortest decimal that rounds to the double [a] of [nd] digits,
    tried with [k], [k + 1], ... significant digits. *)
Fixpoint shortestFrom (fuel : nat) (k : Z) (a nd : Z) : Z :=
  match fuel with
  | O => a
  | S fuel' =>
      if nd <=? k then a
      else
        let p := 10 ^ (nd - k) in
        let lo := (a / p) * p in
        let hi := lo + p in
        match roundsTo lo a, roundsTo hi a with
        | true, true => if a - lo <=? hi - a then lo else hi
        | true, false => lo
        | false, true => hi
        | false, false => shortestFrom fuel' (k + 1) a nd
        end
  end.

Fixpoint stripZeros (fuel : nat) (v : Z) : Z :=
  match fuel with
  | O => v
  | S fuel' =>
      if (v mod 10 =? 0) && negb (v =? 0) then stripZeros fuel' (v / 10) else v
  end.

(** The digits of a double [a] that is not negative. *)
Definition digitsOf (a : Z) : string :=
  if a <=? maxExact then pretty a
  else
    let v := shortestFrom 17 1 a (digitCount a) in
    if v <? 10 ^ 21 then pretty v
    else
      let n := digitCount v in
      match pretty (stripZeros (Z.to_nat n) v) with
      | String c rest =>
          String c (if String.eqb rest "" then "" else "." +:+ rest)
            +:+ "e+" +:+ pretty (n - 1)
      | EmptyString => ""
      end.

Definition numToString (x : JSNum) : string :=
  match x with
  | NaN => "NaN"
  | Inf s => if s then "-Infinity" else "Infinity"
  | Num z => if z <? 0 then "-" +:+ digitsOf (- z) else digitsOf z
  end.

(** [ToString] of a property read ([d[c] + ""]); a number of the JSON
    document is the double nearest to it. *)
Definition toStr (v : option JsonValue) : string :=
  match v with
  | None => "undefined"
  | Some (JStr s) => s
  | Some (JInt z) => numToString (toDouble z)
  | Some (JProto c) => protoText c
  end.

(** One element of [Array.prototype.join]: [undefined] prints as the
    empty string. *)
Definition joinElem (v : option JsonValue) : string :=
  match v with
  | None => ""
  | Some _ => toStr v
  end.

(** *** [parseInt] with no radix argument *)

(** The white space and line terminators below 256. *)
Definition isWhite (c : ascii) : bool :=
  let n := Z.of_N (N_of_ascii c) in
  ((9 <=? n) && (n <=? 13)) || (n =? 32) || (n =? 160).

Fixpoint trimLeft (s : string) : string :=
  match s with
  | String c s' => if isWhite c then trimLeft s' else s
  | EmptyString => s
  end.

Definition digitVal (c : ascii) : option Z :=
  let n := Z.of_N (N_of_ascii c) in
  if (48 <=? n) && (n <=? 57) then Some (n - 48)
  else if (97 <=? n) && (n <=? 122) then Some (n - 87)
  else if (65 <=? n) && (n <=? 90) then Some (n - 55)
  else None.

(** The longest prefix of radix-[R] digits; [acc] is [None] until a
    digit has been read. *)
Fixpoint parseDigits (R : Z) (s : string) (acc : option Z) : option Z :=
  match s with
  | EmptyString => acc
  | String c s' =>
      match digitVal c with
      | Some v =>
          if v <? R then parseDigits R s' (Some (default 0 acc * R + v))
          else acc
      | None => acc
      end
  end.

Definition parseUnsigned (s : string) : option Z :=
  match s with
  | String "0"%char (String "x"%char s') => parseDigits 16 s' None
  | String "0"%char (String "X"%char s') => parseDigits 16 s' None
  | _ => parseDigits 10 s None
  end.

(** The number value of the integer that the digits spell (every digit
    is read, as V8 and SpiderMonkey do). *)
Definition parseIntStr (s : string) : JSNum :=
  let t := trimLeft s in
  let '(sign, body) :=
    match t with
    | String "-"%char t' => (-1, t')
    | String "+"%char t' => (1, t')
    | _ => (1, t)
    end in
  match parseUnsigned body with
  | Some n => toDouble (sign * n)
  | None => NaN
  end.

Definition parseInt (v : option JsonValue) : JSNum := parseIntStr (toStr v).

(** *** [String.prototype.split] on a one-character separator *)

Fixpoint splitOn (sep : ascii) (s : string) : list string :=
  match s with
  | EmptyString => [EmptyString]
  | String c s' =>
      if Ascii.eqb c sep then EmptyString :: splitOn sep s'
      else match splitOn sep s' with
           | w :: ws => String c w :: ws
           | [] => [String c EmptyString]
           end
  end.

(** *** [Array.prototype.indexOf] and [splice(start, 1)] *)

Fixpoint indexOf (x : string) (l : list string) : Z :=
  match l with
  | [] => -1
  | y :: l' =>
      if String.eqb y x then 0
      else let i := indexOf x l' in if i <? 0 then -1 else 1 + i
  end.

(** [l.splice(start, 1)], the array left behind: a negative [start]
    counts from the end of the array. *)
Definition splice1 (start : Z) (l : list string) : list string :=
  let len := Z.of_nat (length l) in
  let from := if start <? 0 then Z.max (len + start) 0 else Z.min start len in
  delete (Z.to_nat from) l.

(** *** [Array.prototype.sort(cmp)]

    The sort is stable (ECMAScript 2019): an element moves behind
    another only when the comparator is positive on them. *)
Section Sort.
Context {A : Type} (cmp : A -> A -> Z).

Fixpoint insertSorted (x : A) (l : list A) : list A :=
  match l with
  | [] => [x]
  | y :: l' => if cmp x y <=? 0 then x :: l else y :: insertSorted x l'
  end.

Definition sort (l : list A) : list A := foldr insertSorted [] l.
End Sort.

(** *** Property enumeration ([for (key in object)])

    The own string keys of an ordinary object come with the array
    indices first, in ascending numeric order, and the other keys after
    them in the order of their creation (ECMAScript 2020,
    OrdinaryOwnPropertyKeys). *)

(** An array index: the canonical decimal string of an integer from 0 to
    2^32 - 2. *)
Definition arrayIndex (s : string) : option Z :=
  match parseDigits 10 s None with
  | Some n =>
      if String.eqb (pretty n) s && (n <=? 4294967294) then Some n else None
  | None => None
  end.

Section ForIn.
Context {A : Type} (keyOf : A -> string).

Definition indexed (x : A) : bool :=
  match arrayIndex (keyOf x) with
  | Some _ => true
  | None => false
  end.

Definition indexRank (x y : A) : Z :=
  default 0 (arrayIndex (keyOf x)) - default 0 (arrayIndex (keyOf y)).

(** The enumeration of the properties [props], given in the order of
    their creation (the ascending order is written with the insertion of
    [sort]). *)
Definition forIn (props : list A) : list A :=
  sort indexRank (List.filter indexed props)
    ++ List.filter (fun x => negb (indexed x)) props.
End ForIn.

End JS.

Import JS.

(** ** D3 primitives *)

Module D3.

(** Modelled from the D3 v3 API: [d3.sum(array, f)] adds up [f] over
    [array] and skips the values that are [NaN]. *)
Definition sum {A} (array : list A) (f : A -> JSNum) : JSNum :=
  foldl (fun s x => let a := f x in if isNaN a then s else add s a)
        (Num 0) array.

(** [valuesByKey.get] and [valuesByKey.set] of [d3.nest]: the record is
    pushed under its key, a new key is created after the others. *)
Fixpoint nest_add (k : string) (d : DataRow) (m : list (string * list DataRow))
  : list (string * list DataRow) :=
  match m with
  | [] => [(k, [d])]
  | (k', vs) :: m' =>
      if String.eqb k' k then (k', vs ++ [d]) :: m'
      else (k', vs) :: nest_add k d m'
  end.

(** [valuesByKey] after the loop over the records: the keys in the order
    of their creation. *)
Definition valuesByKey (key : DataRow -> string) (data : list DataRow)
  : list (string * list DataRow) :=
  foldl (fun m d => nest_add (key d) d m) [] data.

(** Modelled from the D3 v3 API: one level of [d3.nest().key(key)]; the
    keys are coerced to strings, and the groups come in the order in
    which [d3.map] enumerates its keys: in D3 3.5 the keys are property
    names of an object, enumerated with [for ... in]. *)
Definition nest_map (key : DataRow -> string) (data : list DataRow)
  : list (string * list DataRow) :=
  forIn fst (valuesByKey key data).

End D3.

(** ** The hierarchy *)

Local Set Warnings "-register-all".

(** A node object: a rollup entry ([values] a number), a rollup entry
    whose number the JSON copy has turned into [null], or a node whose
    [values] is an array of nodes. *)
Inductive JNode :=
| Leaf (k : string) (v : JSNum)
| Nulled (k : string)
| Inner (k : string) (children : list JNode).

Inductive JValue :=
| VStr (s : string)
| VNum (n : JSNum)
| VNull
| VArr (l : list JNode).

Definition key (n : JNode) : string :=
  match n with
  | Leaf k _ => k
  | Nulled k => k
  | Inner k _ => k
  end.

Definition values (n : JNode) : JValue :=
  match n with
  | Leaf _ v => VNum v
  | Nulled _ => VNull
  | Inner _ l => VArr l
  end.

(** [styles], restricted to the options the data transformation reads. *)
Record Styles := {
  sort : Z;
  rollupColName : string;
  groupColNames : list string;
  groupColNamesAllExcept : list string
}.

Definition defaultStyles : Styles :=
  {| sort := 1;
     rollupColName := "";
     groupColNames := [];
     groupColNamesAllExcept := ["salesAmount"] |}.

(** The first argument of [aggregateByCol]: a column name or an array of
    column names ([isString(colName)] tells them apart). *)
Inductive ColSpec :=
| OneCol (c : string)
| ManyCols (cs : list string).

(** The key function given to [d3.nest], followed by the coercion of the
    key to a string: [d[colName]] or [colName.map(f => d[f])]. *)
Definition nestKey (colName : ColSpec) (d : DataRow) : string :=
  match colName with
  | OneCol c => toStr (getProp d c)
  | ManyCols cs => String.concat "," ((fun f => joinElem (getProp d f)) <$> cs)
  end.

(** The rollup function of [aggregateByCol]. *)
Definition rollup (rollupColName : string) (leaves : list DataRow) : JSNum :=
  if String.eqb rollupColName "" then Num (Z.of_nat (length leaves))
  else D3.sum leaves (fun d => parseInt (getProp d rollupColName)).

Definition aggregateByCol (colName : ColSpec) (data : list DataRow)
    (rollupColName : string) : list JNode :=
  (fun e => Leaf e.1 (rollup rollupColName e.2))
    <$> D3.nest_map (nestKey colName) data.

(** ** Group and pair derivation *)

(** [getGroups]: the include-list when it is not empty; otherwise the keys
    of [data[0]] after one [splice] per name of the exclude-list; and
    [undefined] when both lists are empty. *)
Definition getGroups (styles : Styles) (data : list DataRow)
    : Res (option (list string)) :=
  if (0 <? length (groupColNames styles))%nat then
    Ret (Some (groupColNames styles))
  else if (0 <? length (groupColNamesAllExcept styles))%nat then
    match data with
    | [] => Throw
    | d0 :: _ =>
        Ret (Some (foldl (fun groups col => splice1 (indexOf col groups) groups)
                         (Object_keys d0) (groupColNamesAllExcept styles)))
    end
  else Ret None.

(** The two nested loops of [getGroupPairs]: [i] from [0] while
    [i < groups.length - 1], [j] from [i + 1] while [j < groups.length],
    pushing [[groups[i], groups[j]]] (both indices are in range). *)
Definition pairsOf (groups : list string) : list (list string) :=
  i ← seq 0 (length groups - 1);
  j ← seq (i + 1) (length groups - (i + 1));
  match groups !! i, groups !! j with
  | Some a, Some b => [[a; b]]
  | _, _ => []
  end.

Definition getGroupPairs (styles : Styles) (data : list DataRow)
    : Res (list (list string)) :=
  bind (getGroups styles data) (fun groups =>
    match groups with
    | None => Throw
    | Some groups => Ret (pairsOf groups)
    end).

Definition isInGroupColNames (styles : Styles) (col : string) : bool :=
  if (1 <=? length (groupColNames styles))%nat then
    0 <=? indexOf col (groupColNames styles)
  else
    indexOf col (groupColNamesAllExcept styles) <? 0.

(** ** Sorting *)

Inductive Field :=
| F_key
| F_values.

Definition getField (f : Field) (n : JNode) : JValue :=
  match f with
  | F_key => VStr (key n)
  | F_values => values n
  end.

(** [x > y] on the operands that [sortBy] meets: two strings (keys), two
    numbers (rollup values), or [null] (a rollup value after the JSON
    copy), which compares as the number 0. *)
Definition js_gt (x y : JValue) : bool :=
  match x, y with
  | VStr a, VStr b => String.ltb b a
  | VNum a, VNum b => num_gt a b
  | VNull, VNum b => num_gt (Num 0) b
  | VNum a, VNull => num_gt a (Num 0)
  | _, _ => false
  end.

(** [x === y] on the same operands. *)
Definition js_seq (x y : JValue) : bool :=
  match x, y with
  | VStr a, VStr b => String.eqb a b
  | VNum a, VNum b => num_eq a b
  | VNull, VNull => true
  | _, _ => false
  end.

Definition sortBy (styles : Styles) (f : Field) (a b : JNode) : Z :=
  if js_gt (getField f b) (getField f a) then sort styles
  else if js_seq (getField f b) (getField f a) then 0
  else - sort styles.

(** ** Hierarchy and links *)

(** [JSON.parse(JSON.stringify(obj))] on a tree of nodes: strings and
    finite numbers print and parse back to themselves; [JSON.stringify]
    prints [NaN] and the infinities as [null]. *)
Fixpoint copyNode (n : JNode) : JNode :=
  match n with
  | Leaf k (Num z) => Leaf k (Num z)
  | Leaf k _ => Nulled k
  | Nulled k => Nulled k
  | Inner k l => Inner k (copyNode <$> l)
  end.

Definition copyObj (obj : list JNode) : list JNode := copyNode <$> obj.

(** [rootValues] once [groups.forEach] of [getNodes] has run. *)
Definition rootValuesOf (styles : Styles) (data : list DataRow)
    (groups : list string) : list JNode :=
  (fun e => Inner e (JS.sort (sortBy styles F_values)
                       (aggregateByCol (OneCol e) data (rollupColName styles))))
    <$> groups.

Definition getNodes (styles : Styles) (data : list DataRow) : Res JNode :=
  bind (getGroups styles data) (fun groups =>
    match groups with
    | None => Throw
    | Some groups =>
        let rootValues := rootValuesOf styles data groups in
        Ret (Inner "" (copyObj (JS.sort (sortBy styles F_key) rootValues)))
    end).

(** [typeof a === 'number' && (a % 1) === 0]: [Infinity % 1] is
    [NaN]. *)
Definition isInt (a : JValue) : bool :=
  match a with
  | VNum (Num _) => true
  | _ => false
  end.

(** The [children] accessor given to [d3.layout.cluster]. *)
Definition clusterChildren (d : JNode) : option JValue :=
  if negb (isInt (values d)) then Some (values d) else None.

(** Modelled from the D3 v3 API: [cluster.nodes(root)] lists the tree in
    pre-order, descending into what the [children] accessor returns when
    that is an array that is not empty. *)
Fixpoint cluster_nodes (n : JNode) : list JNode :=
  n :: match n with
       | Inner _ l => flat_map cluster_nodes l
       | _ => []
       end.

Record Link := {
  source : option JNode;
  target : option JNode;
  value : JValue
}.

(** The property name an array element is coerced to. *)
Definition propName (o : option string) : string := default "undefined" o.

(** The first loop of [getLinks]: later nodes overwrite earlier ones of
    the same key. *)
Definition mapNameNodeOf (nodes : list JNode) : gmap string JNode :=
  foldl (fun m n => <[key n := n]> m) ∅ nodes.

(** The body of [pairs.forEach] in [getLinks]: the links pushed for one
    pair of group columns. A name that no node bears is looked up as
    [undefined] (the names of the members of [Object.prototype], which
    [mapNameNode] inherits, are left out: the statements look up the keys
    of nodes, and the names [x] and [y] at the input with a comma). *)
Definition linksOfPair (styles : Styles) (mapNameNode : gmap string JNode)
    (data : list DataRow) (pair : list string) : list Link :=
  (fun d =>
     let namePair := splitOn "," (key d) in
     {| source := mapNameNode !! propName (namePair !! 0%nat);
        target := mapNameNode !! propName (namePair !! 1%nat);
        value := values d |})
    <$> aggregateByCol (ManyCols pair) data (rollupColName styles).

Definition getLinks (styles : Styles) (data : list DataRow) (nodes : list JNode)
    : Res (list Link) :=
  let mapNameNode := mapNameNodeOf nodes in
  bind (getGroupPairs styles data) (fun pairs =>
    Ret (pairs ≫= linksOfPair styles mapNameNode data)).

(** ** Sample inputs *)

(** The dataset [[{A:"x",B:"p"},{A:"x",B:"q"},{A:"y",B:"p"}]]. *)
Definition scenarioData : list DataRow :=
  [ [("A", JStr "x"); ("B", JStr "p")];
    [("A", JStr "x"); ("B", JStr "q")];
    [("A", JStr "y"); ("B", JStr "p")] ].

(** The defaults, with the include-list [["A", "B"]]. *)
Definition scenarioStyles : Styles :=
  {| sort := 1;
     rollupColName := "";
     groupColNames := ["A"; "B"];
     groupColNamesAllExcept := ["salesAmount"] |}.

(** The links [x]-[p], [x]-[q] and [y]-[p] of the scenario. *)
Definition scenarioLinks : list Link :=
  [ {| source := Some (Leaf "x" (Num 2)); target := Some (Leaf "p" (Num 2));
       value := VNum (Num 1) |};
    {| source := Some (Leaf "x" (Num 2)); target := Some (Leaf "q" (Num 1));
       value := VNum (Num 1) |};
    {| source := Some (Leaf "y" (Num 1)); target := Some (Leaf "p" (Num 2));
       value := VNum (Num 1) |} ].

(** Two records of one group; the metric value of the second does not
    parse. *)
Definition metricData : list DataRow :=
  [ [("A", JStr "x"); ("m", JStr "5")];
    [("A", JStr "x"); ("m", JStr "abc")] ].

(** One record without the column [salesAmount]. *)
Definition twoColumnData : list DataRow :=
  [ [("A", JStr "x"); ("B", JStr "p")] ].

(** One record with a comma in a value. *)
Definition commaData : list DataRow :=
  [ [("A", JStr "x,y"); ("B", JStr "p")] ].

(** Two records of one group with integer metric values. *)
Definition integerMetricData : list DataRow :=
  [ [("A", JStr "x"); ("m", JInt 5)];
    [("A", JStr "x"); ("m", JInt (-2))] ].

(** The defaults, with the exclude-list [["B"]]. *)
Definition excludeBStyles : Styles :=
  {| sort := 1;
     rollupColName := "";
     groupColNames := [];
     groupColNamesAllExcept := ["B"] |}.

(** Four records whose values of [A] are first seen in the order [10],
    [9], [b], [2]. *)
Definition indexKeyData : list DataRow :=
  [ [("A", JStr "10")]; [("A", JStr "9")]; [("A", JStr "b")]; [("A", JStr "2")] ].

(** The include-list [["A"]], with [sort = 0] and in count mode. *)
Definition unsortedStyles : Styles :=
  {| sort := 0;
     rollupColName := "";
     groupColNames := ["A"];
     groupColNamesAllExcept := [] |}.

(** Two records, the second without the column [A]. *)
Definition missingColumnData : list DataRow :=
  [ [("A", JStr "x")]; [("B", JStr "y")] ].

(** The defaults, with the include-list [["A"]]. *)
Definition columnAStyles : Styles :=
  {| sort := 1;
     rollupColName := "";
     groupColNames := ["A"];
     groupColNamesAllExcept := ["salesAmount"] |}.

(** A decimal numeral of 310 digits: beyond the range of the doubles. *)
Definition hugeDigits : string := "1" +:+ String.concat "" (replicate 309 "0").

(** One record whose metric value is that numeral. *)
Definition infiniteMetricData : list DataRow :=
  [ [("A", JStr "x"); ("B", JStr "p"); ("m", JStr hugeDigits)] ].

(** The include-list [["A", "B"]], with the metric column [m]. *)
Definition metricPairStyles : Styles :=
  {| sort := 1;
     rollupColName := "m";
     groupColNames := ["A"; "B"];
     groupColNamesAllExcept := [] |}.

(** The include-list [["A"]], with the metric column [m]. *)
Definition metricStyles : Styles :=
  {| sort := 1;
     rollupColName := "m";
     groupColNames := ["A"];
     groupColNamesAllExcept := [] |}.

(** * Vocabulary of the statements *)

(** ** Groups of [d3.nest] *)

(** The distinct elements of [l], each at the place of its first
    occurrence. *)
Definition firstSeen (l : list string) : list string :=
  foldl (fun acc k => if decide (k ∈ acc) then acc else acc ++ [k]) [] l.

(** What [valuesByKey] holds, said without the loop: under each distinct
    key, the records of that key in their order in the dataset. *)
Definition groupsOf (keyf : DataRow -> string) (data : list DataRow)
    : list (string * list DataRow) :=
  (fun k => (k, filter (fun d => keyf d = k) data)) <$> firstSeen (keyf <$> data).

(** [x] comes before [y] in [l]. *)
Definition before {A} (x y : A) (l : list A) : Prop :=
  exists l1 l2 l3, l = l1 ++ x :: l2 ++ y :: l3.

(** The order in which the keys [ks] of one [d3.nest] come, [occ] being
    the keys of the records in the order of the dataset: the keys that
    are array indices first, in ascending numeric order, and the others
    after them, each one before the keys that occur in the dataset only
    after its first occurrence. *)
Definition enumOrdered (occ ks : list string) : Prop :=
  forall k1 k2, before k1 k2 ks ->
    match arrayIndex k1, arrayIndex k2 with
    | Some a, Some b => a < b
    | Some _, None => True
    | None, Some _ => False
    | None, None => exists p, occ !! p = Some k1 /\ k2 ∉ take p occ
    end.

(** ** Sums *)

(** The number held by a [values] field ([NaN] for an array). *)
Definition numOf (v : JValue) : JSNum :=
  match v with
  | VNum n => n
  | _ => NaN
  end.

(** The sum of two integers as integers ([NaN] where an operand is no
    integer). *)
Definition plus (a b : JSNum) : JSNum :=
  match a, b with
  | Num x, Num y => Num (x + y)
  | _, _ => NaN
  end.

(** The sum, as integers, of the [values] of a list of entries. *)
Definition sumValues (entries : list JNode) : JSNum :=
  foldl (fun s e => plus s (numOf (values e))) (Num 0) entries.

(** The sum of the integers of a list, what is no integer left out. *)
Definition numericTotal (l : list JSNum) : Z :=
  foldr (fun a s => match a with Num z => z + s | _ => s end) 0 l.

(** The sum of a list with JavaScript's [+], from [0] and from left to
    right, where one [NaN] makes the whole sum [NaN]. *)
Definition plainSum (l : list JSNum) : JSNum := foldl add (Num 0) l.

(** The numbers of a list that are not [NaN]. *)
Definition numeric (l : list JSNum) : list JSNum :=
  List.filter (fun a => negb (isNaN a)) l.

(** The records of [data] that [aggregateByCol] groups under the key [k]. *)
Definition groupOf (colName : ColSpec) (data : list DataRow) (k : string)
    : list DataRow :=
  filter (fun d => nestKey colName d = k) data.

(** ** Orders *)

(** The integer held by a rollup entry. *)
Definition numValue (n : JNode) : option Z :=
  match n with
  | Leaf _ (Num z) => Some z
  | _ => None
  end.

Definition valueGe (a b : JNode) : Prop :=
  exists x y, numValue a = Some x /\ numValue b = Some y /\ y <= x.

Definition valueLe (a b : JNode) : Prop :=
  exists x y, numValue a = Some x /\ numValue b = Some y /\ x <= y.

Definition keyGe (a b : JNode) : Prop := String.leb (key b) (key a) = true.

Definition keyLe (a b : JNode) : Prop := String.leb (key a) (key b) = true.

(** A rollup entry: a node whose [values] is no array. *)
Definition isEntry (n : JNode) : Prop :=
  match n with
  | Inner _ _ => False
  | _ => True
  end.

(** A rollup entry that holds an integer. *)
Definition isIntEntry (n : JNode) : Prop := exists k z, n = Leaf k (Num z).

(** Every rollup of the group columns is a finite number: so it is in
    count mode, and with a metric column unless a value, or a sum of
    values, is beyond the range of the doubles. *)
Definition finiteRollups (styles : Styles) (data : list DataRow)
    (groups : list string) : Prop :=
  forall g, g ∈ groups ->
    Forall isIntEntry (aggregateByCol (OneCol g) data (rollupColName styles)).

(** What the sort direction promises of the leaves of one group column,
    [agg] being the entries in aggregation order and [occ] the values of
    the column in the order of the dataset: the entries come in the
    enumeration order of [d3.nest] (the first-seen order when no value is
    an array index), and the leaves are these entries in the order of the
    sort direction, ties in aggregation order. *)
Definition leavesOrdered (styles : Styles) (occ : list string)
    (agg leaves : list JNode) : Prop :=
  enumOrdered occ (key <$> agg) /\
  ((forall k, k ∈ occ -> arrayIndex k = None) -> key <$> agg = firstSeen occ) /\
  leaves ≡ₚ agg /\
  (forall v, filter (fun e => numValue e = Some v) leaves
             = filter (fun e => numValue e = Some v) agg) /\
  (sort styles = 1 -> Sorted valueGe leaves) /\
  (sort styles = -1 -> Sorted valueLe leaves) /\
  (sort styles = 0 -> leaves = agg).

(** What it promises of the children [gs] of the root. *)
Definition hierarchyOrdered (styles : Styles) (data : list DataRow)
    (groups : list string) (gs : list JNode) : Prop :=
  (forall g, g ∈ gs ->
     exists leaves, g = Inner (key g) leaves /\ key g ∈ groups /\
       leavesOrdered styles (nestKey (OneCol (key g)) <$> data)
         (aggregateByCol (OneCol (key g)) data (rollupColName styles)) leaves) /\
  (forall k, filter (fun g => key g = k) gs
             = filter (fun g => key g = k) (rootValuesOf styles data groups)) /\
  (sort styles = 1 -> Sorted keyGe gs) /\
  (sort styles = -1 -> Sorted keyLe gs) /\
  (sort styles = 0 -> key <$> gs = groups).

(** The sum, as integers, of the [value] of a list of links. *)
Definition linkTotal (links : list Link) : JSNum :=
  foldl (fun s l => plus s (numOf (value l))) (Num 0) links.

Definition childrenOf (n : JNode) : list JNode :=
  match n with
  | Inner _ l => l
  | _ => []
  end.

(** The records of a group, read at the metric column and parsed. *)
Definition parsedMetric (colName : ColSpec) (data : list DataRow)
    (rc k : string) : list JSNum :=
  (fun d => parseInt (getProp d rc)) <$> groupOf colName data k.

(** ** Group derivation as described *)

(** The derivation in the words of its description: the include-list
    when it is not empty, otherwise the columns of the first record that
    are not in the exclude-list. *)
Definition getGroups_described (styles : Styles) (data : list DataRow)
    : option (list string) :=
  match groupColNames styles with
  | _ :: _ => Some (groupColNames styles)
  | [] =>
      match data with
      | d0 :: _ =>
          Some (filter (fun c => c ∉ groupColNamesAllExcept styles) (Object_keys d0))
      | [] => None
      end
  end.

(** ** Tidy data *)

Fixpoint hasComma (s : string) : bool :=
  match s with
  | EmptyString => false
  | String c s' => Ascii.eqb c "," || hasComma s'
  end.

(** A leaf of the hierarchy: a child of a child of the root that holds
    an integer. *)
Definition isLeafOf (root n : JNode) : Prop :=
  exists g, g ∈ childrenOf root /\ n ∈ childrenOf g /\ isInt (values n) = true.

Record tidy (data : list DataRow) (groups : list string) : Prop := {
  tidy_present : forall d g, d ∈ data -> g ∈ groups -> is_Some (getProp d g);
  tidy_no_comma : forall d g, d ∈ data -> g ∈ groups ->
    hasComma (toStr (getProp d g)) = false;
  tidy_not_empty : forall d g, d ∈ data -> g ∈ groups ->
    toStr (getProp d g) ≠ "";
  tidy_not_name : forall d g, d ∈ data -> g ∈ groups ->
    toStr (getProp d g) ∉ groups
}.

(** The values of two different group columns never print alike. *)
Definition columnsApart (data : list DataRow) (groups : list string) : Prop :=
  forall d d' g g', d ∈ data -> d' ∈ data -> g ∈ groups -> g' ∈ groups ->
    g ≠ g' -> toStr (getProp d g) ≠ toStr (getProp d' g').

(** ** Weights *)

(** What one record adds to the rollup of its group: [1] in count mode,
    otherwise the metric value where [parseInt] gives a finite number
    and nothing where it gives [NaN]. *)
Definition metricWeight (rc : string) (d : DataRow) : Z :=
  if String.eqb rc "" then 1
  else match parseInt (getProp d rc) with
       | Num z => z
       | _ => 0
       end.

Definition totalWeight (rc : string) (l : list DataRow) : Z :=
  foldr (fun d s => metricWeight rc d + s) 0 l.

Definition sumZ (l : list Z) : Z := foldr Z.add 0 l.

(** The metric value of a record does not parse to an infinity. *)
Definition finiteMetric (rc : string) (d : DataRow) : Prop :=
  forall s, parseInt (getProp d rc) ≠ Inf s.

(** Where the rollups are exact integers: in count mode, and with a
    metric column when no value parses to an infinity and the absolute
    values of the parsed values add up to no more than 2^53, so that no
    sum of some of them is rounded. *)
Definition exactRollup (rc : string) (data : list DataRow) : Prop :=
  rc = "" \/
  (Forall (finiteMetric rc) data /\
   sumZ ((fun d => Z.abs (metricWeight rc d)) <$> data) <= maxExact).

(** The parts of a composite key, as [getLinks] reads them. *)
Definition namePart (i : nat) (k : string) : string :=
  propName (splitOn "," k !! i).

(** The two columns of a pair are present and free of commas in every
    record. *)
Definition pairTidy (data : list DataRow) (c1 c2 : string) : Prop :=
  forall d, d ∈ data ->
    is_Some (getProp d c1) /\ is_Some (getProp d c2) /\
    hasComma (toStr (getProp d c1)) = false /\
    hasComma (toStr (getProp d c2)) = false.

(** The integer of an entry and of a link (zero where there is none). *)
Definition entryZ (e : JNode) : Z := default 0 (numValue e).

Definition linkZ (l : Link) : Z :=
  match value l with
  | VNum (Num z) => z
  | _ => 0
  end.

(** ** Decimal digits *)

(** The string of a list of decimal digits, and the number it reads as. *)
Definition digitsStr (l : list N) : string :=
  foldr (fun d s => String (pretty_N_char d) s) EmptyString l.

Definition digitsVal (l : list N) (acc : Z) : Z :=
  foldl (fun a d => a * 10 + Z.of_N d) acc l.

(** The metric value of a record where it is an integer. *)
Definition metricInt (rc : string) (d : DataRow) : Z :=
  match getProp d rc with
  | Some (JInt z) => z
  | _ => 0
  end.

(** ** The laid-out nodes *)

(** A node as [cluster.nodes] hands it to the rendering: the node object
    with the [parent] that the layout has written on it. *)
Record LayoutNode := {
  datum : JNode;
  parent : option JNode
}.

(** Modelled from the D3 v3 API: the traversal of [cluster.nodes], with
    the [parent] of each node. *)
Fixpoint cluster_walk (p : option JNode) (n : JNode) : list LayoutNode :=
  {| datum := n; parent := p |}
    :: match n with
       | Inner _ l => flat_map (cluster_walk (Some n)) l
       | _ => []
       end.

(** Modelled from the D3 v3 API: the [children] that the layout leaves
    on a node, absent where the accessor gave no array or an empty one. *)
Definition childrenField (n : JNode) : option (list JNode) :=
  match n with
  | Inner _ (c :: l) => Some (c :: l)
  | _ => None
  end.

Definition isLeafNode (n : LayoutNode) : bool :=
  match childrenField (datum n) with
  | Some _ => false
  | None => true
  end.

Definition isGroupColNode (styles : Styles) (n : LayoutNode) : bool :=
  match parent n with
  | Some p => String.eqb (key p) "" && isInGroupColNames styles (key (datum n))
  | None => false
  end.

(** The data bound to the [.node] texts and to the [.node-bar]
    rectangles. *)
Definition nodeSelection (styles : Styles) (nodes : list LayoutNode)
    : list LayoutNode :=
  List.filter (fun n => isLeafNode n || isGroupColNode styles n) nodes.

Definition nodeBarSelection (nodes : list LayoutNode) : list LayoutNode :=
  List.filter isLeafNode nodes.

(** Modelled from the D3 v3 API: [d3.max(array, f)], the greatest of the
    values of [f] that are defined and not [NaN], [undefined] where there
    is none: the first such value is taken, and then every value that is
    greater than the one held. *)
Definition d3_max {A} (array : list A) (f : A -> option JSNum) : option JSNum :=
  foldl (fun m x =>
           match f x, m with
           | Some b, Some a => if num_gt b a then Some b else Some a
           | Some b, None => if isNaN b then None else Some b
           | None, _ => m
           end) None array.

(** The accessor of the bar scale: [d.values] where it is an integer. *)
Definition barValue (d : JNode) : option JSNum :=
  if isInt (values d) then Some (numOf (values d)) else None.

(** The accessor of the link scale: [d.value], a number ([null] is not
    taken). *)
Definition linkValue (l : Link) : option JSNum :=
  match value l with
  | VNum n => Some n
  | _ => None
  end.

(** ** Hovering *)

(** A laid-out node object as the handlers see it: its identity, which
    [===] compares, and its key. *)
Record NodeObj := {
  nid : nat;
  nkey : string
}.

(** The datum of a link path after [bundle]: the first and the last node
    of the path. *)
Record Path := {
  path_source : NodeObj;
  path_target : NodeObj
}.

(** The fields [source] and [target] that the handlers write on a node
    object; a field never written is read as false. *)
Record Flags := {
  is_source : bool;
  is_target : bool
}.

Definition noFlags : Flags := {| is_source := false; is_target := false |}.

Definition same (a b : NodeObj) : bool := Nat.eqb (nid a) (nid b).

Definition flagsOf (st : gmap nat Flags) (n : NodeObj) : Flags :=
  default noFlags (st !! nid n).

(** [selection.each(function(n) { n.target = n.source = false; })]. *)
Definition clearFlags (sel : list NodeObj) (st : gmap nat Flags) : gmap nat Flags :=
  foldl (fun st n => <[nid n := noFlags]> st) st sel.

(** The side effect of [classed("link-target", ...)]:
    [if (l.target === d) return l.source.source = true]. *)
Definition markSources (d : NodeObj) (links : list Path) (st : gmap nat Flags)
    : gmap nat Flags :=
  foldl (fun st l =>
           if same (path_target l) d then
             <[nid (path_source l) :=
                 {| is_source := true;
                    is_target := is_target (flagsOf st (path_source l)) |}]> st
           else st) st links.

(** The side effect of [classed("link-source", ...)]:
    [if (l.source === d) return l.target.target = true]. *)
Definition markTargets (d : NodeObj) (links : list Path) (st : gmap nat Flags)
    : gmap nat Flags :=
  foldl (fun st l =>
           if same (path_source l) d then
             <[nid (path_target l) :=
                 {| is_source := is_source (flagsOf st (path_target l));
                    is_target := true |}]> st
           else st) st links.

Record LinkClasses := {
  link_target : bool;
  link_source : bool;
  link_bg : bool
}.

Record NodeClasses := {
  node_target : bool;
  node_source : bool;
  node_bg : bool
}.

Definition linkClassesOf (d : NodeObj) (l : Path) : LinkClasses :=
  {| link_target := same (path_target l) d;
     link_source := same (path_source l) d;
     link_bg := negb (same (path_target l) d) && negb (same (path_source l) d) |}.

Definition nodeClassesOf (d : NodeObj) (st : gmap nat Flags) (n : NodeObj)
    : NodeClasses :=
  {| node_target := is_target (flagsOf st n);
     node_source := is_source (flagsOf st n);
     node_bg := negb (is_target (flagsOf st n)) && negb (is_source (flagsOf st n))
                && negb (String.eqb (nkey n) (nkey d)) |}.

(** The filter of the links that touch [d], by index into the bound
    data. *)
Definition touches (d : NodeObj) (links : list Path) (i : nat) : bool :=
  match links !! i with
  | Some l => same (path_target l) d || same (path_source l) d
  | None => false
  end.

(** [filter(...).each(function() { this.parentNode.appendChild(this); })]
    on the order in which the link paths sit in their parent: each path
    that touches [d] is moved to the end, in the order of the
    selection. *)
Definition raiseLinks (d : NodeObj) (links : list Path) (dom : list nat) : list nat :=
  List.filter (fun i => negb (touches d links i)) dom
    ++ List.filter (touches d links) (seq 0 (length links)).

(** What the handlers read and write: the flags on the node objects, the
    order of the link paths in their parent, and the classes of the link
    paths, of the node texts and of the node bars. *)
Record Scene := {
  flags : gmap nat Flags;
  linkDom : list nat;
  linkClasses : list LinkClasses;
  nodeClasses : list NodeClasses;
  barClasses : list NodeClasses
}.

Definition mouseovered (nodeSel barSel : list NodeObj) (links : list Path)
    (d : NodeObj) (sc : Scene) : Scene :=
  let st := markTargets d links
              (markSources d links
                 (clearFlags barSel (clearFlags nodeSel (flags sc)))) in
  {| flags := st;
     linkDom := raiseLinks d links (linkDom sc);
     linkClasses := linkClassesOf d <$> links;
     nodeClasses := nodeClassesOf d st <$> nodeSel;
     barClasses := nodeClassesOf d st <$> barSel |}.

Definition noLinkClasses : LinkClasses :=
  {| link_target := false; link_source := false; link_bg := false |}.

Definition noNodeClasses : NodeClasses :=
  {| node_target := false; node_source := false; node_bg := false |}.

Definition mouseouted (nodeSel barSel : list NodeObj) (links : list Path)
    (sc : Scene) : Scene :=
  {| flags := flags sc;
     linkDom := linkDom sc;
     linkClasses := (fun _ => noLinkClasses) <$> links;
     nodeClasses := (fun _ => noNodeClasses) <$> nodeSel;
     barClasses := (fun _ => noNodeClasses) <$> barSel |}.

(** Whether a link runs from [a] to [b]. *)
Definition linked (links : list Path) (a b : NodeObj) : bool :=
  existsb (fun l => same (path_source l) a && same (path_target l) b) links.

(** The classes of a node text or bar while [d] is hovered, read off the
    links alone. *)
Definition hoverClasses (d : NodeObj) (links : list Path) (n : NodeObj)
    : NodeClasses :=
  {| node_target := linked links d n;
     node_source := linked links n d;
     node_bg := negb (linked links d n) && negb (linked links n d)
                && negb (String.eqb (nkey n) (nkey d)) |}.

(** The three link paths of the scenario, the leaves [p], [q], [x] and
    [y] being the nodes 2, 3, 4 and 5 of the layout. *)
Definition hoverLinks : list Path :=
  [ {| path_source := {| nid := 4; nkey := "x" |};
       path_target := {| nid := 2; nkey := "p" |} |};
    {| path_source := {| nid := 4; nkey := "x" |};
       path_target := {| nid := 3; nkey := "q" |} |};
    {| path_source := {| nid := 5; nkey := "y" |};
       path_target := {| nid := 2; nkey := "p" |} |} ].

(** * Verification *)

(** ** Numbers: where the sums are exact *)

Lemma toDouble_exact z : Z.abs z <= maxExact -> toDouble z = Num z.
Proof.
  intros Hz. unfold toDouble. cbv zeta.
  by destruct (Z.leb_spec (Z.abs z) maxExact); [|lia].
Qed.

Lemma add_exact x y : Z.abs (x + y) <= maxExact -> add (Num x) (Num y) = Num (x + y).
Proof. intros Hxy. simpl. by apply toDouble_exact. Qed.

(** Above 2^53 the sum is rounded: 2^53 + 1 is 2^53 again, 2^53 + 3 is
    2^53 + 4; and past the largest double it is an infinity, which the
    JSON copy turns into [null]. *)
Example add_rounds :
  add (Num 9007199254740992) (Num 1) = Num 9007199254740992 /\
  add (Num 9007199254740992) (Num 3) = Num 9007199254740996 /\
  parseIntStr "9007199254740993" = Num 9007199254740992 /\
  toDouble (10 ^ 309) = Inf false /\
  add (Inf false) (Inf true) = NaN /\
  copyObj [Leaf "x" (Inf false)] = [Nulled "x"].
Proof. split_and!; vm_compute; reflexivity. Qed.

(** A number prints with every digit up to 2^53; above, with the digits
    of the shortest decimal that rounds to it; and from 10^21 on in
    exponent notation, of which [parseInt] reads the leading digits. *)
Example numToString_cases :
  toStr (Some (JInt 9007199254740993)) = "9007199254740992" /\
  toStr (Some (JInt (2 ^ 60))) = "1152921504606847000" /\
  toStr (Some (JInt (10 ^ 21))) = "1e+21" /\
  toStr (Some (JInt 123456789012345680000000)) = "1.2345678901234569e+23" /\
  toStr (Some (JInt (- 10 ^ 400))) = "-Infinity" /\
  parseInt (Some (JInt (10 ^ 21))) = Num 1.
Proof. split_and!; vm_compute; reflexivity. Qed.

Lemma toStr_JInt z : Z.abs z <= maxExact -> toStr (Some (JInt z)) = pretty z.
Proof.
  intros Hz. unfold toStr. rewrite toDouble_exact by done. unfold numToString, digitsOf.
  destruct (Z.ltb_spec z 0).
  - destruct (Z.leb_spec (- z) maxExact); [|lia].
    destruct z as [|p|p]; [lia..|]. reflexivity.
  - by destruct (Z.leb_spec z maxExact); [|lia].
Qed.

(** ** Lists *)

Lemma filter_none {A} (P : A -> Prop) `{!forall x, Decision (P x)} (l : list A) :
  (forall x, x ∈ l -> ~ P x) -> filter P l = [].
Proof.
  induction l as [|x l IH]; intros Hall; [done|].
  rewrite filter_cons_False by (apply Hall; left).
  apply IH. intros y Hy. apply Hall. by right.
Qed.

Lemma filter_all {A} (P : A -> Prop) `{!forall x, Decision (P x)} (l : list A) :
  (forall x, x ∈ l -> P x) -> filter P l = l.
Proof.
  induction l as [|x l IH]; intros Hall; [done|].
  rewrite filter_cons_True by (apply Hall; left).
  f_equal. apply IH. intros y Hy. apply Hall. by right.
Qed.

Lemma List_filter_stdpp {A} (f : A -> bool) (l : list A) :
  List.filter f l = filter (fun x => f x = true) l.
Proof.
  induction l as [|x l IH]; [done|]. simpl. rewrite filter_cons, IH.
  destruct (f x) eqn:Hf.
  - by rewrite decide_True.
  - by rewrite decide_False.
Qed.

Lemma List_filter_app {A} (f : A -> bool) (l k : list A) :
  List.filter f (l ++ k) = List.filter f l ++ List.filter f k.
Proof. by rewrite !List_filter_stdpp, filter_app. Qed.

Lemma List_filter_filter_same {A} (f : A -> bool) (l : list A) :
  List.filter f (List.filter f l) = List.filter f l.
Proof.
  induction l as [|x l IH]; [done|]. simpl.
  destruct (f x) eqn:Hf; simpl; by rewrite ?Hf, IH.
Qed.

Lemma List_filter_filter_neg {A} (f : A -> bool) (l : list A) :
  List.filter f (List.filter (fun x => negb (f x)) l) = [] /\
  List.filter (fun x => negb (f x)) (List.filter f l) = [].
Proof.
  induction l as [|x l [IH1 IH2]]; [done|]. simpl.
  destruct (f x) eqn:Hf; simpl; by rewrite ?Hf.
Qed.

Lemma List_filter_partition {A} (f : A -> bool) (l : list A) :
  List.filter (fun x => negb (f x)) l ++ List.filter f l ≡ₚ l.
Proof.
  induction l as [|x l IH]; [done|]. simpl. destruct (f x); simpl.
  - by rewrite <-Permutation_middle, IH.
  - by rewrite IH.
Qed.

Lemma List_filter_fmap {A B} (f : A -> B) (p : B -> bool) (l : list A) :
  List.filter p (f <$> l) = f <$> List.filter (fun x => p (f x)) l.
Proof.
  induction l as [|x l IH]; [done|]. csimpl. rewrite IH. by destruct (p (f x)).
Qed.

Lemma List_filter_all {A} (p : A -> bool) (l : list A) :
  (forall x, x ∈ l -> p x = true) -> List.filter p l = l.
Proof.
  induction l as [|x l IH]; intros Hall; [done|]. simpl.
  rewrite (Hall x) by left. f_equal. apply IH. intros y Hy. apply Hall. by right.
Qed.

Lemma List_filter_none {A} (p : A -> bool) (l : list A) :
  (forall x, x ∈ l -> p x = false) -> List.filter p l = [].
Proof.
  induction l as [|x l IH]; intros Hall; [done|]. simpl.
  rewrite (Hall x) by left. apply IH. intros y Hy. apply Hall. by right.
Qed.

Lemma List_filter_sublist {A} (p : A -> bool) (l : list A) :
  List.filter p l `sublist_of` l.
Proof. rewrite List_filter_stdpp. apply sublist_filter. Qed.

(** *** One element before another *)

Lemma before_lookup {A} (x y : A) (l : list A) :
  before x y l -> exists i j, (i < j)%nat /\ l !! i = Some x /\ l !! j = Some y.
Proof.
  intros (l1 & l2 & l3 & ->).
  exists (length l1), (length l1 + S (length l2))%nat. split_and!.
  - lia.
  - by rewrite list_lookup_middle.
  - rewrite lookup_app_r by lia.
    replace (length l1 + S (length l2) - length l1)%nat with (S (length l2)) by lia.
    simpl. by rewrite list_lookup_middle.
Qed.

Lemma before_elem_of {A} (x y : A) (l : list A) : before x y l -> x ∈ l /\ y ∈ l.
Proof. intros (l1 & l2 & l3 & ->). set_solver. Qed.

Lemma before_sublist {A} (x y : A) (l k : list A) :
  l `sublist_of` k -> before x y l -> before x y k.
Proof.
  intros Hsub (l1 & l2 & l3 & ->).
  apply sublist_app_l in Hsub as (k1 & k' & -> & _ & Hsub).
  apply sublist_cons_l in Hsub as (k2 & k'' & -> & Hsub).
  apply sublist_app_l in Hsub as (k3 & k''' & -> & _ & Hsub).
  apply sublist_cons_l in Hsub as (k4 & k5 & -> & _).
  exists (k1 ++ k2), (k3 ++ k4), k5. by rewrite <-!app_assoc.
Qed.

Lemma before_app {A} (x y : A) (l k : list A) :
  before x y (l ++ k) ->
  before x y l \/ (x ∈ l /\ y ∈ k) \/ before x y k.
Proof.
  intros (l1 & l2 & l3 & Heq).
  apply app_eq_inv in Heq as [(m & Hl & Hk)|(m & Hl & Hk)].
  - destruct m as [|a m]; simpl in Hk.
    + right. right. subst k. by exists [], l2, l3.
    + injection Hk as <- Hk.
      apply app_eq_inv in Hk as [(m' & Hm & Hk)|(m' & Hm & Hk)].
      * right. left. subst. set_solver.
      * destruct m' as [|b m']; simpl in Hk.
        -- right. left. subst. set_solver.
        -- injection Hk as <- Hk. left. subst.
           exists l1, l2, m'. by rewrite <-?app_assoc.
  - right. right. subst. by exists m, l2, l3.
Qed.

Lemma before_NoDup {A B} (f : A -> B) (x y : A) (l : list A) :
  NoDup (f <$> l) -> before x y l -> f x ≠ f y.
Proof.
  intros Hnd (l1 & l2 & l3 & ->) Heq.
  rewrite fmap_app, fmap_cons, fmap_app, fmap_cons in Hnd.
  apply NoDup_app in Hnd as (_ & _ & Hnd).
  apply NoDup_cons in Hnd as [Hx _]. apply Hx. rewrite Heq. set_solver.
Qed.

Lemma before_fmap {A B} (f : A -> B) (x y : B) (l : list A) :
  before x y (f <$> l) -> exists a b, x = f a /\ y = f b /\ before a b l.
Proof.
  intros (l1 & l2 & l3 & Heq).
  apply fmap_app_inv in Heq as (k1 & k' & -> & Hk & ->).
  destruct k' as [|a k']; [done|]. csimpl in Hk. injection Hk as -> Hk.
  symmetry in Hk. apply fmap_app_inv in Hk as (k2 & k'' & -> & Hk & ->).
  destruct k'' as [|b k'']; [done|]. csimpl in Hk. injection Hk as -> ->.
  exists a, b. split_and!; [done..|]. by exists k1, k2, k''.
Qed.

Lemma StronglySorted_before {A} (R : relation A) (x y : A) (l : list A) :
  StronglySorted R l -> before x y l -> R x y.
Proof.
  intros Hs (l1 & l2 & l3 & ->).
  induction l1 as [|a l1 IH]; simpl in Hs.
  - apply StronglySorted_inv in Hs as [_ Hall].
    rewrite List.Forall_forall in Hall. apply Hall.
    apply list_elem_of_In. set_solver.
  - apply StronglySorted_inv in Hs as [Hs _]. by apply IH.
Qed.

(** ** [Array.prototype.sort]: permutation, order, stability *)

Section SortFacts.
Context {A : Type} (cmp : A -> A -> Z).

Lemma insertSorted_Permutation x l : insertSorted cmp x l ≡ₚ x :: l.
Proof.
  induction l as [|y l IH]; simpl; [done|].
  destruct (cmp x y <=? 0); [done|].
  rewrite IH. apply Permutation_swap.
Qed.

Lemma sort_Permutation l : JS.sort cmp l ≡ₚ l.
Proof.
  induction l as [|x l IH]; simpl; [done|].
  by rewrite insertSorted_Permutation, IH.
Qed.

Lemma elem_of_sort x l : x ∈ JS.sort cmp l <-> x ∈ l.
Proof. by rewrite sort_Permutation. Qed.

(** A comparator that never asks for a swap leaves the array as it is. *)
Lemma sort_id l : (forall a b, cmp a b <= 0) -> JS.sort cmp l = l.
Proof.
  intros Hle. induction l as [|x l IH]; simpl; [done|].
  rewrite IH. destruct l as [|y l]; simpl; [done|].
  destruct (Z.leb_spec (cmp x y) 0) as [_|Hgt]; [done|].
  specialize (Hle x y). lia.
Qed.

Section Ordered.
Context (P : A -> Prop) (R : relation A).
Hypothesis cmp_le : forall x y, P x -> P y -> cmp x y <= 0 -> R x y.
Hypothesis cmp_gt : forall x y, P x -> P y -> 0 < cmp x y -> R y x.

Lemma insertSorted_HdRel x y l :
  R y x -> HdRel R y l -> HdRel R y (insertSorted cmp x l).
Proof.
  intros Hyx Hhd. destruct l as [|z l]; simpl; [by constructor|].
  destruct (cmp x z <=? 0); constructor; [done|].
  by inversion Hhd.
Qed.

Lemma insertSorted_Sorted x l :
  P x -> Forall P l -> Sorted R l -> Sorted R (insertSorted cmp x l).
Proof.
  intros Hx Hl Hs. induction l as [|y l IH]; simpl.
  - by repeat constructor.
  - apply Forall_cons in Hl as [Hy Hl]. apply Sorted_inv in Hs as [Hs Hhd].
    destruct (Z.leb_spec (cmp x y) 0) as [Hle|Hgt].
    + constructor; [by constructor|]. constructor. by apply cmp_le.
    + constructor; [by apply IH|].
      apply insertSorted_HdRel; [by apply cmp_gt|done].
Qed.

Lemma sort_Sorted l : Forall P l -> Sorted R (JS.sort cmp l).
Proof.
  induction l as [|x l IH]; simpl; intros Hl; [constructor|].
  apply Forall_cons in Hl as [Hx Hl].
  apply insertSorted_Sorted; [done| |by apply IH].
  by rewrite sort_Permutation.
Qed.
End Ordered.

Section Stable.
Context (Q : A -> Prop) `{!forall x, Decision (Q x)}.
Hypothesis tied : forall a b, Q a -> Q b -> cmp a b <= 0.

Lemma insertSorted_filter x l :
  filter Q (insertSorted cmp x l) = filter Q (x :: l).
Proof.
  induction l as [|y l IH]; simpl; [done|].
  destruct (Z.leb_spec (cmp x y) 0) as [Hle|Hgt]; [done|].
  rewrite filter_cons, IH, !(filter_cons _ x), (filter_cons _ y).
  destruct (decide (Q x)) as [Hx|], (decide (Q y)) as [Hy|]; try done.
  pose proof (tied x y Hx Hy). lia.
Qed.

(** The elements of a family on which the comparator never asks for
    a swap keep their relative order. *)
Lemma sort_stable l : filter Q (JS.sort cmp l) = filter Q l.
Proof.
  induction l as [|x l IH]; simpl; [done|].
  by rewrite insertSorted_filter, !filter_cons, IH.
Qed.
End Stable.

(** An array in which no neighbour asks for a swap is left as it is. *)
Lemma sort_sorted_id l :
  Sorted (fun a b => cmp a b <= 0) l -> JS.sort cmp l = l.
Proof.
  induction 1 as [|x l Hs IH Hhd]; simpl; [done|].
  rewrite IH. destruct Hhd as [|y l Hxy]; simpl; [done|].
  destruct (Z.leb_spec (cmp x y) 0); [done|lia].
Qed.

Lemma sort_idempotent (P : A -> Prop) l :
  (forall x y, P x -> P y -> 0 < cmp x y -> cmp y x <= 0) ->
  Forall P l ->
  JS.sort cmp (JS.sort cmp l) = JS.sort cmp l.
Proof.
  intros Htot Hl. apply sort_sorted_id.
  apply (sort_Sorted P); [done|auto|done].
Qed.
End SortFacts.

Lemma sort_fmap {A B} (f : A -> B) (cmp : B -> B -> Z) (l : list A) :
  JS.sort cmp (f <$> l) = f <$> JS.sort (fun a b => cmp (f a) (f b)) l.
Proof.
  induction l as [|x l IH]; [done|]. csimpl. rewrite IH.
  generalize (JS.sort (fun a b => cmp (f a) (f b)) l). intros k.
  induction k as [|y k IHk]; [done|]. csimpl.
  destruct (cmp (f x) (f y) <=? 0); [done|]. csimpl. by rewrite IHk.
Qed.

(** ** Property enumeration *)

Lemma arrayIndex_Some s n : arrayIndex s = Some n -> s = pretty n /\ 0 <= n.
Proof.
  unfold arrayIndex. destruct (parseDigits 10 s None) as [m|] eqn:Hp; [|done].
  destruct (String.eqb_spec (pretty m) s) as [Heq|]; [|done].
  destruct (m <=? 4294967294); [|done]. simpl. intros [= <-]. split; [done|].
  destruct m as [|p|p]; [lia..|].
  subst s. by vm_compute in Hp.
Qed.

Lemma arrayIndex_inj s t n :
  arrayIndex s = Some n -> arrayIndex t = Some n -> s = t.
Proof. intros [-> _]%arrayIndex_Some [-> _]%arrayIndex_Some. done. Qed.

Section ForInFacts.
Context {A : Type} (keyOf : A -> string).

Lemma forIn_Permutation (l : list A) : forIn keyOf l ≡ₚ l.
Proof.
  unfold forIn. rewrite sort_Permutation.
  rewrite Permutation_app_comm. apply List_filter_partition.
Qed.

Lemma elem_of_forIn x (l : list A) : x ∈ forIn keyOf l <-> x ∈ l.
Proof. by rewrite forIn_Permutation. Qed.

(** Without an array index among the keys the enumeration is the order
    of creation. *)
Lemma forIn_named (l : list A) :
  (forall x, x ∈ l -> arrayIndex (keyOf x) = None) -> forIn keyOf l = l.
Proof.
  intros Hl. unfold forIn.
  rewrite List_filter_none, List_filter_all; [done| |].
  - intros x Hx. unfold indexed. by rewrite (Hl x Hx).
  - intros x Hx. unfold indexed. by rewrite (Hl x Hx).
Qed.

Lemma indexed_Sorted (l : list A) :
  StronglySorted
    (fun x y => default 0 (arrayIndex (keyOf x)) <= default 0 (arrayIndex (keyOf y)))
    (JS.sort (indexRank keyOf) l).
Proof.
  apply Sorted_StronglySorted; [intros x y z; lia|].
  apply (sort_Sorted _ (fun _ => True)); [| |by apply Forall_true].
  - intros x y _ _. unfold indexRank. lia.
  - intros x y _ _. unfold indexRank. lia.
Qed.

(** The order of the enumeration: the array indices first, ascending,
    then the other keys as they were created. *)
Lemma forIn_before x y (l : list A) :
  NoDup (keyOf <$> l) ->
  before x y (forIn keyOf l) ->
  match arrayIndex (keyOf x), arrayIndex (keyOf y) with
  | Some a, Some b => a < b
  | Some _, None => True
  | None, Some _ => False
  | None, None => before x y l
  end.
Proof.
  intros Hnd Hb.
  assert (keyOf x ≠ keyOf y) as Hne.
  { apply (before_NoDup keyOf x y (forIn keyOf l)); [|done].
    by rewrite forIn_Permutation. }
  assert (forall z, z ∈ JS.sort (indexRank keyOf) (List.filter (indexed keyOf) l) ->
            is_Some (arrayIndex (keyOf z))) as Hidx.
  { intros z Hz%elem_of_sort%list_elem_of_In%filter_In. destruct Hz as [_ Hz].
    unfold indexed in Hz. by destruct (arrayIndex (keyOf z)). }
  assert (forall z, z ∈ List.filter (fun x => negb (indexed keyOf x)) l ->
            arrayIndex (keyOf z) = None) as Hnam.
  { intros z Hz%list_elem_of_In%filter_In. destruct Hz as [_ Hz].
    unfold indexed in Hz. by destruct (arrayIndex (keyOf z)). }
  apply before_app in Hb as [Hb|[[Hx Hy]|Hb]].
  - destruct (before_elem_of _ _ _ Hb) as [Hx Hy].
    destruct (Hidx x Hx) as [a Ha], (Hidx y Hy) as [b Hb'].
    pose proof (StronglySorted_before _ x y _ (indexed_Sorted _) Hb) as Hle.
    rewrite Ha, Hb'. cbv beta in Hle. rewrite Ha, Hb' in Hle. simpl in Hle.
    destruct (decide (a = b)) as [->|]; [|lia].
    destruct Hne. by eapply arrayIndex_inj.
  - destruct (Hidx x Hx) as [a ->]. by rewrite (Hnam y Hy).
  - destruct (before_elem_of _ _ _ Hb) as [Hx Hy].
    rewrite (Hnam x Hx), (Hnam y Hy).
    eapply before_sublist; [apply List_filter_sublist|done].
Qed.
End ForInFacts.

Lemma forIn_fmap {A B} (f : A -> B) (keyOf : B -> string) (l : list A) :
  forIn keyOf (f <$> l) = f <$> forIn (fun x => keyOf (f x)) l.
Proof.
  unfold forIn. rewrite !List_filter_fmap, sort_fmap, fmap_app. done.
Qed.

(** ** Specification of [d3.nest]: the groups and their order *)

Section Nest.
Context (keyf : DataRow -> string).

Lemma firstSeen_snoc l k :
  firstSeen (l ++ [k]) =
  if decide (k ∈ firstSeen l) then firstSeen l else firstSeen l ++ [k].
Proof. unfold firstSeen. by rewrite foldl_app. Qed.

Lemma elem_of_firstSeen l k : k ∈ firstSeen l ↔ k ∈ l.
Proof.
  induction l as [|x l IH] using rev_ind.
  - done.
  - rewrite firstSeen_snoc. case_decide; set_solver.
Qed.

Lemma NoDup_firstSeen l : NoDup (firstSeen l).
Proof.
  induction l as [|x l IH] using rev_ind.
  - constructor.
  - rewrite firstSeen_snoc. case_decide; [done|].
    apply NoDup_app. split_and!; [done|set_solver|apply NoDup_singleton].
Qed.

Lemma nest_add_fresh k d (m : list (string * list DataRow)) :
  k ∉ m.*1 -> D3.nest_add k d m = m ++ [(k, [d])].
Proof.
  induction m as [|[k' vs] m IH]; simpl; [done|].
  intros Hk. apply not_elem_of_cons in Hk as [Hne Hk].
  destruct (String.eqb_spec k' k); [congruence|].
  by rewrite IH.
Qed.

Lemma nest_add_present k d (F F' : string -> list DataRow) ks :
  NoDup ks -> k ∈ ks ->
  (forall k', k' ≠ k -> F' k' = F k') ->
  F' k = F k ++ [d] ->
  D3.nest_add k d ((fun k' => (k', F k')) <$> ks) = (fun k' => (k', F' k')) <$> ks.
Proof.
  intros Hnd Hin Hne Heq.
  induction ks as [|a ks IH]; [by apply elem_of_nil in Hin|].
  apply NoDup_cons in Hnd as [Ha Hnd]. simpl.
  destruct (String.eqb_spec a k) as [->|Hak].
  - rewrite Heq. f_equal.
    apply list_fmap_ext. intros i k' Hk'.
    rewrite Hne; [done|]. intros ->. apply Ha. by eapply list_elem_of_lookup_2.
  - rewrite Hne by done. f_equal. apply IH; [done|].
    apply elem_of_cons in Hin as [->|]; done.
Qed.

Lemma valuesByKey_snoc data d :
  D3.valuesByKey keyf (data ++ [d])
  = D3.nest_add (keyf d) d (D3.valuesByKey keyf data).
Proof. unfold D3.valuesByKey. by rewrite foldl_app. Qed.

Lemma valuesByKey_groupsOf data : D3.valuesByKey keyf data = groupsOf keyf data.
Proof.
  induction data as [|d data IH] using rev_ind; [done|].
  rewrite valuesByKey_snoc, IH. unfold groupsOf.
  rewrite fmap_app. simpl. rewrite firstSeen_snoc.
  case_decide as Hin.
  - apply nest_add_present; [apply NoDup_firstSeen|done| |].
    + intros k' Hk'. rewrite filter_app, filter_cons_False, filter_nil by done.
      by rewrite app_nil_r.
    + by rewrite filter_app, filter_cons_True, filter_nil.
  - rewrite nest_add_fresh.
    2:{ rewrite <-list_fmap_compose. simpl. by rewrite list_fmap_id. }
    rewrite fmap_app. simpl. f_equal.
    + apply list_fmap_ext. intros i k' Hk'. f_equal.
      rewrite filter_app, filter_cons_False, filter_nil; [by rewrite app_nil_r|].
      intros Heq. apply Hin. rewrite Heq. by eapply list_elem_of_lookup_2.
    + do 2 f_equal. rewrite filter_app, filter_cons_True, filter_nil by done.
      rewrite filter_none; [done|].
      intros d' Hd' Heq. apply Hin, elem_of_firstSeen.
      rewrite <-Heq. by apply list_elem_of_fmap_2.
Qed.

(** The groups of [d3.nest]: one for each distinct key, holding the
    records of that key, the keys in enumeration order. *)
Lemma nest_map_groups data :
  D3.nest_map keyf data
  = (fun k => (k, filter (fun d => keyf d = k) data))
      <$> forIn id (firstSeen (keyf <$> data)).
Proof.
  unfold D3.nest_map. rewrite valuesByKey_groupsOf. unfold groupsOf.
  by rewrite forIn_fmap.
Qed.
End Nest.

(** In the list of first occurrences an earlier key is one that occurs
    in [l] at a place before which the later key does not occur. *)
Lemma firstSeen_order (l : list string) (i j : nat) (k1 k2 : string) :
  firstSeen l !! i = Some k1 -> firstSeen l !! j = Some k2 -> (i < j)%nat ->
  exists p, l !! p = Some k1 /\ k2 ∉ take p l.
Proof.
  revert i j k1 k2. induction l as [|k l IH] using rev_ind; intros i j k1 k2 H1 H2 Hij.
  - done.
  - rewrite firstSeen_snoc in H1, H2.
    destruct (decide (k ∈ firstSeen l)) as [Hin|Hnin].
    + destruct (IH i j k1 k2 H1 H2 Hij) as (p & Hp & Hk2).
      pose proof (lookup_lt_Some _ _ _ Hp).
      exists p. split; [by rewrite lookup_app_l|].
      by rewrite take_app_le by lia.
    + destruct (decide (j < length (firstSeen l))%nat) as [Hj|Hj].
      * rewrite lookup_app_l in H1, H2 by lia.
        destruct (IH i j k1 k2 H1 H2 Hij) as (p & Hp & Hk2).
        pose proof (lookup_lt_Some _ _ _ Hp).
        exists p. split; [by rewrite lookup_app_l|].
        by rewrite take_app_le by lia.
      * pose proof (lookup_lt_Some _ _ _ H2) as Hlen.
        rewrite length_app in Hlen. simpl in Hlen.
        assert (j = length (firstSeen l)) as -> by lia.
        rewrite lookup_app_l in H1 by lia.
        rewrite list_lookup_middle in H2 by done. injection H2 as <-.
        assert (k1 ∈ l) as (p & Hp)%list_elem_of_lookup
          by (eapply elem_of_firstSeen, list_elem_of_lookup_2; done).
        pose proof (lookup_lt_Some _ _ _ Hp).
        exists p. split; [by rewrite lookup_app_l|].
        rewrite take_app_le by lia. intros (q & Hq & _)%elem_of_take.
        apply Hnin, elem_of_firstSeen. by eapply list_elem_of_lookup_2.
Qed.

(** The enumeration of the distinct keys of [occ] is in the order that
    [enumOrdered] describes. *)
Lemma forIn_enumOrdered (occ : list string) :
  enumOrdered occ (forIn id (firstSeen occ)).
Proof.
  intros k1 k2 Hb.
  pose proof (forIn_before id k1 k2 (firstSeen occ)) as Hord.
  rewrite list_fmap_id in Hord. specialize (Hord (NoDup_firstSeen occ) Hb).
  unfold id in Hord.
  destruct (arrayIndex k1), (arrayIndex k2); try done.
  apply before_lookup in Hord as (i & j & Hij & Hi & Hj).
  by eapply firstSeen_order.
Qed.

(** ** The aggregator *)

Lemma aggregateByCol_groups colName data rc :
  aggregateByCol colName data rc =
  (fun k => Leaf k (rollup rc (groupOf colName data k)))
    <$> forIn id (firstSeen (nestKey colName <$> data)).
Proof.
  unfold aggregateByCol. rewrite nest_map_groups.
  by rewrite <-list_fmap_compose.
Qed.

Lemma aggregateByCol_keys colName data rc :
  key <$> aggregateByCol colName data rc
  = forIn id (firstSeen (nestKey colName <$> data)).
Proof.
  rewrite aggregateByCol_groups, <-list_fmap_compose.
  rewrite <-(list_fmap_id (forIn _ _)) at 2. by apply list_fmap_ext.
Qed.

Lemma aggregateByCol_keys_Permutation colName data rc :
  key <$> aggregateByCol colName data rc ≡ₚ firstSeen (nestKey colName <$> data).
Proof. rewrite aggregateByCol_keys. apply forIn_Permutation. Qed.

Lemma elem_of_aggregateByCol_keys colName data rc k :
  k ∈ key <$> aggregateByCol colName data rc <-> k ∈ nestKey colName <$> data.
Proof. by rewrite aggregateByCol_keys_Permutation, elem_of_firstSeen. Qed.

Lemma NoDup_aggregateByCol_keys colName data rc :
  NoDup (key <$> aggregateByCol colName data rc).
Proof. rewrite aggregateByCol_keys_Permutation. apply NoDup_firstSeen. Qed.

Lemma elem_of_aggregateByCol colName data rc e :
  e ∈ aggregateByCol colName data rc ->
  e = Leaf (key e) (rollup rc (groupOf colName data (key e))) /\
  exists d, d ∈ data /\ nestKey colName d = key e.
Proof.
  rewrite aggregateByCol_groups. intros (k & -> & Hk)%list_elem_of_fmap.
  split; [done|]. simpl.
  apply elem_of_forIn, elem_of_firstSeen, list_elem_of_fmap in Hk as (d & -> & Hd).
  eauto.
Qed.

(** Every key of the dataset has its entry. *)
Lemma aggregateByCol_entry_of colName data rc d :
  d ∈ data ->
  Leaf (nestKey colName d) (rollup rc (groupOf colName data (nestKey colName d)))
    ∈ aggregateByCol colName data rc.
Proof.
  intros Hd. rewrite aggregateByCol_groups.
  apply (list_elem_of_fmap_2 (fun k => Leaf k (rollup rc (groupOf colName data k)))).
  apply elem_of_forIn, elem_of_firstSeen. by apply list_elem_of_fmap_2.
Qed.

(** Two entries of one aggregation that bear the same key are the same
    entry. *)
Lemma aggregateByCol_key_inj colName data rc a b :
  a ∈ aggregateByCol colName data rc -> b ∈ aggregateByCol colName data rc ->
  key a = key b -> a = b.
Proof.
  intros [Ha _]%elem_of_aggregateByCol [Hb _]%elem_of_aggregateByCol Hk.
  rewrite Ha, Hb. by rewrite Hk.
Qed.

Lemma aggregateByCol_entries colName data rc :
  Forall isEntry (aggregateByCol colName data rc).
Proof. apply Forall_forall. by intros e [-> _]%elem_of_aggregateByCol. Qed.

Lemma aggregateByCol_nil_iff colName data rc :
  aggregateByCol colName data rc = [] <-> data = [].
Proof.
  split; [|by intros ->].
  intros Hagg. destruct data as [|d data]; [done|].
  assert (nestKey colName d ∈ key <$> aggregateByCol colName (d :: data) rc) as Hin.
  { apply elem_of_aggregateByCol_keys. left. }
  rewrite Hagg in Hin. by apply elem_of_nil in Hin.
Qed.

Lemma aggregateByCol_inhabited colName data rc :
  data ≠ [] -> exists e, e ∈ aggregateByCol colName data rc.
Proof.
  intros Hne. destruct (aggregateByCol colName data rc) as [|e l] eqn:Hagg.
  - by apply aggregateByCol_nil_iff in Hagg.
  - exists e. left.
Qed.

(** The order of the entries. *)
Lemma aggregateByCol_enumOrdered colName data rc :
  enumOrdered (nestKey colName <$> data) (key <$> aggregateByCol colName data rc) /\
  ((forall k, k ∈ nestKey colName <$> data -> arrayIndex k = None) ->
   key <$> aggregateByCol colName data rc = firstSeen (nestKey colName <$> data)).
Proof.
  rewrite aggregateByCol_keys. split; [apply forIn_enumOrdered|].
  intros Hnone. apply forIn_named. intros k Hk.
  apply Hnone. by apply elem_of_firstSeen.
Qed.

(** ** The rollup *)

Lemma rollup_count leaves : rollup "" leaves = Num (Z.of_nat (length leaves)).
Proof. done. Qed.

(** [d3.sum] is the sum, with JavaScript's [+], of the values that are
    not [NaN]. *)
Lemma d3_sum_numeric {A} (array : list A) (f : A -> JSNum) :
  D3.sum array f = plainSum (numeric (f <$> array)).
Proof.
  unfold D3.sum, plainSum, numeric. generalize (Num 0).
  induction array as [|x array IH]; intros acc; csimpl; [done|].
  destruct (isNaN (f x)); simpl; apply IH.
Qed.

Lemma sumZ_nonneg {A} (g : A -> Z) (l : list A) :
  (forall x, 0 <= g x) -> 0 <= sumZ (g <$> l).
Proof.
  intros Hg. induction l as [|x l IH]; csimpl; [done|]. specialize (Hg x). lia.
Qed.

Lemma sumZ_sublist {A} (g : A -> Z) (l k : list A) :
  (forall x, 0 <= g x) -> l `sublist_of` k -> sumZ (g <$> l) <= sumZ (g <$> k).
Proof.
  intros Hg. induction 1 as [|x l k _ IH|x l k _ IH]; csimpl; [done|lia|].
  specialize (Hg x). lia.
Qed.

(** A sum whose terms are finite and small enough is never rounded. *)
Lemma d3_sum_exact {A} (array : list A) (f : A -> JSNum) :
  Forall (fun x => forall s, f x ≠ Inf s) array ->
  sumZ ((fun x => Z.abs (match f x with Num z => z | _ => 0 end)) <$> array)
    <= maxExact ->
  D3.sum array f = Num (numericTotal (f <$> array)).
Proof.
  intros Hfin Hsum. unfold D3.sum.
  enough (forall acc,
            Z.abs acc
            + sumZ ((fun x => Z.abs (match f x with Num z => z | _ => 0 end)) <$> array)
              <= maxExact ->
            foldl (fun s x => let a := f x in if isNaN a then s else add s a)
              (Num acc) array = Num (acc + numericTotal (f <$> array))) as H.
  { rewrite H; [done|]. simpl. lia. }
  clear Hsum. induction Hfin as [|x array Hx _ IH]; intros acc Hacc; csimpl in *.
  - f_equal. lia.
  - pose proof (sumZ_nonneg
                  (fun x => Z.abs (match f x with Num z => z | _ => 0 end)) array
                  ltac:(intros; lia)) as Hpos.
    destruct (f x) as [|z|s] eqn:Hfx; simpl.
    + rewrite IH; [done|]. lia.
    + rewrite toDouble_exact by lia. rewrite IH by lia. f_equal. lia.
    + by destruct (Hx s).
Qed.

Lemma exactRollup_sublist rc (g data : list DataRow) :
  g `sublist_of` data -> exactRollup rc data -> exactRollup rc g.
Proof.
  intros Hsub [Hrc|[Hfin Hsum]]; [by left|right]. split.
  - eapply Forall_forall. intros d Hd. rewrite Forall_forall in Hfin.
    apply Hfin. by eapply elem_of_sublist.
  - etrans; [|exact Hsum]. apply sumZ_sublist; [intros; lia|done].
Qed.

Lemma totalWeight_count l : totalWeight "" l = Z.of_nat (length l).
Proof.
  induction l as [|d l IH]; [done|].
  change (totalWeight "" (d :: l)) with (1 + totalWeight "" l).
  rewrite IH. simpl length. lia.
Qed.

(** Where the rollups are exact, the rollup of a list of records is the
    integer sum of their weights. *)
Lemma rollup_totalWeight rc leaves :
  exactRollup rc leaves -> rollup rc leaves = Num (totalWeight rc leaves).
Proof.
  intros Hex. unfold rollup.
  destruct (String.eqb_spec rc "") as [->|Hne].
  - by rewrite totalWeight_count.
  - destruct Hex as [?|[Hfin Hsum]]; [done|].
    rewrite d3_sum_exact.
    + f_equal. unfold totalWeight, metricWeight.
      destruct (String.eqb_spec rc ""); [done|].
      induction leaves as [|d leaves IH]; csimpl; [done|].
      rewrite IH.
      * by destruct (parseInt (getProp d rc)).
      * by apply Forall_cons in Hfin as [_ ?].
      * csimpl in Hsum.
        pose proof (sumZ_nonneg (fun d => Z.abs (metricWeight rc d)) leaves
                      ltac:(intros; lia)).
        lia.
    + exact Hfin.
    + etrans; [|exact Hsum]. apply Z.eq_le_incl. f_equal.
      apply list_fmap_ext. intros i d _. unfold metricWeight.
      by destruct (String.eqb_spec rc "").
Qed.

Lemma rollup_group colName data rc k :
  exactRollup rc data ->
  rollup rc (groupOf colName data k) = Num (totalWeight rc (groupOf colName data k)).
Proof.
  intros Hex. apply rollup_totalWeight.
  eapply exactRollup_sublist; [apply sublist_filter|done].
Qed.

Lemma aggregateByCol_intEntries colName data rc :
  exactRollup rc data -> Forall isIntEntry (aggregateByCol colName data rc).
Proof.
  intros Hex. apply Forall_forall. intros e [-> _]%elem_of_aggregateByCol.
  rewrite rollup_group by done. by eexists _, _.
Qed.

(** ** What the entries add up to *)

Lemma sumValues_entries (ks : list string) (g : string -> Z) :
  sumValues ((fun k => Leaf k (Num (g k))) <$> ks) = Num (sumZ (g <$> ks)).
Proof.
  unfold sumValues.
  enough (forall acc, foldl (fun s e => plus s (numOf (values e))) (Num acc)
                        ((fun k => Leaf k (Num (g k))) <$> ks)
                      = Num (acc + sumZ (g <$> ks))) as Hacc by by rewrite Hacc.
  induction ks as [|k ks IH]; intros acc; csimpl.
  - f_equal. lia.
  - rewrite IH. f_equal. lia.
Qed.

Lemma sumZ_indicator (x : string) (c : Z) (l : list string) :
  NoDup l ->
  sumZ ((fun k => if decide (x = k) then c else 0) <$> l)
  = if decide (x ∈ l) then c else 0.
Proof.
  induction 1 as [|k l Hk Hnd IH]; csimpl; [done|].
  rewrite IH. repeat case_decide; subst; try lia; set_solver.
Qed.

Lemma sumZ_plus {A} (f g : A -> Z) (l : list A) :
  sumZ ((fun k => f k + g k) <$> l) = sumZ (f <$> l) + sumZ (g <$> l).
Proof. induction l as [|k l IH]; csimpl; [done|]. rewrite IH. lia. Qed.

(** Summing the groups of the keys that satisfy [P] is summing the
    records whose key satisfies [P]. *)
Lemma totalWeight_partition (keyf : DataRow -> string) (rc : string)
    (P : string -> Prop) `{!forall k, Decision (P k)} (ks : list string)
    (data : list DataRow) :
  NoDup ks -> (forall d, d ∈ data -> keyf d ∈ ks) ->
  sumZ ((fun k => totalWeight rc (filter (fun d => keyf d = k) data)) <$> filter P ks)
  = totalWeight rc (filter (fun d => P (keyf d)) data).
Proof.
  intros Hnd. induction data as [|d data IH]; intros Hks.
  - simpl. induction (filter P ks) as [|k l IHl]; csimpl; [done|]. by rewrite IHl.
  - assert (forall k, totalWeight rc (filter (fun d0 => keyf d0 = k) (d :: data))
              = (if decide (keyf d = k) then metricWeight rc d else 0)
                + totalWeight rc (filter (fun d0 => keyf d0 = k) data)) as Hstep.
    { intros k. rewrite filter_cons. by destruct (decide (keyf d = k)). }
    erewrite list_fmap_ext; [|intros i k _; apply Hstep].
    rewrite sumZ_plus, IH by (intros d' Hd'; apply Hks; by right).
    rewrite sumZ_indicator by (eapply sublist_NoDup; [done|apply sublist_filter]).
    rewrite filter_cons.
    destruct (decide (P (keyf d))) as [HP|HP].
    + rewrite decide_True; [done|].
      apply list_elem_of_filter. split; [done|]. apply Hks. by left.
    + rewrite decide_False; [done|]. by intros [? _]%list_elem_of_filter.
Qed.

Lemma filter_fmap_comm {A B} (f : A -> B) (P : B -> Prop)
    `{!forall y, Decision (P y)} (l : list A) :
  filter P (f <$> l) = f <$> filter (fun x => P (f x)) l.
Proof.
  induction l as [|x l IH]; csimpl; [done|].
  rewrite !filter_cons, IH. by destruct (decide (P (f x))).
Qed.

(** Among the entries, those whose key satisfies [P] add up to the weight
    of the records whose key satisfies [P]. *)
Lemma aggregateByCol_filter_total colName data rc (P : string -> Prop)
    `{!forall k, Decision (P k)} :
  exactRollup rc data ->
  sumValues (filter (fun e => P (key e)) (aggregateByCol colName data rc))
  = Num (totalWeight rc (filter (fun d => P (nestKey colName d)) data)).
Proof.
  intros Hex. rewrite aggregateByCol_groups.
  erewrite list_fmap_ext; [|intros i k _; by rewrite rollup_group].
  rewrite (filter_fmap_comm _ (fun e => P (key e))). simpl.
  rewrite (sumValues_entries _ (fun k => totalWeight rc (groupOf colName data k))).
  f_equal. unfold groupOf. apply totalWeight_partition.
  - rewrite forIn_Permutation. apply NoDup_firstSeen.
  - intros d Hd. apply elem_of_forIn, elem_of_firstSeen. by apply list_elem_of_fmap_2.
Qed.

Lemma sumValues_aggregateByCol colName data rc :
  exactRollup rc data ->
  sumValues (aggregateByCol colName data rc) = Num (totalWeight rc data).
Proof.
  intros Hex.
  pose proof (aggregateByCol_filter_total colName data rc (fun _ => True) Hex) as Hall.
  by rewrite !filter_all in Hall.
Qed.

Lemma sumValues_aggregateByCol_count colName data :
  sumValues (aggregateByCol colName data "") = Num (Z.of_nat (length data)).
Proof.
  rewrite sumValues_aggregateByCol by (by left). by rewrite totalWeight_count.
Qed.

(** C1. In count mode (empty metric column) the values of the entries
    that [aggregateByCol] returns, for any column or list of columns and
    any dataset, add up to the number of records of the dataset. *)
Theorem aggregateByCol_count_total (colName : ColSpec) (data : list DataRow) :
  sumValues (aggregateByCol colName data "") = Num (Z.of_nat (length data)).
Proof. apply sumValues_aggregateByCol_count. Qed.

(** ** The JSON copy *)

Lemma copyNode_key n : key (copyNode n) = key n.
Proof. by destruct n as [k [|z|s]|k|k l]. Qed.

Lemma copyObj_keys l : key <$> copyObj l = key <$> l.
Proof.
  unfold copyObj. rewrite <-list_fmap_compose.
  apply list_fmap_ext. intros i n _. apply copyNode_key.
Qed.

Lemma copyNode_isEntry n : isEntry n -> isEntry (copyNode n).
Proof. by destruct n as [k [|z|s]|k|k l]. Qed.

(** An entry that holds an integer comes back as it was. *)
Lemma copyNode_intEntry n : isIntEntry n -> copyNode n = n.
Proof. by intros (k & z & ->). Qed.

Lemma copyObj_id l : (forall n, n ∈ l -> copyNode n = n) -> copyObj l = l.
Proof.
  intros Hl. unfold copyObj. rewrite <-(list_fmap_id l) at 2.
  apply list_fmap_ext. intros i n Hn. apply Hl. by eapply list_elem_of_lookup_2.
Qed.

Lemma copyNode_group e leaves :
  Forall isIntEntry leaves -> copyNode (Inner e leaves) = Inner e leaves.
Proof.
  intros Hl. simpl. f_equal. apply copyObj_id.
  intros n Hn. apply copyNode_intEntry. by eapply Forall_forall.
Qed.

(** ** [getNodes] and [getLinks]: what they return *)

Lemma getNodes_Ret styles data groups :
  getGroups styles data = Ret (Some groups) ->
  getNodes styles data =
  Ret (Inner "" (copyObj (JS.sort (sortBy styles F_key)
                            (rootValuesOf styles data groups)))).
Proof. unfold getNodes. by intros ->. Qed.

Lemma elem_of_rootValuesOf styles data groups g :
  g ∈ rootValuesOf styles data groups <->
  exists e, e ∈ groups /\
    g = Inner e (JS.sort (sortBy styles F_values)
                   (aggregateByCol (OneCol e) data (rollupColName styles))).
Proof. unfold rootValuesOf. rewrite list_elem_of_fmap. naive_solver. Qed.

Lemma rootValuesOf_keys styles data groups :
  key <$> rootValuesOf styles data groups = groups.
Proof.
  unfold rootValuesOf. rewrite <-list_fmap_compose.
  rewrite <-(list_fmap_id groups) at 2. by apply list_fmap_ext.
Qed.

(** The children of the root: one node for each group, holding the copy
    of the sorted entries of its column. *)
Lemma elem_of_root_children styles data groups g :
  g ∈ copyObj (JS.sort (sortBy styles F_key) (rootValuesOf styles data groups)) <->
  exists e, e ∈ groups /\
    g = Inner e (copyObj (JS.sort (sortBy styles F_values)
                            (aggregateByCol (OneCol e) data (rollupColName styles)))).
Proof.
  unfold copyObj at 1. rewrite list_elem_of_fmap. split.
  - intros (g' & -> & (e & He & ->)%elem_of_sort%elem_of_rootValuesOf). eauto.
  - intros (e & He & ->). eexists. split; [|apply elem_of_sort, elem_of_rootValuesOf; eauto].
    done.
Qed.

(** Where the rollups are finite the copy changes nothing. *)
Lemma exactRollup_finiteRollups styles data groups :
  exactRollup (rollupColName styles) data -> finiteRollups styles data groups.
Proof. intros Hex g _. by apply aggregateByCol_intEntries. Qed.

Lemma copyObj_rootValues_finite styles data groups :
  finiteRollups styles data groups ->
  copyObj (JS.sort (sortBy styles F_key) (rootValuesOf styles data groups))
  = JS.sort (sortBy styles F_key) (rootValuesOf styles data groups).
Proof.
  intros Hfin. apply copyObj_id.
  intros g (e & He & ->)%elem_of_sort%elem_of_rootValuesOf.
  apply copyNode_group. apply Forall_forall. intros leaf Hleaf%elem_of_sort.
  by eapply Forall_forall; [apply Hfin|].
Qed.

Lemma copyObj_rootValues styles data groups :
  exactRollup (rollupColName styles) data ->
  copyObj (JS.sort (sortBy styles F_key) (rootValuesOf styles data groups))
  = JS.sort (sortBy styles F_key) (rootValuesOf styles data groups).
Proof. intros Hex. by apply copyObj_rootValues_finite, exactRollup_finiteRollups. Qed.

Lemma getNodes_Ret_finite styles data groups :
  getGroups styles data = Ret (Some groups) ->
  finiteRollups styles data groups ->
  getNodes styles data =
  Ret (Inner "" (JS.sort (sortBy styles F_key) (rootValuesOf styles data groups))).
Proof.
  intros Hg Hfin. by rewrite (getNodes_Ret _ _ _ Hg), copyObj_rootValues_finite.
Qed.

Lemma getNodes_Ret_exact styles data groups :
  getGroups styles data = Ret (Some groups) ->
  exactRollup (rollupColName styles) data ->
  getNodes styles data =
  Ret (Inner "" (JS.sort (sortBy styles F_key) (rootValuesOf styles data groups))).
Proof.
  intros Hg Hex. by apply getNodes_Ret_finite, exactRollup_finiteRollups.
Qed.

Lemma getGroupPairs_Ret styles data groups :
  getGroups styles data = Ret (Some groups) ->
  getGroupPairs styles data = Ret (pairsOf groups).
Proof. unfold getGroupPairs. by intros ->. Qed.

Lemma getLinks_Ret styles data nodes pairs :
  getGroupPairs styles data = Ret pairs ->
  getLinks styles data nodes
  = Ret (pairs ≫= linksOfPair styles (mapNameNodeOf nodes) data).
Proof. unfold getLinks. by intros ->. Qed.

(** On a dataset with a first record, and with a name in one of the two
    lists, the groups are derived. *)
Lemma getGroups_defined styles data :
  data ≠ [] ->
  groupColNames styles ≠ [] \/ groupColNamesAllExcept styles ≠ [] ->
  exists groups, getGroups styles data = Ret (Some groups).
Proof.
  intros Hd Hl. unfold getGroups.
  destruct (groupColNames styles) as [|g gs]; simpl; [|eauto].
  destruct (groupColNamesAllExcept styles) as [|x xs]; simpl.
  - by destruct Hl.
  - destruct data; [done|eauto].
Qed.

(** ** The order of the hierarchy *)

Lemma String_ltb_leb a b : String.ltb a b = true -> String.leb a b = true.
Proof. unfold String.ltb, String.leb. by destruct (String.compare a b). Qed.

Lemma String_nlt_leb a b : String.ltb a b = false -> String.leb b a = true.
Proof.
  unfold String.ltb, String.leb. rewrite (String.compare_antisym b a).
  by destruct (String.compare a b).
Qed.

Lemma String_ltb_irrefl a : String.ltb a a = false.
Proof.
  unfold String.ltb. pose proof (String.compare_antisym a a) as Hopp.
  destruct (String.compare a a); simpl in Hopp; congruence.
Qed.

Lemma String_ltb_total a b :
  String.ltb a b = false -> a ≠ b -> String.ltb b a = true.
Proof.
  unfold String.ltb. intros Hlt Hne. rewrite (String.compare_antisym b a).
  destruct (String.compare a b) eqn:Hc; try done.
  by apply String.compare_eq_iff in Hc.
Qed.

Lemma String_ltb_asym a b : String.ltb a b = true -> String.ltb b a = false.
Proof.
  unfold String.ltb. rewrite (String.compare_antisym a b).
  by destruct (String.compare b a).
Qed.

Lemma sortBy_values styles ka x kb y :
  sortBy styles F_values (Leaf ka (Num x)) (Leaf kb (Num y)) =
  if x <? y then sort styles else if y =? x then 0 else - sort styles.
Proof. done. Qed.

Lemma sortBy_key styles a b :
  sortBy styles F_key a b =
  if String.ltb (key a) (key b) then sort styles
  else if String.eqb (key b) (key a) then 0 else - sort styles.
Proof. done. Qed.

Section SortByOrder.
Context (styles : Styles).

Lemma sortBy_values_desc a b :
  sort styles = 1 -> isIntEntry a -> isIntEntry b ->
  (sortBy styles F_values a b <= 0 -> valueGe a b) /\
  (0 < sortBy styles F_values a b -> valueGe b a).
Proof.
  intros Hs (ka & x & ->) (kb & y & ->). rewrite sortBy_values, Hs.
  unfold valueGe; simpl.
  destruct (Z.ltb_spec x y), (Z.eqb_spec y x); split; intros ?;
    try lia; eexists _, _; (split_and!; [done|done|lia]).
Qed.

Lemma sortBy_values_asc a b :
  sort styles = -1 -> isIntEntry a -> isIntEntry b ->
  (sortBy styles F_values a b <= 0 -> valueLe a b) /\
  (0 < sortBy styles F_values a b -> valueLe b a).
Proof.
  intros Hs (ka & x & ->) (kb & y & ->). rewrite sortBy_values, Hs.
  unfold valueLe; simpl.
  destruct (Z.ltb_spec x y), (Z.eqb_spec y x); split; intros ?;
    try lia; eexists _, _; (split_and!; [done|done|lia]).
Qed.

Lemma sortBy_key_desc a b :
  sort styles = 1 ->
  (sortBy styles F_key a b <= 0 -> keyGe a b) /\
  (0 < sortBy styles F_key a b -> keyGe b a).
Proof.
  intros Hs. rewrite sortBy_key, Hs. unfold keyGe.
  destruct (String.ltb (key a) (key b)) eqn:Hlt.
  - split; [lia|]. intros _. by apply String_ltb_leb.
  - split; [intros _; by apply String_nlt_leb|].
    destruct (String.eqb (key b) (key a)); lia.
Qed.

Lemma sortBy_key_asc a b :
  sort styles = -1 ->
  (sortBy styles F_key a b <= 0 -> keyLe a b) /\
  (0 < sortBy styles F_key a b -> keyLe b a).
Proof.
  intros Hs. rewrite sortBy_key, Hs. unfold keyLe.
  destruct (String.ltb (key a) (key b)) eqn:Hlt.
  - split; [|lia]. intros _. by apply String_ltb_leb.
  - destruct (String.eqb_spec (key b) (key a)) as [Heq|Hne].
    + split; [|lia]. intros _. rewrite Heq.
      apply String_nlt_leb, String_ltb_irrefl.
    + split; [lia|]. intros _. by apply String_nlt_leb.
Qed.

Lemma sortBy_unsorted f a b : sort styles = 0 -> sortBy styles f a b <= 0.
Proof.
  intros Hs. unfold sortBy. rewrite Hs.
  destruct (js_gt (getField f b) (getField f a)),
    (js_seq (getField f b) (getField f a)); lia.
Qed.

Lemma sortBy_values_tied v a b :
  numValue a = Some v -> numValue b = Some v ->
  sortBy styles F_values a b <= 0.
Proof.
  destruct a as [ka [|x|s]| |]; try done. destruct b as [kb [|y|t]| |]; try done.
  simpl. intros [= ->] [= ->]. rewrite sortBy_values.
  rewrite Z.ltb_irrefl, Z.eqb_refl. lia.
Qed.

Lemma sortBy_key_tied k a b :
  key a = k -> key b = k -> sortBy styles F_key a b <= 0.
Proof.
  intros <- Hb. rewrite sortBy_key, Hb, String_ltb_irrefl, String.eqb_refl. lia.
Qed.

Lemma sortBy_values_total a b :
  isIntEntry a -> isIntEntry b ->
  0 < sortBy styles F_values a b -> sortBy styles F_values b a <= 0.
Proof.
  intros (ka & x & ->) (kb & y & ->). rewrite !sortBy_values.
  destruct (Z.ltb_spec x y), (Z.ltb_spec y x), (Z.eqb_spec x y), (Z.eqb_spec y x);
    lia.
Qed.

Lemma sortBy_key_total a b :
  0 < sortBy styles F_key a b -> sortBy styles F_key b a <= 0.
Proof.
  rewrite !sortBy_key.
  destruct (String.ltb (key a) (key b)) eqn:Hab.
  - rewrite (String_ltb_asym _ _ Hab).
    destruct (String.eqb_spec (key a) (key b)) as [Heq|_]; [|lia].
    rewrite Heq, String_ltb_irrefl in Hab. done.
  - destruct (String.eqb_spec (key b) (key a)) as [Heq|Hne]; [lia|].
    rewrite (String_ltb_total _ _ Hab) by done. lia.
Qed.
End SortByOrder.

Lemma sort_leavesOrdered styles occ agg :
  Forall isIntEntry agg ->
  enumOrdered occ (key <$> agg) ->
  ((forall k, k ∈ occ -> arrayIndex k = None) -> key <$> agg = firstSeen occ) ->
  leavesOrdered styles occ agg (JS.sort (sortBy styles F_values) agg).
Proof.
  intros Hagg Henum Hfirst. split_and!; [done|done|..].
  - apply sort_Permutation.
  - intros v. apply sort_stable. intros a b. apply sortBy_values_tied.
  - intros Hs. apply (sort_Sorted _ isIntEntry); [| |done].
    + intros x y Hx Hy. by apply sortBy_values_desc.
    + intros x y Hx Hy. by apply sortBy_values_desc.
  - intros Hs. apply (sort_Sorted _ isIntEntry); [| |done].
    + intros x y Hx Hy. by apply sortBy_values_asc.
    + intros x y Hx Hy. by apply sortBy_values_asc.
  - intros Hs. apply sort_id. intros a b. by apply sortBy_unsorted.
Qed.

(** Infinite metric values make rollups that are no finite numbers, which
    the JSON copy turns into [null]: such a leaf holds no value to be in
    order by. *)
Example getNodes_infinite_metric :
  parseInt (Some (JStr hugeDigits)) = Inf false /\
  getNodes metricStyles infiniteMetricData
  = Ret (Inner "" [Inner "A" [Nulled "x"]]).
Proof. split; vm_compute; reflexivity. Qed.

(** C5, amended. In the hierarchy that [getNodes] builds, where every
    rollup is a finite number (as in count mode): with [sort = 1] the
    leaves under each group-column node are in non-increasing order of
    value and the group-column nodes in non-increasing order of key;
    with [sort = -1] both orders are non-decreasing; with [sort = 0] the
    leaves keep the order in which [d3.nest] enumerates its keys (the
    values that are array indices first, in ascending numeric order,
    then the others in the order in which they are first seen; the
    first-seen order when no value is an array index) and the
    group-column nodes the derived order of the groups; and in every
    case elements that compare equal keep their relative order. *)
Theorem getNodes_ordered (styles : Styles) (data : list DataRow)
    (groups : list string) :
  getGroups styles data = Ret (Some groups) ->
  finiteRollups styles data groups ->
  exists gs, getNodes styles data = Ret (Inner "" gs) /\
             hierarchyOrdered styles data groups gs.
Proof.
  intros Hg Hfin. eexists. split; [by apply getNodes_Ret_finite|].
  split_and!.
  - intros g (e & He & ->)%elem_of_sort%elem_of_rootValuesOf.
    eexists. split_and!; [done..|]. simpl.
    destruct (aggregateByCol_enumOrdered (OneCol e) data (rollupColName styles)).
    by apply sort_leavesOrdered; [apply Hfin|..].
  - intros k. apply sort_stable. intros a b. apply sortBy_key_tied.
  - intros Hs. apply (sort_Sorted _ (fun _ => True)); [| |by apply Forall_true].
    + intros x y _ _. by apply sortBy_key_desc.
    + intros x y _ _. by apply sortBy_key_desc.
  - intros Hs. apply (sort_Sorted _ (fun _ => True)); [| |by apply Forall_true].
    + intros x y _ _. by apply sortBy_key_asc.
    + intros x y _ _. by apply sortBy_key_asc.
  - intros Hs. rewrite sort_id; [apply rootValuesOf_keys|].
    intros a b. by apply sortBy_unsorted.
Qed.

Lemma getNodes_ordered_witness :
  getGroups scenarioStyles scenarioData = Ret (Some ["A"; "B"]) /\
  finiteRollups scenarioStyles scenarioData ["A"; "B"] /\
  exists gs, getNodes scenarioStyles scenarioData = Ret (Inner "" gs) /\
             hierarchyOrdered scenarioStyles scenarioData ["A"; "B"] gs.
Proof.
  assert (finiteRollups scenarioStyles scenarioData ["A"; "B"]) as Hfin.
  { apply exactRollup_finiteRollups. left. reflexivity. }
  split; [reflexivity|]. split; [exact Hfin|].
  apply (getNodes_ordered scenarioStyles scenarioData ["A"; "B"]);
    [reflexivity|exact Hfin].
Defined.

(** C5 as it was stated fails: with [sort = 0] and the values [10], [9],
    [b], [2] in this order in the dataset, the leaves come in the order
    [2], [9], [10], [b], which is not the order in which the values are
    first seen. *)
Lemma getNodes_unsorted_not_first_seen :
  sort unsortedStyles = 0 /\
  getNodes unsortedStyles indexKeyData
  = Ret (Inner "" [Inner "A" [Leaf "2" (Num 1); Leaf "9" (Num 1);
                              Leaf "10" (Num 1); Leaf "b" (Num 1)]]) /\
  firstSeen (nestKey (OneCol "A") <$> indexKeyData) = ["10"; "9"; "b"; "2"] /\
  ~ (forall gs col leaves,
       getNodes unsortedStyles indexKeyData = Ret (Inner "" gs) ->
       Inner col leaves ∈ gs ->
       key <$> leaves = firstSeen (nestKey (OneCol col) <$> indexKeyData)).
Proof.
  split; [reflexivity|]. split; [vm_compute; reflexivity|].
  split; [vm_compute; reflexivity|].
  intros H.
  specialize (H [Inner "A" [Leaf "2" (Num 1); Leaf "9" (Num 1);
                            Leaf "10" (Num 1); Leaf "b" (Num 1)]]
                "A" [Leaf "2" (Num 1); Leaf "9" (Num 1);
                     Leaf "10" (Num 1); Leaf "b" (Num 1)]).
  assert (key <$> [Leaf "2" (Num 1); Leaf "9" (Num 1); Leaf "10" (Num 1);
                   Leaf "b" (Num 1)]
          = firstSeen (nestKey (OneCol "A") <$> indexKeyData)) as Heq.
  { apply H; [vm_compute; reflexivity|left]. }
  vm_compute in Heq. discriminate.
Qed.

(** ** Count mode: conservation and positivity *)

Lemma linkTotal_linksOfPair styles m data pair :
  linkTotal (linksOfPair styles m data pair)
  = sumValues (aggregateByCol (ManyCols pair) data (rollupColName styles)).
Proof. unfold linkTotal, linksOfPair, sumValues. by rewrite foldl_fmap. Qed.

Lemma bind_elem_split {A B} (f : A -> list B) (l : list A) (x : A) :
  x ∈ l -> exists pre post, l ≫= f = pre ++ f x ++ post.
Proof.
  intros (l1 & l2 & ->)%list_elem_of_split.
  exists (l1 ≫= f), (l2 ≫= f). by rewrite bind_app, bind_cons.
Qed.

Lemma elem_of_pairsOf_iff pair groups :
  pair ∈ pairsOf groups <->
  exists i j a b, (i < j)%nat /\ groups !! i = Some a /\ groups !! j = Some b /\
                  pair = [a; b].
Proof.
  unfold pairsOf. rewrite list_elem_of_bind. split.
  - intros (i & (j & Hp & Hj%elem_of_seq)%list_elem_of_bind & Hi%elem_of_seq).
    destruct (groups !! i) as [a|] eqn:Ha; [|by apply elem_of_nil in Hp].
    destruct (groups !! j) as [b|] eqn:Hb; [|by apply elem_of_nil in Hp].
    apply list_elem_of_singleton in Hp as ->.
    exists i, j, a, b. split_and!; [lia|done..].
  - intros (i & j & a & b & Hij & Ha & Hb & ->).
    pose proof (lookup_lt_Some _ _ _ Ha). pose proof (lookup_lt_Some _ _ _ Hb).
    exists i. split; [|apply elem_of_seq; lia].
    apply list_elem_of_bind. exists j. split; [|apply elem_of_seq; lia].
    rewrite Ha, Hb. by left.
Qed.

Lemma linksOfPair_nil_iff styles m data pair :
  linksOfPair styles m data pair = [] <-> data = [].
Proof.
  unfold linksOfPair. rewrite <-(aggregateByCol_nil_iff (ManyCols pair) data
                                   (rollupColName styles)).
  split; [apply fmap_nil_inv|by intros ->].
Qed.

(** C2. In count mode, on a dataset that is not empty: every pair of
    derived group columns [groups[i]], [groups[j]] with [i < j] has its
    links among those that [getLinks] returns, one run of links for each
    pair, and the values of the links of the pair add up to the number
    of records. *)
Theorem getLinks_count_conservation (styles : Styles) (data : list DataRow)
    (nodes : list JNode) (groups : list string) :
  data ≠ [] ->
  rollupColName styles = "" ->
  getGroups styles data = Ret (Some groups) ->
  exists links, getLinks styles data nodes = Ret links /\
    links = pairsOf groups ≫= linksOfPair styles (mapNameNodeOf nodes) data /\
    forall i j a b, (i < j)%nat -> groups !! i = Some a -> groups !! j = Some b ->
      let pairLinks := linksOfPair styles (mapNameNodeOf nodes) data [a; b] in
      (exists pre post, links = pre ++ pairLinks ++ post) /\
      pairLinks ≠ [] /\
      linkTotal pairLinks = Num (Z.of_nat (length data)).
Proof.
  intros Hdata Hrc Hg. eexists. split; [by apply getLinks_Ret, getGroupPairs_Ret|].
  split; [done|]. intros i j a b Hij Ha Hb pairLinks. split_and!.
  - apply bind_elem_split, elem_of_pairsOf_iff. by exists i, j, a, b.
  - unfold pairLinks. by rewrite linksOfPair_nil_iff.
  - unfold pairLinks. rewrite linkTotal_linksOfPair, Hrc.
    apply sumValues_aggregateByCol_count.
Qed.

Lemma getLinks_count_conservation_witness :
  scenarioData ≠ [] /\
  rollupColName scenarioStyles = "" /\
  getGroups scenarioStyles scenarioData = Ret (Some ["A"; "B"]) /\
  exists links, getLinks scenarioStyles scenarioData [] = Ret links /\
    links = pairsOf ["A"; "B"]
              ≫= linksOfPair scenarioStyles (mapNameNodeOf []) scenarioData /\
    forall i j a b, (i < j)%nat -> ["A"; "B"] !! i = Some a ->
      ["A"; "B"] !! j = Some b ->
      let pairLinks := linksOfPair scenarioStyles (mapNameNodeOf []) scenarioData [a; b] in
      (exists pre post, links = pre ++ pairLinks ++ post) /\
      pairLinks ≠ [] /\
      linkTotal pairLinks = Num (Z.of_nat (length scenarioData)).
Proof.
  split; [discriminate|]. split; [reflexivity|]. split; [reflexivity|].
  apply (getLinks_count_conservation scenarioStyles scenarioData [] ["A"; "B"]);
    [discriminate|reflexivity|reflexivity].
Defined.

(** In count mode an entry holds the size of a group that is not empty. *)
Lemma aggregateByCol_count_positive colName data e :
  e ∈ aggregateByCol colName data "" ->
  exists n, e = Leaf (key e) (Num n) /\ 1 <= n.
Proof.
  intros [He (d & Hd & Hk)]%elem_of_aggregateByCol.
  rewrite rollup_count in He. eexists. split; [done|].
  assert (d ∈ groupOf colName data (key e)) as Hin
    by by apply list_elem_of_filter.
  destruct (groupOf colName data (key e)); [by apply elem_of_nil in Hin|].
  simpl. lia.
Qed.

Lemma aggregateByCol_count_bounds colName data e :
  e ∈ aggregateByCol colName data "" ->
  exists n, e = Leaf (key e) (Num n) /\ 1 <= n <= Z.of_nat (length data).
Proof.
  intros He. destruct (aggregateByCol_count_positive _ _ _ He) as (n & Hn & Hpos).
  exists n. split; [done|]. split; [done|].
  apply elem_of_aggregateByCol in He as [He _]. rewrite rollup_count in He.
  rewrite He in Hn. injection Hn as <-.
  pose proof (length_filter (fun d => nestKey colName d = key e) data).
  unfold groupOf. lia.
Qed.



(** ** Round trip: the leaves of a group column *)

Lemma getProp_own d c v : ownProp d c = Some v -> getProp d c = Some v.
Proof. unfold getProp. by intros ->. Qed.

(** C7, amended. In the hierarchy of [getNodes] every derived group
    column has its node, and the keys of the leaves under the node of a
    column are, without repetition, exactly the strings that the reads
    [d[col]] print to over the records [d] of the dataset: where every
    record has the column among its own properties, these are exactly
    the values that the column takes (as the strings they print to); a
    record without the column is one more key (["undefined"], or the
    text of the member of [Object.prototype] of that name). *)
Theorem getNodes_leaf_keys (styles : Styles) (data : list DataRow)
    (groups : list string) :
  data ≠ [] ->
  getGroups styles data = Ret (Some groups) ->
  exists gs, getNodes styles data = Ret (Inner "" gs) /\
    (forall col, col ∈ groups -> exists leaves, Inner col leaves ∈ gs) /\
    (forall col leaves, Inner col leaves ∈ gs ->
       col ∈ groups /\
       NoDup (key <$> leaves) /\
       (forall k, k ∈ key <$> leaves <->
                  exists d, d ∈ data /\ toStr (getProp d col) = k) /\
       ((forall d, d ∈ data -> is_Some (ownProp d col)) ->
        forall k, k ∈ key <$> leaves <->
                  exists d v, d ∈ data /\ ownProp d col = Some v /\
                              toStr (Some v) = k)).
Proof.
  intros _ Hg. eexists. split; [by apply getNodes_Ret|]. split.
  - intros col Hcol. eexists. apply elem_of_root_children. eauto.
  - intros col leaves (e & He & [= -> ->])%elem_of_root_children.
    split; [done|].
    assert (key <$> copyObj (JS.sort (sortBy styles F_values)
                               (aggregateByCol (OneCol e) data (rollupColName styles)))
            ≡ₚ key <$> aggregateByCol (OneCol e) data (rollupColName styles))
      as Hperm.
    { rewrite copyObj_keys. apply fmap_Permutation, sort_Permutation. }
    assert (forall k, k ∈ key <$> copyObj (JS.sort (sortBy styles F_values)
                        (aggregateByCol (OneCol e) data (rollupColName styles))) <->
                      exists d, d ∈ data /\ toStr (getProp d e) = k) as Hkeys.
    { intros k. rewrite Hperm, elem_of_aggregateByCol_keys, list_elem_of_fmap.
      simpl. naive_solver. }
    split_and!.
    + rewrite Hperm. apply NoDup_aggregateByCol_keys.
    + exact Hkeys.
    + intros Hown k. rewrite Hkeys. split.
      * intros (d & Hd & <-). destruct (Hown d Hd) as [v Hv].
        exists d, v. by rewrite (getProp_own _ _ _ Hv).
      * intros (d & v & Hd & Hv & <-). exists d. by rewrite (getProp_own _ _ _ Hv).
Qed.

Lemma getNodes_leaf_keys_witness :
  scenarioData ≠ [] /\
  getGroups scenarioStyles scenarioData = Ret (Some ["A"; "B"]) /\
  exists gs, getNodes scenarioStyles scenarioData = Ret (Inner "" gs) /\
    (forall col, col ∈ ["A"; "B"] -> exists leaves, Inner col leaves ∈ gs) /\
    (forall col leaves, Inner col leaves ∈ gs ->
       col ∈ ["A"; "B"] /\
       NoDup (key <$> leaves) /\
       (forall k, k ∈ key <$> leaves <->
                  exists d, d ∈ scenarioData /\ toStr (getProp d col) = k) /\
       ((forall d, d ∈ scenarioData -> is_Some (ownProp d col)) ->
        forall k, k ∈ key <$> leaves <->
                  exists d v, d ∈ scenarioData /\ ownProp d col = Some v /\
                              toStr (Some v) = k)).
Proof.
  split; [discriminate|]. split; [reflexivity|].
  apply (getNodes_leaf_keys scenarioStyles scenarioData ["A"; "B"]);
    [discriminate|reflexivity].
Defined.

(** C7 as it was stated fails: the second record has no column [A], and
    the node of [A] has the leaf ["undefined"], which is no value that
    the column [A] takes. *)
Lemma getNodes_leaf_keys_missing_column :
  getGroups columnAStyles missingColumnData = Ret (Some ["A"]) /\
  getNodes columnAStyles missingColumnData
  = Ret (Inner "" [Inner "A" [Leaf "x" (Num 1); Leaf "undefined" (Num 1)]]) /\
  ~ (forall gs col leaves,
       getNodes columnAStyles missingColumnData = Ret (Inner "" gs) ->
       Inner col leaves ∈ gs ->
       forall k, k ∈ key <$> leaves <->
                 exists d v, d ∈ missingColumnData /\ ownProp d col = Some v /\
                             toStr (Some v) = k).
Proof.
  split; [reflexivity|]. split; [vm_compute; reflexivity|].
  intros H.
  specialize (H [Inner "A" [Leaf "x" (Num 1); Leaf "undefined" (Num 1)]] "A"
                [Leaf "x" (Num 1); Leaf "undefined" (Num 1)]
                ltac:(vm_compute; reflexivity) ltac:(left) "undefined").
  destruct H as [H _].
  destruct H as (d & v & Hd & Hv & Hk); [simpl; set_solver|].
  unfold missingColumnData in Hd.
  repeat (apply elem_of_cons in Hd as [->|Hd]); [| |by apply elem_of_nil in Hd].
  - simpl in Hv. injection Hv as <-. discriminate.
  - discriminate.
Qed.

(** ** Metric mode *)

Lemma numeric_all l : Forall (fun a => isNaN a = false) l -> numeric l = l.
Proof.
  intros Hl. apply List_filter_all. intros a Ha.
  rewrite Forall_forall in Hl. by rewrite (Hl a Ha).
Qed.

Lemma numericTotal_totalWeight rc (g : list DataRow) :
  rc ≠ "" ->
  numericTotal ((fun d => parseInt (getProp d rc)) <$> g) = totalWeight rc g.
Proof.
  intros Hrc. unfold totalWeight, metricWeight.
  destruct (String.eqb_spec rc ""); [done|].
  induction g as [|d g IH]; csimpl; [done|].
  rewrite IH. by destruct (parseInt (getProp d rc)).
Qed.

(** C4, amended. With a metric column, the value of an entry is the sum
    (with JavaScript's [+], from 0 and in the order of the records) of
    [parseInt] of that column over those records of its group where
    [parseInt] does not give [NaN]; the records where it gives [NaN] are
    left out of the sum; when every record of the group parses, the value
    is the plain sum over the group; and where the rollups are exact it
    is the integer sum of the values that parse. *)
Theorem aggregateByCol_metric (colName : ColSpec) (data : list DataRow)
    (rc : string) (e : JNode) :
  rc ≠ "" ->
  e ∈ aggregateByCol colName data rc ->
  values e = VNum (plainSum (numeric (parsedMetric colName data rc (key e)))) /\
  (Forall (fun a => isNaN a = false) (parsedMetric colName data rc (key e)) ->
   values e = VNum (plainSum (parsedMetric colName data rc (key e)))) /\
  (exactRollup rc data ->
   values e = VNum (Num (numericTotal (parsedMetric colName data rc (key e))))).
Proof.
  intros Hrc [He _]%elem_of_aggregateByCol.
  assert (values e
          = VNum (plainSum (numeric (parsedMetric colName data rc (key e))))) as Hv.
  { rewrite He. simpl. unfold rollup.
    destruct (String.eqb_spec rc ""); [done|].
    by rewrite d3_sum_numeric. }
  split_and!; [done| |].
  - intros Hall. by rewrite Hv, numeric_all.
  - intros Hex. rewrite He. simpl. rewrite rollup_group by done.
    unfold parsedMetric. by rewrite numericTotal_totalWeight.
Qed.

Lemma aggregateByCol_metric_witness :
  "m" ≠ "" /\
  Leaf "x" (Num 5) ∈ aggregateByCol (OneCol "A") metricData "m" /\
  VNum (Num 5)
  = VNum (plainSum (numeric (parsedMetric (OneCol "A") metricData "m" "x"))).
Proof.
  split; [discriminate|]. split; [vm_compute; by left|].
  destruct (aggregateByCol_metric (OneCol "A") metricData "m" (Leaf "x" (Num 5)))
    as (H1 & _); [discriminate|vm_compute; by left|].
  exact H1.
Defined.

(** C4 as it was stated fails: a record whose metric value does not parse
    does not make the value of its group [NaN], and the value is not the
    plain sum over the group. *)
Lemma aggregateByCol_metric_not_NaN :
  ~ (forall colName data rc e,
       rc ≠ "" -> e ∈ aggregateByCol colName data rc ->
       values e = VNum (plainSum (parsedMetric colName data rc (key e))) /\
       (Exists (fun a => isNaN a = true) (parsedMetric colName data rc (key e)) ->
        values e = VNum NaN)).
Proof.
  intros H.
  destruct (H (OneCol "A") metricData "m" (Leaf "x" (Num 5))) as [Hsum _];
    [discriminate|vm_compute; by left|].
  vm_compute in Hsum. discriminate.
Qed.
(** ** Group derivation: what [getGroups] is meant to return *)

Lemma indexOf_bounds x l : -1 <= indexOf x l < Z.of_nat (length l) \/ l = [].
Proof.
  induction l as [|y l IH]; [by right|]. left. simpl.
  destruct (String.eqb y x); [lia|].
  destruct IH as [IH| ->]; simpl; [|lia].
  destruct (Z.ltb_spec (indexOf x l) 0); lia.
Qed.

Lemma indexOf_absent x l : x ∉ l -> indexOf x l = -1.
Proof.
  induction l as [|y l IH]; [done|]. intros [Hne Hx]%not_elem_of_cons. simpl.
  destruct (String.eqb_spec y x); [congruence|].
  by rewrite IH.
Qed.

Lemma indexOf_present x l : x ∈ l -> 0 <= indexOf x l.
Proof.
  induction l as [|y l IH]; [by intros ?%elem_of_nil|]. simpl.
  destruct (String.eqb_spec y x) as [|Hne]; [lia|].
  intros [?|Hx]%elem_of_cons; [congruence|].
  specialize (IH Hx). destruct (Z.ltb_spec (indexOf x l) 0); lia.
Qed.

Lemma indexOf_nonneg_iff x l : 0 <= indexOf x l <-> x ∈ l.
Proof.
  split; [|apply indexOf_present].
  intros Hi. destruct (decide (x ∈ l)) as [|Hx]; [done|].
  apply indexOf_absent in Hx. lia.
Qed.

Lemma indexOf_head x l : indexOf x (x :: l) = 0.
Proof. simpl. by rewrite String.eqb_refl. Qed.

Lemma indexOf_tail x y l :
  y ≠ x -> x ∈ l -> indexOf x (y :: l) = 1 + indexOf x l.
Proof.
  intros Hne Hx%indexOf_present. simpl.
  destruct (String.eqb_spec y x); [done|].
  destruct (Z.ltb_spec (indexOf x l) 0); [lia|done].
Qed.

Lemma splice1_inside i l :
  0 <= i < Z.of_nat (length l) -> splice1 i l = delete (Z.to_nat i) l.
Proof.
  intros Hi. unfold splice1.
  destruct (Z.ltb_spec i 0); [lia|]. f_equal. lia.
Qed.

(** A name that is in the array: [splice] takes it out. *)
Lemma splice1_present x l :
  NoDup l -> x ∈ l -> splice1 (indexOf x l) l = filter (fun c => c ≠ x) l.
Proof.
  intros Hnd Hx.
  rewrite splice1_inside.
  2:{ pose proof (indexOf_present _ _ Hx).
      destruct (indexOf_bounds x l) as [?| ->]; [lia|by apply elem_of_nil in Hx]. }
  induction l as [|y l IH]; [by apply elem_of_nil in Hx|].
  apply NoDup_cons in Hnd as [Hy Hnd].
  destruct (decide (y = x)) as [->|Hne].
  - rewrite indexOf_head, filter_cons_False by (by intros ?). simpl.
    symmetry. apply filter_all. by intros c Hc ->.
  - apply elem_of_cons in Hx as [?|Hx]; [congruence|].
    rewrite indexOf_tail, filter_cons_True by done.
    pose proof (indexOf_present _ _ Hx).
    replace (Z.to_nat (1 + indexOf x l)) with (S (Z.to_nat (indexOf x l))) by lia.
    simpl. f_equal. by apply IH.
Qed.

(** A name that is not in the array: [indexOf] is [-1] and [splice]
    takes the last element out. *)
Lemma splice1_absent x l :
  x ∉ l -> splice1 (indexOf x l) l = take (length l - 1) l.
Proof.
  intros Hx. rewrite indexOf_absent by done. unfold splice1. simpl.
  destruct l as [|y l] using rev_ind; [done|].
  rewrite length_app. simpl.
  replace (Z.to_nat (Z.max _ 0)) with (length l) by lia.
  replace (length l + 1 - 1)%nat with (length l) by lia.
  by rewrite take_app_length, delete_middle, app_nil_r.
Qed.

Lemma foldl_splice1_present (except groups : list string) :
  NoDup groups -> NoDup except -> (forall c, c ∈ except -> c ∈ groups) ->
  foldl (fun groups col => splice1 (indexOf col groups) groups) groups except
  = filter (fun c => c ∉ except) groups.
Proof.
  revert groups. induction except as [|x xs IH]; intros groups Hg Hx Hsub; simpl.
  - symmetry. apply filter_all. intros c _. apply not_elem_of_nil.
  - apply NoDup_cons in Hx as [Hx Hxs].
    rewrite splice1_present by (done || apply Hsub; left).
    rewrite IH; [|by apply NoDup_filter|done|].
    + rewrite list_filter_filter. apply list_filter_iff.
      intros c. rewrite not_elem_of_cons. tauto.
    + intros c Hc. apply list_elem_of_filter. split.
      * by intros ->.
      * apply Hsub. by right.
Qed.

(** Where every name of the exclude-list is a column of the first record
    (and no name is listed twice), [getGroups] returns what its
    description says. *)
Lemma getGroups_described_agree styles d0 data :
  NoDup (Object_keys d0) ->
  NoDup (groupColNamesAllExcept styles) ->
  (forall c, c ∈ groupColNamesAllExcept styles -> c ∈ Object_keys d0) ->
  groupColNames styles ≠ [] \/ groupColNamesAllExcept styles ≠ [] ->
  getGroups styles (d0 :: data) = Ret (getGroups_described styles (d0 :: data)).
Proof.
  intros Hk Hx Hsub Hne. unfold getGroups, getGroups_described.
  destruct (groupColNames styles) as [|g gs]; simpl; [|done].
  destruct (groupColNamesAllExcept styles) as [|x xs] eqn:Hexc; [by destruct Hne|].
  cbn [length Nat.ltb Nat.leb]. by rewrite foldl_splice1_present.
Qed.

(** [isInGroupColNames] follows the described precedence rule on the
    columns of the first record. *)
Lemma isInGroupColNames_described styles d0 data col groups :
  col ∈ Object_keys d0 ->
  getGroups_described styles (d0 :: data) = Some groups ->
  isInGroupColNames styles col = true <-> col ∈ groups.
Proof.
  intros Hcol. unfold getGroups_described, isInGroupColNames.
  destruct (groupColNames styles) as [|g gs] eqn:Hinc; simpl; intros [= <-].
  - rewrite Z.ltb_lt, list_elem_of_filter. split.
    + intros Hlt. split; [|done]. intros Hin%indexOf_present. lia.
    + intros [Hnin _]. rewrite indexOf_absent by done. lia.
  - rewrite Z.leb_le. apply (indexOf_nonneg_iff col (g :: gs)).
Qed.

(** ** Group derivation: a name of the exclude-list that is no column *)

(** C3, at the failing input. With the default exclude-list
    [["salesAmount"]] and a first record of columns [A] and [B], the
    description gives [[A; B]] while [getGroups] returns [[A]]: the
    [splice] at index [-1] takes the last column out. *)
Theorem getGroups_absent_name_drops_last_column :
  getGroups_described defaultStyles twoColumnData = Some ["A"; "B"] /\
  getGroups defaultStyles twoColumnData = Ret (Some ["A"]) /\
  indexOf "salesAmount" ["A"; "B"] = -1 /\
  splice1 (-1) ["A"; "B"] = ["A"].
Proof. split_and!; reflexivity. Qed.

(** C9, at the failing input. With the same configuration and record,
    [isInGroupColNames] accepts the column [B], which [getGroups] has
    dropped. *)
Theorem isInGroupColNames_disagrees_with_getGroups :
  "B" ∈ Object_keys [("A", JStr "x"); ("B", JStr "p")] /\
  isInGroupColNames defaultStyles "B" = true /\
  getGroups defaultStyles twoColumnData = Ret (Some ["A"]) /\
  "B" ∉ ["A"].
Proof.
  split_and!; [|reflexivity|reflexivity|].
  - simpl. set_solver.
  - set_solver.
Qed.

(** ** The scenario of the three records *)

(** With the default direction [sort = 1] the hierarchy and the links of
    the scenario are these. *)
Example scenario_default_sort :
  getGroups scenarioStyles scenarioData = Ret (Some ["A"; "B"]) /\
  getGroupPairs scenarioStyles scenarioData = Ret [["A"; "B"]] /\
  getNodes scenarioStyles scenarioData
  = Ret (Inner "" [Inner "B" [Leaf "p" (Num 2); Leaf "q" (Num 1)];
                   Inner "A" [Leaf "x" (Num 2); Leaf "y" (Num 1)]]) /\
  getLinks scenarioStyles scenarioData
    (cluster_nodes (Inner "" [Inner "B" [Leaf "p" (Num 2); Leaf "q" (Num 1)];
                              Inner "A" [Leaf "x" (Num 2); Leaf "y" (Num 1)]]))
  = Ret scenarioLinks.
Proof. split_and!; vm_compute; reflexivity. Qed.

(** A splice at [indexOf] always takes one element out of an array that
    is not empty. *)
Lemma length_splice1_indexOf c l :
  length (splice1 (indexOf c l) l) = (length l - 1)%nat.
Proof.
  destruct l as [|y l]; [done|].
  destruct (indexOf_bounds c (y :: l)) as [Hb|?]; [|done].
  unfold splice1. apply length_delete, lookup_lt_is_Some.
  destruct (Z.ltb_spec (indexOf c (y :: l)) 0); simpl length in *; lia.
Qed.

Lemma length_foldl_splice1 except groups :
  length (foldl (fun groups col => splice1 (indexOf col groups) groups) groups except)
  = (length groups - length except)%nat.
Proof.
  revert groups. induction except as [|x xs IH]; intros groups; simpl; [lia|].
  rewrite IH, length_splice1_indexOf. lia.
Qed.

(** With an empty include-list the derived groups are fewer than the
    columns of the first record. *)
Lemma getGroups_exclude_length styles d0 data groups :
  groupColNames styles = [] ->
  getGroups styles (d0 :: data) = Ret (Some groups) ->
  (length groups < length (Object_keys d0))%nat \/ Object_keys d0 = [].
Proof.
  intros Hinc. unfold getGroups. rewrite Hinc.
  destruct (groupColNamesAllExcept styles) as [|x xs]; [done|].
  cbn -[indexOf splice1 foldl Object_keys]. intros [= <-].
  rewrite length_foldl_splice1.
  destruct (Object_keys d0) as [|k ks]; [by right|left].
  rewrite length_splice1_indexOf. simpl. lia.
Qed.

(** On two columns, only the include-list can derive two groups. *)
Lemma scenario_groups_included styles :
  getGroups styles scenarioData = Ret (Some ["A"; "B"]) ->
  groupColNames styles = ["A"; "B"].
Proof.
  intros Hg. destruct (groupColNames styles) as [|g gs] eqn:Hinc.
  - unfold scenarioData in Hg.
    destruct (getGroups_exclude_length _ _ _ _ Hinc Hg) as [Hlt|Hnil].
    + simpl in Hlt. lia.
    + vm_compute in Hnil. discriminate.
  - unfold getGroups in Hg. rewrite Hinc in Hg. simpl in Hg. congruence.
Qed.

(** C8. On the dataset of the three records, with the derived groups
    [A] and [B] and in count mode, whatever the sort direction: the
    leaves under [A] are [x] (2) and [y] (1), the leaves under [B] are [p]
    (2) and [q] (1), and [getLinks] returns exactly the three links
    [x]-[p], [x]-[q] and [y]-[p], each of value 1. *)
Theorem scenario_nodes_links (styles : Styles) :
  getGroups styles scenarioData = Ret (Some ["A"; "B"]) ->
  rollupColName styles = "" ->
  exists la lb gs,
    getNodes styles scenarioData = Ret (Inner "" gs) /\
    gs ≡ₚ [Inner "A" la; Inner "B" lb] /\
    la ≡ₚ [Leaf "x" (Num 2); Leaf "y" (Num 1)] /\
    lb ≡ₚ [Leaf "p" (Num 2); Leaf "q" (Num 1)] /\
    getGroupPairs styles scenarioData = Ret [["A"; "B"]] /\
    getLinks styles scenarioData (cluster_nodes (Inner "" gs)) = Ret scenarioLinks.
Proof.
  intros Hg%scenario_groups_included.
  destruct styles as [s rc inc exc]. simpl in *. intros ->. subst inc.
  destruct s as [|s|s]; eexists _, _, _;
    (split; [vm_compute; reflexivity|]);
    (split; [first [reflexivity|apply Permutation_swap]|]);
    (split; [first [reflexivity|apply Permutation_swap]|]);
    (split; [first [reflexivity|apply Permutation_swap]|]);
    split; vm_compute; reflexivity.
Qed.

Lemma scenario_nodes_links_witness :
  getGroups scenarioStyles scenarioData = Ret (Some ["A"; "B"]) /\
  rollupColName scenarioStyles = "" /\
  exists la lb gs,
    getNodes scenarioStyles scenarioData = Ret (Inner "" gs) /\
    gs ≡ₚ [Inner "A" la; Inner "B" lb] /\
    la ≡ₚ [Leaf "x" (Num 2); Leaf "y" (Num 1)] /\
    lb ≡ₚ [Leaf "p" (Num 2); Leaf "q" (Num 1)] /\
    getGroupPairs scenarioStyles scenarioData = Ret [["A"; "B"]] /\
    getLinks scenarioStyles scenarioData (cluster_nodes (Inner "" gs))
    = Ret scenarioLinks.
Proof.
  split; [reflexivity|]. split; [reflexivity|].
  apply (scenario_nodes_links scenarioStyles); reflexivity.
Defined.


(** ** Link endpoints *)

(** C6, at the failing input. A value with a comma in it: the composite
    key ["x,y,p"] splits into three parts, the first two name no node, and
    the link that [getLinks] pushes has [undefined] for source and for
    target. *)
Theorem getLinks_comma_value_unresolved :
  getNodes scenarioStyles commaData
  = Ret (Inner "" [Inner "B" [Leaf "p" (Num 1)]; Inner "A" [Leaf "x,y" (Num 1)]]) /\
  key <$> aggregateByCol (ManyCols ["A"; "B"]) commaData "" = ["x,y,p"] /\
  splitOn "," "x,y,p" = ["x"; "y"; "p"] /\
  getLinks scenarioStyles commaData
    (cluster_nodes
       (Inner "" [Inner "B" [Leaf "p" (Num 1)]; Inner "A" [Leaf "x,y" (Num 1)]]))
  = Ret [ {| source := None; target := None; value := VNum (Num 1) |} ].
Proof. split_and!; vm_compute; reflexivity. Qed.

(** Where the invariant does hold: every record has every group column,
    no value has a comma in it, and no value is the empty string or the
    name of a group column. *)

Lemma splitOn_no_comma s : hasComma s = false -> splitOn "," s = [s].
Proof.
  induction s as [|c s IH]; simpl; [done|].
  intros [Hc Hs]%orb_false_elim. rewrite Hc, IH; done.
Qed.

Lemma splitOn_append a b :
  hasComma a = false ->
  splitOn "," (a +:+ String "," b) = a :: splitOn "," b.
Proof.
  induction a as [|c a IH]; simpl; [done|].
  intros [Hc Ha]%orb_false_elim. rewrite Hc, IH; done.
Qed.

Lemma splitOn_composite a b :
  hasComma a = false -> hasComma b = false ->
  splitOn "," (String.concat "," [a; b]) = [a; b].
Proof.
  intros Ha Hb. change (String.concat "," [a; b]) with (a +:+ String "," b).
  rewrite splitOn_append by done. by rewrite splitOn_no_comma.
Qed.

Lemma elem_of_pairsOf pair groups :
  pair ∈ pairsOf groups ->
  exists g1 g2, pair = [g1; g2] /\ g1 ∈ groups /\ g2 ∈ groups.
Proof.
  intros (i & j & a & b & _ & Ha & Hb & ->)%elem_of_pairsOf_iff.
  exists a, b. split_and!; [done|by eapply list_elem_of_lookup_2..].
Qed.

Lemma mapNameNodeOf_snoc nodes n :
  mapNameNodeOf (nodes ++ [n]) = <[key n := n]> (mapNameNodeOf nodes).
Proof. unfold mapNameNodeOf. by rewrite foldl_app. Qed.

(** A name that some node bears resolves, to a node of the list that
    bears it. *)
Lemma mapNameNodeOf_lookup nodes k :
  (exists n, n ∈ nodes /\ key n = k) ->
  exists n, mapNameNodeOf nodes !! k = Some n /\ n ∈ nodes /\ key n = k.
Proof.
  induction nodes as [|m nodes IH] using rev_ind.
  - by intros (n & ?%elem_of_nil & _).
  - intros (n & Hn & Hk). rewrite mapNameNodeOf_snoc.
    destruct (decide (key m = k)) as [Hm|Hm].
    + exists m. rewrite <-Hm, lookup_insert_eq. set_solver.
    + rewrite lookup_insert_ne by done.
      destruct IH as (n' & Hl & Hn' & Hk'); [|set_solver].
      exists n. split; [set_solver|done].
Qed.

(** A name that no node bears is [undefined]. *)
Lemma mapNameNodeOf_lookup_None nodes k :
  (forall n, n ∈ nodes -> key n ≠ k) -> mapNameNodeOf nodes !! k = None.
Proof.
  induction nodes as [|m nodes IH] using rev_ind; intros Hk.
  - apply lookup_empty.
  - rewrite mapNameNodeOf_snoc, lookup_insert_ne by (apply Hk; set_solver).
    apply IH. intros n Hn. apply Hk. set_solver.
Qed.

(** A name resolves only to a node that bears it. *)
Lemma mapNameNodeOf_lookup_Some nodes k n :
  mapNameNodeOf nodes !! k = Some n -> n ∈ nodes /\ key n = k.
Proof.
  induction nodes as [|m nodes IH] using rev_ind.
  - unfold mapNameNodeOf. simpl. by rewrite lookup_empty.
  - rewrite mapNameNodeOf_snoc. destruct (decide (key m = k)) as [<-|Hne].
    + rewrite lookup_insert_eq. intros [= <-]. set_solver.
    + rewrite lookup_insert_ne by done. intros [Hn Hk]%IH. set_solver.
Qed.

(** [cluster_nodes] descends into exactly what the [children] accessor
    returns when that is an array. *)
Lemma cluster_nodes_children n :
  cluster_nodes n =
  n :: match clusterChildren n with
       | Some (VArr l) => flat_map cluster_nodes l
       | _ => []
       end.
Proof. by destruct n as [k [|z|s]|k|k l]. Qed.

Lemma cluster_nodes_entry n : isEntry n -> cluster_nodes n = [n].
Proof. by destruct n. Qed.

Lemma isIntEntry_isEntry n : isIntEntry n -> isEntry n.
Proof. by intros (k & z & ->). Qed.

Lemma elem_of_cluster_nodes_group k leaves n :
  Forall isEntry leaves ->
  n ∈ cluster_nodes (Inner k leaves) <-> n = Inner k leaves \/ n ∈ leaves.
Proof.
  intros Hl. simpl. rewrite elem_of_cons, list_elem_of_In, in_flat_map.
  split; (intros [?|H]; [by left|right]).
  - destruct H as (leaf & Hleaf%list_elem_of_In & Hn%list_elem_of_In).
    rewrite cluster_nodes_entry in Hn by (by eapply Forall_forall).
    by apply list_elem_of_singleton in Hn as ->.
  - exists n. rewrite <-!list_elem_of_In. split; [done|].
    rewrite cluster_nodes_entry by (by eapply Forall_forall). by left.
Qed.

(** The nodes of a tree of two levels. *)
Lemma elem_of_cluster_nodes_root (gs : list JNode) n :
  (forall g, g ∈ gs -> exists k leaves, g = Inner k leaves /\ Forall isEntry leaves) ->
  n ∈ cluster_nodes (Inner "" gs) <->
  n = Inner "" gs \/ n ∈ gs \/
  exists g, g ∈ gs /\ n ∈ childrenOf g /\ isEntry n.
Proof.
  intros Hgs. simpl. rewrite elem_of_cons, list_elem_of_In, in_flat_map.
  split.
  - intros [?|(g & Hg%list_elem_of_In & Hn%list_elem_of_In)]; [by left|right].
    destruct (Hgs g Hg) as (k & leaves & -> & Hleaves).
    apply elem_of_cluster_nodes_group in Hn as [->|Hn]; [by left| |done].
    right. exists (Inner k leaves). split_and!; [done..|]. by eapply Forall_forall.
  - intros [?|[Hn|(g & Hg & Hn & _)]]; [by left|right..].
    + exists n. rewrite <-!list_elem_of_In. split; [done|].
      destruct (Hgs n Hn) as (k & leaves & -> & _). by left.
    + exists g. rewrite <-!list_elem_of_In. split; [done|].
      destruct (Hgs g Hg) as (k & leaves & -> & Hleaves).
      apply elem_of_cluster_nodes_group; [done|by right].
Qed.

(** The children of the root are nodes of rollup entries. *)
Lemma root_children_shape styles data groups g :
  g ∈ copyObj (JS.sort (sortBy styles F_key) (rootValuesOf styles data groups)) ->
  exists k leaves, g = Inner k leaves /\ Forall isEntry leaves.
Proof.
  intros (e & _ & ->)%elem_of_root_children. eexists _, _. split; [done|].
  unfold copyObj. apply Forall_fmap, Forall_forall. intros leaf Hleaf%elem_of_sort.
  simpl. apply copyNode_isEntry.
  by eapply Forall_forall; [apply aggregateByCol_entries|].
Qed.

Lemma rootValues_shape styles data groups g :
  g ∈ JS.sort (sortBy styles F_key) (rootValuesOf styles data groups) ->
  exists k leaves, g = Inner k leaves /\ Forall isEntry leaves.
Proof.
  intros (e & _ & ->)%elem_of_sort%elem_of_rootValuesOf. eexists _, _. split; [done|].
  apply Forall_forall. intros leaf Hleaf%elem_of_sort.
  by eapply Forall_forall; [apply aggregateByCol_entries|].
Qed.

(** On tidy data, where the rollups are finite, the value of a group
    column names a leaf. *)
Lemma mapNameNode_resolves_leaf styles data groups d g :
  tidy data groups -> finiteRollups styles data groups ->
  d ∈ data -> g ∈ groups ->
  let root := Inner "" (JS.sort (sortBy styles F_key) (rootValuesOf styles data groups)) in
  exists n, mapNameNodeOf (cluster_nodes root) !! toStr (getProp d g) = Some n /\
            isLeafOf root n.
Proof.
  intros Ht Hex Hd Hg root.
  set (a := toStr (getProp d g)).
  assert (exists leaf, leaf ∈ cluster_nodes root /\ key leaf = a) as Hleaf.
  { assert (a ∈ key <$> aggregateByCol (OneCol g) data (rollupColName styles)) as Ha.
    { apply elem_of_aggregateByCol_keys.
      apply list_elem_of_fmap. by exists d. }
    apply list_elem_of_fmap in Ha as (leaf & Hk & Hin).
    exists leaf. split; [|done].
    apply elem_of_cluster_nodes_root; [apply rootValues_shape|]. right. right.
    eexists. split_and!.
    - apply elem_of_sort, elem_of_rootValuesOf. eauto.
    - simpl. by apply elem_of_sort.
    - by eapply Forall_forall; [apply aggregateByCol_entries|]. }
  apply mapNameNodeOf_lookup in Hleaf as (n & Hl & Hn & Hk).
  exists n. split; [done|].
  apply elem_of_cluster_nodes_root in Hn as [->|[Hn|(g' & Hg' & Hn & He)]];
    [| | |apply rootValues_shape].
  - simpl in Hk. by destruct (tidy_not_empty _ _ Ht d g).
  - apply elem_of_sort, elem_of_rootValuesOf in Hn as (e & He & ->).
    simpl in Hk. destruct (tidy_not_name _ _ Ht d g Hd Hg).
    change (a ∈ groups). by rewrite <-Hk.
  - exists g'. split_and!; [done..|].
    apply elem_of_sort, elem_of_rootValuesOf in Hg' as (e & He' & ->).
    simpl in Hn. apply elem_of_sort in Hn.
    pose proof (Hex e He') as Hint.
    rewrite Forall_forall in Hint. by destruct (Hint n Hn) as (k & z & ->).
Qed.

(** X26. On tidy data, where every rollup of the group columns is a
    finite number (as in count mode), every link that [getLinks]
    returns, from the nodes of the hierarchy of [getNodes], has two
    leaves of that hierarchy for source and target. *)
Theorem getLinks_resolve_on_tidy_data (styles : Styles) (data : list DataRow)
    (groups : list string) (root : JNode) (links : list Link) (l : Link) :
  getGroups styles data = Ret (Some groups) ->
  tidy data groups ->
  finiteRollups styles data groups ->
  getNodes styles data = Ret root ->
  getLinks styles data (cluster_nodes root) = Ret links ->
  l ∈ links ->
  exists s t, source l = Some s /\ target l = Some t /\
              isLeafOf root s /\ isLeafOf root t.
Proof.
  intros Hg Ht Hex Hroot Hlinks Hl.
  rewrite (getNodes_Ret_finite _ _ _ Hg Hex) in Hroot. injection Hroot as <-.
  rewrite (getLinks_Ret _ _ _ _ (getGroupPairs_Ret _ _ _ Hg)) in Hlinks.
  injection Hlinks as <-.
  apply list_elem_of_bind in Hl as (pair & Hl & Hpair).
  apply elem_of_pairsOf in Hpair as (g1 & g2 & -> & Hg1 & Hg2).
  unfold linksOfPair in Hl. apply list_elem_of_fmap in Hl as (e & -> & He).
  apply elem_of_aggregateByCol in He as [_ (d & Hd & Hk)]. simpl.
  rewrite <-Hk. cbn [nestKey fmap list_fmap].
  destruct (tidy_present _ _ Ht d g1 Hd Hg1) as [v1 Hv1].
  destruct (tidy_present _ _ Ht d g2 Hd Hg2) as [v2 Hv2].
  pose proof (tidy_no_comma _ _ Ht d g1 Hd Hg1) as Hc1.
  pose proof (tidy_no_comma _ _ Ht d g2 Hd Hg2) as Hc2.
  destruct (mapNameNode_resolves_leaf styles data groups d g1 Ht Hex Hd Hg1)
    as (s & Hs & Hsl).
  destruct (mapNameNode_resolves_leaf styles data groups d g2 Ht Hex Hd Hg2)
    as (t & Htg & Htl).
  rewrite Hv1, Hv2 in *. cbn [joinElem].
  rewrite splitOn_composite by done. simpl.
  exists s, t. split_and!; [exact Hs|exact Htg|done..].
Qed.

Example scenario_tidy : tidy scenarioData ["A"; "B"].
Proof.
  split; intros d g Hd Hg;
    repeat (apply elem_of_cons in Hd as [->|Hd]);
    try (by apply elem_of_nil in Hd);
    repeat (apply elem_of_cons in Hg as [->|Hg]);
    try (by apply elem_of_nil in Hg);
    vm_compute; try done; try (by eexists);
    intros Hin;
    repeat (apply elem_of_cons in Hin as [Hin|Hin]; [discriminate|]);
    by apply elem_of_nil in Hin.
Qed.

(** Without that, a metric value that parses to an infinity makes leaves
    whose value the JSON copy turns into [null]: the links resolve to
    them, and [isInt] fails on them. *)
Example getLinks_infinite_metric :
  getNodes metricPairStyles infiniteMetricData
  = Ret (Inner "" [Inner "B" [Nulled "p"]; Inner "A" [Nulled "x"]]) /\
  getLinks metricPairStyles infiniteMetricData
    (cluster_nodes (Inner "" [Inner "B" [Nulled "p"]; Inner "A" [Nulled "x"]]))
  = Ret [ {| source := Some (Nulled "x"); target := Some (Nulled "p");
             value := VNum (Inf false) |} ] /\
  isInt (values (Nulled "x")) = false.
Proof. split_and!; vm_compute; reflexivity. Qed.

(** * Further properties of the data transformation *)

(** ** [getGroups]: what the splices leave *)

Lemma splice1_sublist i l : splice1 i l `sublist_of` l.
Proof. unfold splice1. apply sublist_delete. Qed.

Lemma foldl_splice1_sublist except groups :
  foldl (fun groups col => splice1 (indexOf col groups) groups) groups except
  `sublist_of` groups.
Proof.
  revert groups. induction except as [|x xs IH]; intros groups; simpl; [done|].
  etrans; [apply IH|apply splice1_sublist].
Qed.

(** After its splice a name is no longer in the array, whether it was
    there or not. *)
Lemma splice1_indexOf_gone c l : NoDup l -> c ∉ splice1 (indexOf c l) l.
Proof.
  intros Hnd. destruct (decide (c ∈ l)) as [Hin|Hnin].
  - rewrite splice1_present by done. rewrite list_elem_of_filter. tauto.
  - intros Hc. apply Hnin. eapply elem_of_sublist; [done|apply splice1_sublist].
Qed.

Lemma foldl_splice1_gone except groups c :
  NoDup groups -> c ∈ except ->
  c ∉ foldl (fun groups col => splice1 (indexOf col groups) groups) groups except.
Proof.
  revert groups. induction except as [|x xs IH]; intros groups Hnd Hc; simpl.
  - by apply elem_of_nil in Hc.
  - assert (NoDup (splice1 (indexOf x groups) groups)) as Hnd'
      by (eapply sublist_NoDup; [done|apply splice1_sublist]).
    apply elem_of_cons in Hc as [->|Hc]; [|by apply IH].
    intros Hin. apply (splice1_indexOf_gone x groups Hnd).
    eapply elem_of_sublist; [done|apply foldl_splice1_sublist].
Qed.

Lemma getGroups_isInGroupColNames styles d0 data groups :
  NoDup (Object_keys d0) ->
  getGroups styles (d0 :: data) = Ret (Some groups) ->
  (groupColNames styles = [] ->
     groups `sublist_of` Object_keys d0 /\
     forall c, c ∈ groupColNamesAllExcept styles -> c ∉ groups) /\
  forall col, col ∈ groups -> isInGroupColNames styles col = true.
Proof.
  intros Hnd. unfold getGroups, isInGroupColNames.
  destruct (groupColNames styles) as [|g gs] eqn:Hinc.
  - destruct (groupColNamesAllExcept styles) as [|x xs] eqn:Hexc; [done|].
    cbn -[indexOf splice1 foldl Object_keys]. intros [= <-].
    assert (forall c, c ∈ x :: xs ->
              c ∉ foldl (fun groups col => splice1 (indexOf col groups) groups)
                        (Object_keys d0) (x :: xs)) as Hgone.
    { intros c Hc. by apply foldl_splice1_gone. }
    split; [intros _; split; [apply (foldl_splice1_sublist (x :: xs))|exact Hgone]|].
    intros col Hcol. apply Z.ltb_lt.
    destruct (decide (col ∈ x :: xs)) as [Hin|Hnin].
    + by destruct (Hgone col Hin).
    + rewrite indexOf_absent by done. lia.
  - cbn -[indexOf]. intros [= <-]. split; [done|].
    intros col Hcol. apply Z.leb_le. by apply indexOf_present.
Qed.

(** X1. Whatever the configuration, when [getGroups] returns groups from
    a dataset whose first record has distinct column names: with an empty
    include-list the groups are a subsequence of the columns of the first
    record, no group is a name of the exclude-list, and in every case
    [isInGroupColNames] accepts each group. *)
Theorem getGroups_accepted (styles : Styles) (d0 : DataRow)
    (data : list DataRow) (groups : list string) :
  NoDup (Object_keys d0) ->
  getGroups styles (d0 :: data) = Ret (Some groups) ->
  (groupColNames styles = [] ->
     groups `sublist_of` Object_keys d0 /\
     forall c, c ∈ groupColNamesAllExcept styles -> c ∉ groups) /\
  forall col, col ∈ groups -> isInGroupColNames styles col = true.
Proof. apply getGroups_isInGroupColNames. Qed.

Lemma twoColumn_keys_NoDup :
  NoDup (Object_keys [("A", JStr "x"); ("B", JStr "p")]).
Proof. apply (bool_decide_unpack _). vm_compute. exact I. Qed.

Lemma getGroups_accepted_witness :
  NoDup (Object_keys [("A", JStr "x"); ("B", JStr "p")]) /\
  getGroups defaultStyles twoColumnData = Ret (Some ["A"]) /\
  forall col, col ∈ ["A"] -> isInGroupColNames defaultStyles col = true.
Proof.
  split; [exact twoColumn_keys_NoDup|]. split; [reflexivity|].
  apply (getGroups_accepted defaultStyles [("A", JStr "x"); ("B", JStr "p")] [] ["A"]
           twoColumn_keys_NoDup eq_refl).
Defined.

(** X2. With an empty include-list every name of the exclude-list costs
    exactly one column, whether it names a column or not: the number of
    derived groups is the number of columns of the first record less the
    number of excluded names (or zero). *)
Theorem getGroups_exclude_count (styles : Styles) (d0 : DataRow)
    (data : list DataRow) (groups : list string) :
  groupColNames styles = [] ->
  getGroups styles (d0 :: data) = Ret (Some groups) ->
  length groups
  = (length (Object_keys d0) - length (groupColNamesAllExcept styles))%nat.
Proof.
  intros Hinc. unfold getGroups. rewrite Hinc.
  destruct (groupColNamesAllExcept styles) as [|x xs]; [done|].
  cbn -[indexOf splice1 foldl Object_keys length]. intros [= <-].
  apply (length_foldl_splice1 (x :: xs)).
Qed.

Lemma getGroups_exclude_count_witness :
  groupColNames defaultStyles = [] /\
  getGroups defaultStyles twoColumnData = Ret (Some ["A"]) /\
  length ["A"]
  = (length (Object_keys [("A", JStr "x"); ("B", JStr "p")])
     - length (groupColNamesAllExcept defaultStyles))%nat.
Proof.
  split; [reflexivity|]. split; [reflexivity|].
  apply (getGroups_exclude_count defaultStyles [("A", JStr "x"); ("B", JStr "p")] []
           ["A"] eq_refl eq_refl).
Defined.


(** ** [getGroupPairs]: the pairs of the two loops *)

Lemma length_bind_singletons {A B} (f : A -> list B) (l : list A) :
  (forall x, x ∈ l -> length (f x) = 1%nat) -> length (l ≫= f) = length l.
Proof.
  induction l as [|x l IH]; intros Hf; csimpl; [done|].
  rewrite length_app, Hf, IH; [done| |by left].
  intros y Hy. apply Hf. by right.
Qed.

(** The inner loop at [i] pushes one pair for each later index. *)
Lemma inner_loop_length (groups : list string) (i : nat) :
  (i < length groups)%nat ->
  length (seq (i + 1) (length groups - (i + 1)) ≫= fun j =>
            match groups !! i, groups !! j with
            | Some a, Some b => [[a; b]]
            | _, _ => []
            end)
  = (length groups - (i + 1))%nat.
Proof.
  intros Hi. rewrite length_bind_singletons; [by rewrite length_seq|].
  intros j [_ Hj]%elem_of_seq.
  destruct (lookup_lt_is_Some_2 groups i Hi) as [a ->].
  destruct (lookup_lt_is_Some_2 groups j) as [b ->]; [lia|done].
Qed.

Lemma triangle_sum (n m : nat) :
  (m <= n)%nat ->
  (2 * sum_list ((fun i => n - (i + 1)) <$> seq 0 m) + m * (m + 1)
   = 2 * m * n)%nat.
Proof.
  induction m as [|m IH]; intros Hm; [simpl; lia|].
  rewrite seq_S, fmap_app, sum_list_with_app. simpl. specialize (IH ltac:(lia)). nia.
Qed.

Lemma length_bind {A B} (f : A -> list B) (l : list A) :
  length (l ≫= f) = sum_list ((fun x => length (f x)) <$> l).
Proof. induction l as [|x l IH]; csimpl; [done|]. by rewrite length_app, IH. Qed.

Lemma length_pairsOf groups :
  (2 * length (pairsOf groups) = length groups * (length groups - 1))%nat.
Proof.
  unfold pairsOf. rewrite length_bind.
  erewrite list_fmap_ext.
  2:{ intros k i Hi. apply list_elem_of_lookup_2, elem_of_seq in Hi.
      apply inner_loop_length. lia. }
  pose proof (triangle_sum (length groups) (length groups - 1) ltac:(lia)). nia.
Qed.

Lemma NoDup_pairsOf groups : NoDup groups -> NoDup (pairsOf groups).
Proof.
  intros Hnd. unfold pairsOf. apply NoDup_bind; [| |apply NoDup_seq].
  - intros i1 i2 y _ _ (j1 & Hy1 & _)%list_elem_of_bind (j2 & Hy2 & _)%list_elem_of_bind.
    destruct (groups !! i1) as [a1|] eqn:Ha1; [|by apply elem_of_nil in Hy1].
    destruct (groups !! j1) as [b1|]; [|by apply elem_of_nil in Hy1].
    destruct (groups !! i2) as [a2|] eqn:Ha2; [|by apply elem_of_nil in Hy2].
    destruct (groups !! j2) as [b2|]; [|by apply elem_of_nil in Hy2].
    apply list_elem_of_singleton in Hy1 as ->.
    apply list_elem_of_singleton in Hy2 as [= -> ->].
    by eapply NoDup_lookup.
  - intros i _. apply NoDup_bind; [| |apply NoDup_seq].
    + intros j1 j2 y _ _ Hy1 Hy2.
      destruct (groups !! i) as [a|]; [|by apply elem_of_nil in Hy1].
      destruct (groups !! j1) as [b1|] eqn:Hb1; [|by apply elem_of_nil in Hy1].
      destruct (groups !! j2) as [b2|] eqn:Hb2; [|by apply elem_of_nil in Hy2].
      apply list_elem_of_singleton in Hy1 as ->.
      apply list_elem_of_singleton in Hy2 as [= ->].
      by eapply NoDup_lookup.
    + intros j _. destruct (groups !! i), (groups !! j);
        first [apply NoDup_singleton|apply NoDup_nil_2].
Qed.

(** X4. When the groups are derived, [getGroupPairs] returns
    [n (n - 1) / 2] pairs for [n] groups, and the pairs are exactly the
    [[groups[i], groups[j]]] with [i < j]. *)
Theorem getGroupPairs_all_pairs (styles : Styles) (data : list DataRow)
    (groups : list string) :
  getGroups styles data = Ret (Some groups) ->
  exists pairs, getGroupPairs styles data = Ret pairs /\
    (2 * length pairs = length groups * (length groups - 1))%nat /\
    forall pair, pair ∈ pairs <->
      exists i j a b, (i < j)%nat /\ groups !! i = Some a /\
                      groups !! j = Some b /\ pair = [a; b].
Proof.
  intros Hg. eexists. split; [by apply getGroupPairs_Ret|].
  split; [apply length_pairsOf|intros pair; apply elem_of_pairsOf_iff].
Qed.

Lemma getGroupPairs_all_pairs_witness :
  getGroups scenarioStyles scenarioData = Ret (Some ["A"; "B"]) /\
  exists pairs, getGroupPairs scenarioStyles scenarioData = Ret pairs /\
    (2 * length pairs = length ["A"; "B"] * (length ["A"; "B"] - 1))%nat /\
    forall pair, pair ∈ pairs <->
      exists i j a b, (i < j)%nat /\ ["A"; "B"] !! i = Some a /\
                      ["A"; "B"] !! j = Some b /\ pair = [a; b].
Proof.
  split; [reflexivity|].
  apply (getGroupPairs_all_pairs scenarioStyles scenarioData ["A"; "B"] eq_refl).
Defined.

(** X5. When the derived groups are distinct names, no pair is returned
    twice, no pair joins a column with itself, and no pair comes back in
    the other order. *)
Theorem getGroupPairs_distinct (styles : Styles) (data : list DataRow)
    (groups : list string) (ps : list (list string)) :
  NoDup groups ->
  getGroups styles data = Ret (Some groups) ->
  getGroupPairs styles data = Ret ps ->
  NoDup ps /\
  forall a b, [a; b] ∈ ps -> a ≠ b /\ [b; a] ∉ ps.
Proof.
  intros Hnd Hg. rewrite (getGroupPairs_Ret _ _ _ Hg). intros [= <-].
  split; [by apply NoDup_pairsOf|].
  intros a b (i & j & a' & b' & Hij & Ha & Hb & [= <- <-])%elem_of_pairsOf_iff.
  split.
  - intros ->. pose proof (NoDup_lookup _ _ _ _ Hnd Ha Hb). lia.
  - intros (i' & j' & a' & b' & Hij' & Ha' & Hb' & [= <- <-])%elem_of_pairsOf_iff.
    pose proof (NoDup_lookup _ _ _ _ Hnd Ha Hb').
    pose proof (NoDup_lookup _ _ _ _ Hnd Hb Ha'). lia.
Qed.


(** ** [aggregateByCol]: what the entries add up to *)

(** X6. Whatever the grouping column or columns, where the rollups are
    exact integers (in count mode; with a metric column, when no value
    parses to an infinity and the absolute values of the parsed values
    add up to no more than 2^53): the values of the entries of
    [aggregateByCol] add up to the same total, the number of records in
    count mode, otherwise the sum of the metric values that [parseInt]
    reads as numbers. *)
Theorem aggregateByCol_total (colName : ColSpec) (data : list DataRow)
    (rc : string) :
  exactRollup rc data ->
  sumValues (aggregateByCol colName data rc) = Num (totalWeight rc data).
Proof. apply sumValues_aggregateByCol. Qed.

Lemma filter_ext_elem {A} (P Q : A -> Prop) `{!forall x, Decision (P x)}
    `{!forall x, Decision (Q x)} (l : list A) :
  (forall x, x ∈ l -> P x <-> Q x) -> filter P l = filter Q l.
Proof.
  induction l as [|x l IH]; intros Hpq; [done|].
  rewrite !filter_cons, IH by (intros y Hy; apply Hpq; by right).
  destruct (decide (P x)) as [HP|HP], (decide (Q x)) as [HQ|HQ]; try done;
    exfalso; apply (Hpq x) in HP || apply (Hpq x) in HQ; done || by left.
Qed.

Lemma namePart_composite data c1 c2 d :
  pairTidy data c1 c2 -> d ∈ data ->
  namePart 0 (nestKey (ManyCols [c1; c2]) d) = nestKey (OneCol c1) d /\
  namePart 1 (nestKey (ManyCols [c1; c2]) d) = nestKey (OneCol c2) d.
Proof.
  intros Ht Hd. destruct (Ht d Hd) as ([v1 Hv1] & [v2 Hv2] & Hc1 & Hc2).
  unfold namePart. cbn [nestKey fmap list_fmap].
  rewrite Hv1, Hv2 in *. cbn [joinElem].
  by rewrite splitOn_composite.
Qed.

(** The entries of a pair whose key has [a] for first part (for second
    part) add up to the entry of [a] under the first (the second) column
    alone. *)
Lemma aggregateByCol_part_total data rc c1 c2 leaf :
  pairTidy data c1 c2 -> exactRollup rc data ->
  (leaf ∈ aggregateByCol (OneCol c1) data rc ->
   sumValues (filter (fun e => namePart 0 (key e) = key leaf)
                (aggregateByCol (ManyCols [c1; c2]) data rc))
   = numOf (values leaf)) /\
  (leaf ∈ aggregateByCol (OneCol c2) data rc ->
   sumValues (filter (fun e => namePart 1 (key e) = key leaf)
                (aggregateByCol (ManyCols [c1; c2]) data rc))
   = numOf (values leaf)).
Proof.
  intros Ht Hex. split; intros [Hleaf _]%elem_of_aggregateByCol.
  - etrans;
      [exact (aggregateByCol_filter_total _ _ _ (fun k => namePart 0 k = key leaf) Hex)|].
    rewrite Hleaf. cbn [key values numOf]. rewrite rollup_group by done.
    do 2 f_equal. unfold groupOf.
    apply filter_ext_elem. intros d Hd.
    by destruct (namePart_composite data c1 c2 d Ht Hd) as [-> _].
  - etrans;
      [exact (aggregateByCol_filter_total _ _ _ (fun k => namePart 1 k = key leaf) Hex)|].
    rewrite Hleaf. cbn [key values numOf]. rewrite rollup_group by done.
    do 2 f_equal. unfold groupOf.
    apply filter_ext_elem. intros d Hd.
    by destruct (namePart_composite data c1 c2 d Ht Hd) as [_ ->].
Qed.

(** X7. Where the two columns of a pair are present and free of commas
    in every record, and the rollups are exact integers: the entries of
    the pair whose key starts with the value [a] add up to the value of
    the entry of [a] under the first column alone, and those whose key
    ends with [b] to the value of the entry of [b] under the second
    column. *)
Theorem aggregateByCol_marginal (data : list DataRow) (rc c1 c2 : string)
    (leaf : JNode) :
  pairTidy data c1 c2 ->
  exactRollup rc data ->
  (leaf ∈ aggregateByCol (OneCol c1) data rc ->
   sumValues (filter (fun e => namePart 0 (key e) = key leaf)
                (aggregateByCol (ManyCols [c1; c2]) data rc))
   = numOf (values leaf)) /\
  (leaf ∈ aggregateByCol (OneCol c2) data rc ->
   sumValues (filter (fun e => namePart 1 (key e) = key leaf)
                (aggregateByCol (ManyCols [c1; c2]) data rc))
   = numOf (values leaf)).
Proof. apply aggregateByCol_part_total. Qed.

(** ** Hierarchy and links: totals *)

Lemma sumZ_app (l k : list Z) : sumZ (l ++ k) = sumZ l + sumZ k.
Proof. induction l as [|x l IH]; simpl; [done|]. rewrite IH. lia. Qed.

Lemma sumZ_Permutation (l k : list Z) : l ≡ₚ k -> sumZ l = sumZ k.
Proof. induction 1; simpl; lia. Qed.

Lemma sumValues_entryZ (l : list JNode) :
  Forall isIntEntry l -> sumValues l = Num (sumZ (entryZ <$> l)).
Proof.
  intros Hl. unfold sumValues.
  enough (forall acc, foldl (fun s e => plus s (numOf (values e))) (Num acc) l
                      = Num (acc + sumZ (entryZ <$> l))) as Hacc by by rewrite Hacc.
  induction Hl as [|e l (k & z & ->) _ IH]; intros acc; csimpl.
  - f_equal. lia.
  - rewrite IH. f_equal. unfold entryZ. simpl. lia.
Qed.

Lemma sumValues_Permutation (l k : list JNode) :
  Forall isIntEntry l -> l ≡ₚ k -> sumValues l = sumValues k.
Proof.
  intros Hl Hp. rewrite !sumValues_entryZ by (by rewrite <-?Hp).
  f_equal. apply sumZ_Permutation. by apply fmap_Permutation.
Qed.

Lemma getNodes_inv styles data root :
  getNodes styles data = Ret root ->
  exists groups, getGroups styles data = Ret (Some groups).
Proof.
  unfold getNodes. destruct (getGroups styles data) as [[gr|]|]; simpl; [eauto|done..].
Qed.

(** X8. Where the rollups are exact integers, under every group-column
    node of the hierarchy of [getNodes] the values of the leaves add up
    to the same total, whatever the sort direction: the number of records
    in count mode, otherwise the sum of the metric values that [parseInt]
    reads as numbers. *)
Theorem getNodes_group_total (styles : Styles) (data : list DataRow)
    (gs : list JNode) (col : string) (leaves : list JNode) :
  exactRollup (rollupColName styles) data ->
  getNodes styles data = Ret (Inner "" gs) ->
  Inner col leaves ∈ gs ->
  sumValues leaves = Num (totalWeight (rollupColName styles) data).
Proof.
  intros Hex Hroot. destruct (getNodes_inv _ _ _ Hroot) as [gr Hg].
  rewrite (getNodes_Ret_exact _ _ _ Hg Hex) in Hroot. injection Hroot as <-.
  intros (e & _ & [= -> ->])%elem_of_sort%elem_of_rootValuesOf.
  rewrite (sumValues_Permutation _
             (aggregateByCol (OneCol e) data (rollupColName styles))).
  - by apply sumValues_aggregateByCol.
  - apply Forall_forall. intros leaf Hleaf%elem_of_sort.
    by eapply Forall_forall; [apply aggregateByCol_intEntries|].
  - apply sort_Permutation.
Qed.

Lemma linkTotal_fmap (f : JNode -> Link) (entries : list JNode) :
  (forall d, value (f d) = values d) ->
  linkTotal (f <$> entries) = sumValues entries.
Proof.
  intros Hf. unfold linkTotal, sumValues. generalize (Num 0).
  induction entries as [|d entries IH]; intros acc; csimpl; [done|].
  rewrite Hf. apply IH.
Qed.

Lemma tidy_pairTidy data groups c1 c2 :
  tidy data groups -> c1 ∈ groups -> c2 ∈ groups -> pairTidy data c1 c2.
Proof.
  intros Ht H1 H2 d Hd. split_and!;
    first [by apply (tidy_present _ _ Ht)|by apply (tidy_no_comma _ _ Ht)].
Qed.

(** On tidy data whose group columns have no value in common, the value
    of a group column resolves to the entry of that value under that
    column. *)
Lemma mapNameNode_resolves_entry styles data groups d g :
  tidy data groups -> columnsApart data groups ->
  d ∈ data -> g ∈ groups ->
  let root := Inner "" (JS.sort (sortBy styles F_key) (rootValuesOf styles data groups)) in
  mapNameNodeOf (cluster_nodes root) !! toStr (getProp d g)
  = Some (Leaf (toStr (getProp d g))
            (rollup (rollupColName styles)
               (groupOf (OneCol g) data (toStr (getProp d g))))).
Proof.
  intros Ht Hapart Hd Hg root.
  set (a := toStr (getProp d g)).
  assert (exists leaf, leaf ∈ cluster_nodes root /\ key leaf = a) as Hleaf.
  { exists (Leaf a (rollup (rollupColName styles) (groupOf (OneCol g) data a))).
    split; [|done].
    apply elem_of_cluster_nodes_root; [apply rootValues_shape|]. right. right.
    eexists. split_and!.
    - apply elem_of_sort, elem_of_rootValuesOf. eauto.
    - simpl. apply elem_of_sort.
      apply (aggregateByCol_entry_of (OneCol g) data (rollupColName styles) d Hd).
    - done. }
  apply mapNameNodeOf_lookup in Hleaf as (n & Hl & Hn & Hk).
  rewrite Hl. f_equal.
  apply elem_of_cluster_nodes_root in Hn as [->|[Hn|(g' & Hg' & Hn & He)]];
    [| | |apply rootValues_shape].
  - simpl in Hk. by destruct (tidy_not_empty _ _ Ht d g).
  - apply elem_of_sort, elem_of_rootValuesOf in Hn as (e & He & ->).
    simpl in Hk. destruct (tidy_not_name _ _ Ht d g Hd Hg).
    change (a ∈ groups). by rewrite <-Hk.
  - apply elem_of_sort, elem_of_rootValuesOf in Hg' as (e & He' & ->).
    simpl in Hn. apply elem_of_sort in Hn.
    apply elem_of_aggregateByCol in Hn as [Hn (d' & Hd' & Hk')].
    destruct (decide (e = g)) as [->|Hne].
    + rewrite Hn. by rewrite Hk.
    + destruct (Hapart d' d e g Hd' Hd He' Hg Hne). simpl in Hk'.
      by rewrite Hk', Hk.
Qed.

(** On such data the source of a link of the pair [[c1, c2]] is the
    entry, under [c1], of the first part of the key that the link comes
    from, and its target the entry of the second part under [c2]. *)
Lemma linksOfPair_endpoints styles data groups c1 c2 e :
  tidy data groups -> columnsApart data groups ->
  c1 ∈ groups -> c2 ∈ groups ->
  e ∈ aggregateByCol (ManyCols [c1; c2]) data (rollupColName styles) ->
  let root := Inner "" (JS.sort (sortBy styles F_key) (rootValuesOf styles data groups)) in
  let m := mapNameNodeOf (cluster_nodes root) in
  (exists s, m !! namePart 0 (key e) = Some s /\ key s = namePart 0 (key e) /\
             s ∈ aggregateByCol (OneCol c1) data (rollupColName styles)) /\
  (exists t, m !! namePart 1 (key e) = Some t /\ key t = namePart 1 (key e) /\
             t ∈ aggregateByCol (OneCol c2) data (rollupColName styles)).
Proof.
  intros Ht Hapart H1 H2 [_ (d & Hd & <-)]%elem_of_aggregateByCol root m.
  destruct (namePart_composite data c1 c2 d (tidy_pairTidy _ _ _ _ Ht H1 H2) Hd)
    as [-> ->].
  split; eexists; (split; [by apply mapNameNode_resolves_entry|]); (split; [done|]).
  - apply (aggregateByCol_entry_of (OneCol c1) data (rollupColName styles) d Hd).
  - apply (aggregateByCol_entry_of (OneCol c2) data (rollupColName styles) d Hd).
Qed.

(** X9. On tidy data whose group columns have no value in common, where
    the rollups are exact integers, for a pair of group columns: a link
    of the pair has the key of a leaf of the first column for the key of
    its source only when that very leaf is its source, and the links of
    the pair whose source is that leaf add up to the value of the leaf;
    likewise for the targets and the leaves of the second column. *)
Theorem getLinks_leaf_total (styles : Styles) (data : list DataRow)
    (groups : list string) (c1 c2 : string) (root leaf : JNode) :
  getGroups styles data = Ret (Some groups) ->
  tidy data groups -> columnsApart data groups ->
  exactRollup (rollupColName styles) data ->
  c1 ∈ groups -> c2 ∈ groups ->
  getNodes styles data = Ret root ->
  let links := linksOfPair styles (mapNameNodeOf (cluster_nodes root)) data [c1; c2] in
  (forall leaves, Inner c1 leaves ∈ childrenOf root -> leaf ∈ leaves ->
     (forall l, l ∈ links -> key <$> source l = Some (key leaf) ->
                source l = Some leaf) /\
     linkTotal (filter (fun l => key <$> source l = Some (key leaf)) links)
     = numOf (values leaf)) /\
  (forall leaves, Inner c2 leaves ∈ childrenOf root -> leaf ∈ leaves ->
     (forall l, l ∈ links -> key <$> target l = Some (key leaf) ->
                target l = Some leaf) /\
     linkTotal (filter (fun l => key <$> target l = Some (key leaf)) links)
     = numOf (values leaf)).
Proof.
  intros Hg Ht Hapart Hex H1 H2 Hroot links.
  rewrite (getNodes_Ret_exact _ _ _ Hg Hex) in Hroot. injection Hroot as <-.
  pose proof (tidy_pairTidy _ _ _ _ Ht H1 H2) as Hpt.
  destruct (aggregateByCol_part_total data (rollupColName styles) c1 c2 leaf Hpt Hex)
    as [Hsrc Htgt].
  unfold links, linksOfPair.
  split; intros leaves (e & _ & [= -> ->])%elem_of_sort%elem_of_rootValuesOf
           Hleaf%elem_of_sort.
  - split.
    + intros l (en & -> & Hen)%list_elem_of_fmap.
      destruct (linksOfPair_endpoints styles data groups e c2 en Ht Hapart H1 H2 Hen)
        as [(s & Hms & Hks & Hs) _].
      unfold namePart in Hms, Hks. cbn [source]. rewrite Hms.
      simpl. intros [= Hk]. f_equal.
      by eapply aggregateByCol_key_inj.
    + rewrite filter_fmap_comm, linkTotal_fmap by done.
      rewrite <-(Hsrc Hleaf). f_equal.
      apply filter_ext_elem. intros en Hen.
      destruct (linksOfPair_endpoints styles data groups e c2 en Ht Hapart H1 H2 Hen)
        as [(s & Hms & Hks & Hs) _].
      unfold namePart in Hms, Hks |- *. cbn [source]. rewrite Hms.
      simpl. rewrite Hks.
      split; [by intros [= ->]|by intros ->].
  - split.
    + intros l (en & -> & Hen)%list_elem_of_fmap.
      destruct (linksOfPair_endpoints styles data groups c1 e en Ht Hapart H1 H2 Hen)
        as [_ (t & Hmt & Hkt & Htg)].
      unfold namePart in Hmt, Hkt. cbn [target]. rewrite Hmt.
      simpl. intros [= Hk]. f_equal.
      by eapply aggregateByCol_key_inj.
    + rewrite filter_fmap_comm, linkTotal_fmap by done.
      rewrite <-(Htgt Hleaf). f_equal.
      apply filter_ext_elem. intros en Hen.
      destruct (linksOfPair_endpoints styles data groups c1 e en Ht Hapart H1 H2 Hen)
        as [_ (t & Hmt & Hkt & Htg)].
      unfold namePart in Hmt, Hkt |- *. cbn [target]. rewrite Hmt.
      simpl. rewrite Hkt.
      split; [by intros [= ->]|by intros ->].
Qed.

Lemma linkTotal_linkZ (links : list Link) :
  Forall (fun l => exists z, value l = VNum (Num z)) links ->
  linkTotal links = Num (sumZ (linkZ <$> links)).
Proof.
  intros Hl. unfold linkTotal.
  enough (forall acc, foldl (fun s l => plus s (numOf (value l))) (Num acc) links
                      = Num (acc + sumZ (linkZ <$> links))) as Hacc by by rewrite Hacc.
  induction Hl as [|l links [z Hz] _ IH]; intros acc; csimpl.
  - f_equal. lia.
  - rewrite Hz. simpl. rewrite IH. f_equal. unfold linkZ. rewrite Hz. lia.
Qed.

Lemma linksOfPair_values styles m data pair :
  exactRollup (rollupColName styles) data ->
  Forall (fun l => exists z, value l = VNum (Num z)) (linksOfPair styles m data pair).
Proof.
  intros Hex. apply Forall_forall. intros l (e & -> & He)%list_elem_of_fmap. simpl.
  pose proof (aggregateByCol_intEntries (ManyCols pair) data (rollupColName styles) Hex)
    as Hent.
  rewrite Forall_forall in Hent. destruct (Hent e He) as (k & z & ->). eauto.
Qed.

Lemma sumZ_linksOfPair styles m data pair :
  exactRollup (rollupColName styles) data ->
  sumZ (linkZ <$> linksOfPair styles m data pair)
  = totalWeight (rollupColName styles) data.
Proof.
  intros Hex.
  pose proof (linkTotal_linkZ _ (linksOfPair_values styles m data pair Hex)) as Hz.
  rewrite linkTotal_linksOfPair, sumValues_aggregateByCol in Hz by done.
  congruence.
Qed.

Lemma sumZ_bind_const {A} (f : A -> list Link) (w : Z) (l : list A) :
  (forall x, sumZ (linkZ <$> f x) = w) ->
  sumZ (linkZ <$> (l ≫= f)) = Z.of_nat (length l) * w.
Proof.
  intros Hf. induction l as [|x l IH]; csimpl; [done|].
  rewrite fmap_app, sumZ_app, Hf, IH. lia.
Qed.

(** X10. Where the rollups are exact integers, all the links that
    [getLinks] returns add up to the total of the dataset once per pair
    of group columns: with [n] derived groups, to [n (n - 1) / 2] times
    the number of records in count mode (or times the sum of the numeric
    metric values). *)
Theorem getLinks_total (styles : Styles) (data : list DataRow)
    (nodes : list JNode) (groups : list string) (links : list Link) :
  exactRollup (rollupColName styles) data ->
  getGroups styles data = Ret (Some groups) ->
  getLinks styles data nodes = Ret links ->
  exists t, linkTotal links = Num t /\
    2 * t = Z.of_nat (length groups * (length groups - 1))
            * totalWeight (rollupColName styles) data.
Proof.
  intros Hex Hg. rewrite (getLinks_Ret _ _ _ _ (getGroupPairs_Ret _ _ _ Hg)).
  intros [= <-]. eexists. split.
  - apply linkTotal_linkZ. apply Forall_forall.
    intros l (pair & Hl & _)%list_elem_of_bind.
    pose proof (linksOfPair_values styles (mapNameNodeOf nodes) data pair Hex) as Hv.
    rewrite Forall_forall in Hv. by apply Hv.
  - rewrite (sumZ_bind_const _ (totalWeight (rollupColName styles) data))
      by (intros pair; by apply sumZ_linksOfPair).
    pose proof (length_pairsOf groups). nia.
Qed.

Lemma getLinks_total_witness :
  exactRollup (rollupColName scenarioStyles) scenarioData /\
  getGroups scenarioStyles scenarioData = Ret (Some ["A"; "B"]) /\
  getLinks scenarioStyles scenarioData [] = Ret
    (pairsOf ["A"; "B"] ≫= linksOfPair scenarioStyles (mapNameNodeOf []) scenarioData) /\
  exists t,
    linkTotal (pairsOf ["A"; "B"]
                 ≫= linksOfPair scenarioStyles (mapNameNodeOf []) scenarioData) = Num t /\
    2 * t = Z.of_nat (length ["A"; "B"] * (length ["A"; "B"] - 1))
            * totalWeight (rollupColName scenarioStyles) scenarioData.
Proof.
  split; [left; reflexivity|]. split; [reflexivity|]. split; [reflexivity|].
  apply (getLinks_total scenarioStyles scenarioData [] ["A"; "B"] _
           (or_introl eq_refl) eq_refl eq_refl).
Defined.

(** X11. With fewer than two derived groups [getLinks] returns no link,
    whatever the dataset and the nodes. *)
Theorem getLinks_single_group (styles : Styles) (data : list DataRow)
    (nodes : list JNode) (groups : list string) :
  getGroups styles data = Ret (Some groups) ->
  (length groups <= 1)%nat ->
  getLinks styles data nodes = Ret [].
Proof.
  intros Hg Hlen. rewrite (getLinks_Ret _ _ _ _ (getGroupPairs_Ret _ _ _ Hg)).
  pose proof (length_pairsOf groups) as Hp.
  destruct (pairsOf groups); [done|]. simpl in Hp. nia.
Qed.

Lemma getLinks_single_group_witness :
  getGroups defaultStyles twoColumnData = Ret (Some ["A"]) /\
  (length ["A"] <= 1)%nat /\
  getLinks defaultStyles twoColumnData [] = Ret [].
Proof.
  split; [reflexivity|]. split; [simpl; lia|].
  apply (getLinks_single_group defaultStyles twoColumnData [] ["A"] eq_refl).
  simpl. lia.
Defined.

(** ** [parseInt] reads back the integers that [toStr] prints *)

Lemma digit_cases (d : N) :
  (d < 10)%N ->
  d = 0%N \/ d = 1%N \/ d = 2%N \/ d = 3%N \/ d = 4%N \/ d = 5%N \/
  d = 6%N \/ d = 7%N \/ d = 8%N \/ d = 9%N.
Proof. lia. Qed.

Lemma digitVal_pretty_N_char d :
  (d < 10)%N ->
  digitVal (pretty_N_char d) = Some (Z.of_N d) /\
  isWhite (pretty_N_char d) = false /\
  pretty_N_char d ≠ "-"%char /\ pretty_N_char d ≠ "+"%char /\
  pretty_N_char d ≠ "x"%char /\ pretty_N_char d ≠ "X"%char.
Proof.
  intros Hd. destruct (digit_cases d Hd) as [->|[->|[->|[->|[->|[->|[->|[->|[->| ->]]]]]]]]];
    by vm_compute.
Qed.

Lemma append_String c a s : String c a +:+ s = String c (a +:+ s).
Proof. reflexivity. Qed.

Lemma append_empty_r a : a +:+ "" = a.
Proof. induction a as [|c a IH]; [done|]. by rewrite append_String, IH. Qed.

Lemma digitsStr_cons d l : digitsStr (d :: l) = String (pretty_N_char d) (digitsStr l).
Proof. reflexivity. Qed.

Lemma digitsStr_app l k s :
  digitsStr (l ++ k) +:+ s = digitsStr l +:+ (digitsStr k +:+ s).
Proof.
  induction l as [|d l IH]; [done|].
  change ((d :: l) ++ k) with (d :: (l ++ k)).
  by rewrite !digitsStr_cons, !append_String, IH.
Qed.

(** [pretty] writes a positive number as its list of decimal digits. *)
Lemma pretty_N_go_digits (x : N) :
  (0 < x)%N ->
  exists l, l ≠ [] /\ Forall (fun d => (d < 10)%N) l /\
            digitsVal l 0 = Z.of_N x /\
            forall s, pretty_N_go x s = digitsStr l +:+ s.
Proof.
  induction (N.lt_wf_0 x) as [x _ IH]. intros Hx.
  assert ((x `mod` 10 < 10)%N) as Hmod by (apply N.mod_lt; lia).
  destruct (decide (x `div` 10 = 0)%N) as [Hz|Hnz].
  - exists [(x `mod` 10)%N]. split_and!; [done|by constructor| |].
    + unfold digitsVal. simpl. pose proof (N.div_mod x 10 ltac:(lia)). lia.
    + intros s. rewrite pretty_N_go_step, Hz by done. done.
  - destruct (IH (x `div` 10)%N) as (l & Hne & Hl & Hv & Hs);
      [apply N.div_lt; lia|by apply N.neq_0_lt_0|].
    exists (l ++ [(x `mod` 10)%N]). split_and!.
    + by destruct l.
    + apply Forall_app. split; [done|by constructor].
    + unfold digitsVal in *. rewrite foldl_app. simpl. rewrite Hv.
      pose proof (N.div_mod x 10 ltac:(lia)). lia.
    + intros s. rewrite pretty_N_go_step, Hs, digitsStr_app by done. done.
Qed.

Lemma parseDigits_digitsStr l s acc :
  l ≠ [] -> Forall (fun d => (d < 10)%N) l ->
  parseDigits 10 (digitsStr l +:+ s) acc
  = parseDigits 10 s (Some (digitsVal l (default 0 acc))).
Proof.
  intros Hne Hl. revert acc Hne.
  induction Hl as [|d l Hd Hl IH]; intros acc Hne; [done|].
  rewrite digitsStr_cons, append_String. cbn [parseDigits].
  destruct (digitVal_pretty_N_char d Hd) as (-> & _).
  destruct (Z.ltb_spec (Z.of_N d) 10) as [_|?]; [|lia].
  destruct l as [|d' l]; [done|].
  rewrite IH by done. done.
Qed.

Lemma parseIntStr_unsigned c s :
  isWhite c = false -> c ≠ "-"%char -> c ≠ "+"%char ->
  parseIntStr (String c s)
  = match parseUnsigned (String c s) with
    | Some n => toDouble (1 * n)
    | None => NaN
    end.
Proof.
  intros Hw Hm Hp. unfold parseIntStr. cbn [trimLeft]. rewrite Hw.
  destruct c as [[] [] [] [] [] [] [] []]; done.
Qed.

Lemma parseIntStr_minus s :
  parseIntStr (String "-" s)
  = match parseUnsigned s with
    | Some n => toDouble (-1 * n)
    | None => NaN
    end.
Proof. reflexivity. Qed.

Lemma parseUnsigned_decimal c s :
  (forall c' s', s = String c' s' -> c' ≠ "x"%char /\ c' ≠ "X"%char) ->
  parseUnsigned (String c s) = parseDigits 10 (String c s) None.
Proof.
  intros Hs. destruct s as [|c' s'].
  - destruct c as [[] [] [] [] [] [] [] []]; done.
  - destruct (Hs c' s' eq_refl) as [Hx HX].
    destruct c as [[] [] [] [] [] [] [] []]; try done.
    destruct c' as [[] [] [] [] [] [] [] []]; done.
Qed.

Lemma parseIntStr_digitsStr l :
  l ≠ [] -> Forall (fun d => (d < 10)%N) l ->
  parseIntStr (digitsStr l) = toDouble (digitsVal l 0) /\
  parseIntStr (String "-" (digitsStr l)) = toDouble (- digitsVal l 0).
Proof.
  intros Hne Hl.
  assert (parseUnsigned (digitsStr l) = Some (digitsVal l 0)) as Hu.
  { pose proof (parseDigits_digitsStr l "" None Hne Hl) as Hp.
    rewrite append_empty_r in Hp. etrans; [|exact Hp].
    destruct Hl as [|d l Hd Hl]; [done|]. rewrite digitsStr_cons.
    apply parseUnsigned_decimal. intros c' s' Hs.
    destruct Hl as [|d' l Hd' Hl]; [done|]. rewrite digitsStr_cons in Hs.
    injection Hs as <- _.
    by destruct (digitVal_pretty_N_char d' Hd') as (_ & _ & _ & _ & Hx & HX). }
  split.
  - destruct Hl as [|d l Hd Hl]; [done|].
    destruct (digitVal_pretty_N_char d Hd) as (_ & Hw & Hm & Hp & _).
    rewrite digitsStr_cons in *. rewrite parseIntStr_unsigned, Hu by done.
    f_equal. lia.
  - rewrite parseIntStr_minus, Hu. f_equal.
Qed.

(** [parseInt] reads the integers that [pretty] prints, as the double
    nearest to them. *)
Lemma parseIntStr_pretty z : parseIntStr (pretty z) = toDouble z.
Proof.
  unfold pretty, pretty_Z.
  destruct z as [|p|p].
  - done.
  - unfold pretty, pretty_positive, pretty, pretty_N.
    rewrite decide_False by done.
    destruct (pretty_N_go_digits (N.pos p)) as (l & Hne & Hl & Hv & Hs); [lia|].
    rewrite Hs.
    rewrite append_empty_r.
    destruct (parseIntStr_digitsStr l Hne Hl) as [-> _]. f_equal. lia.
  - unfold pretty, pretty_positive, pretty, pretty_N.
    rewrite decide_False by done.
    destruct (pretty_N_go_digits (N.pos p)) as (l & Hne & Hl & Hv & Hs); [lia|].
    rewrite Hs.
    rewrite append_empty_r.
    change ("-" +:+ digitsStr l) with (String "-" (digitsStr l)).
    destruct (parseIntStr_digitsStr l Hne Hl) as [_ ->]. f_equal. lia.
Qed.

(** Up to 2^53 [parseInt] reads a number of the document back as it
    is. *)
Lemma parseInt_JInt z : Z.abs z <= maxExact -> parseInt (Some (JInt z)) = Num z.
Proof.
  intros Hz. unfold parseInt. by rewrite toStr_JInt, parseIntStr_pretty, toDouble_exact.
Qed.

Lemma sumZ_elem_le {A} (g : A -> Z) (l : list A) (x : A) :
  (forall y, 0 <= g y) -> x ∈ l -> g x <= sumZ (g <$> l).
Proof.
  intros Hg. induction 1 as [x l|x y l _ IH]; csimpl.
  - pose proof (sumZ_nonneg g l Hg). lia.
  - specialize (Hg y). lia.
Qed.

(** A metric column of integers whose absolute values add up to no more
    than 2^53 is read back exactly, and its rollups are exact. *)
Lemma integer_metric_exact rc data :
  rc ≠ "" ->
  (forall d, d ∈ data -> exists z, getProp d rc = Some (JInt z)) ->
  sumZ ((fun d => Z.abs (metricInt rc d)) <$> data) <= maxExact ->
  (forall d, d ∈ data -> parseInt (getProp d rc) = Num (metricInt rc d)) /\
  exactRollup rc data.
Proof.
  intros Hrc Hint Hsum.
  assert (forall d, d ∈ data -> parseInt (getProp d rc) = Num (metricInt rc d))
    as Hparse.
  { intros d Hd. destruct (Hint d Hd) as [z Hz].
    pose proof (sumZ_elem_le (fun d => Z.abs (metricInt rc d)) data d
                  ltac:(intros; lia) Hd) as Hle.
    unfold metricInt in *. rewrite Hz in *. apply parseInt_JInt. simpl in Hle. lia. }
  split; [done|]. right. split.
  - apply Forall_forall. intros d Hd s. by rewrite (Hparse d Hd).
  - etrans; [|exact Hsum]. apply Z.eq_le_incl. f_equal.
    apply list_fmap_ext. intros i d Hd%list_elem_of_lookup_2.
    unfold metricWeight. destruct (String.eqb_spec rc ""); [done|].
    by rewrite (Hparse d Hd).
Qed.

(** X12. With a metric column that holds an integer in every record,
    the absolute values of these integers adding up to no more than
    2^53: [parseInt] reads each value back exactly and the value of an
    entry is the sum of the metric values of the records of its group. *)
Theorem aggregateByCol_integer_metric (colName : ColSpec) (data : list DataRow)
    (rc : string) (e : JNode) :
  rc ≠ "" ->
  (forall d, d ∈ data -> exists z, getProp d rc = Some (JInt z)) ->
  sumZ ((fun d => Z.abs (metricInt rc d)) <$> data) <= maxExact ->
  e ∈ aggregateByCol colName data rc ->
  (forall d, d ∈ data -> parseInt (getProp d rc) = Num (metricInt rc d)) /\
  values e = VNum (Num (sumZ (metricInt rc <$> groupOf colName data (key e)))).
Proof.
  intros Hrc Hint Hsum [He _]%elem_of_aggregateByCol.
  destruct (integer_metric_exact rc data Hrc Hint Hsum) as [Hparse Hex].
  split; [done|].
  rewrite He. cbn [key values]. rewrite rollup_group by done. do 2 f_equal.
  clear He.
  assert (forall d, d ∈ groupOf colName data (key e) -> d ∈ data) as Hsub.
  { intros d Hd. by apply list_elem_of_filter in Hd as [_ ?]. }
  induction (groupOf colName data (key e)) as [|d g IH]; csimpl; [done|].
  rewrite IH by (intros d' Hd'; apply Hsub; by right). f_equal.
  unfold metricWeight. destruct (String.eqb_spec rc ""); [done|].
  rewrite Hparse; [done|]. apply Hsub. by left.
Qed.

(** ** [aggregateByCol]: keys *)

Lemma firstSeen_constant (x : string) (l : list string) :
  l ≠ [] -> (forall y, y ∈ l -> y = x) -> firstSeen l = [x].
Proof.
  intros Hne Hall.
  pose proof (NoDup_firstSeen l) as Hnd.
  assert (forall y, y ∈ firstSeen l -> y = x) as Hall'
    by (intros y Hy; apply Hall; by apply elem_of_firstSeen).
  assert (x ∈ firstSeen l) as Hx.
  { apply elem_of_firstSeen. destruct l as [|y l]; [done|].
    rewrite <-(Hall y) by left. left. }
  destruct (firstSeen l) as [|a [|b r]].
  - by apply elem_of_nil in Hx.
  - by rewrite (Hall' a) by left.
  - apply NoDup_cons in Hnd as [Hab _]. exfalso. apply Hab.
    assert (a = x) as -> by (apply Hall'; left).
    assert (b = x) as -> by (apply Hall'; right; left).
    left.
Qed.

(** X13. A grouping column that no record has, neither among its own
    properties nor from [Object.prototype]: every record falls under the
    key ["undefined"], so on a dataset that is not empty [aggregateByCol]
    returns the single entry ["undefined"], which holds the rollup of the
    whole dataset: where the rollups are exact integers, the total of the
    dataset. *)
Theorem aggregateByCol_missing_column (c : string) (data : list DataRow)
    (rc : string) :
  data ≠ [] ->
  (forall d, d ∈ data -> getProp d c = None) ->
  aggregateByCol (OneCol c) data rc = [Leaf "undefined" (rollup rc data)] /\
  (exactRollup rc data ->
   aggregateByCol (OneCol c) data rc
   = [Leaf "undefined" (Num (totalWeight rc data))]).
Proof.
  intros Hne Hnone.
  assert (aggregateByCol (OneCol c) data rc = [Leaf "undefined" (rollup rc data)])
    as Hagg.
  { rewrite aggregateByCol_groups.
    assert (forall d, d ∈ data -> nestKey (OneCol c) d = "undefined") as Hkey.
    { intros d Hd. simpl. by rewrite Hnone. }
    rewrite (firstSeen_constant "undefined").
    - rewrite forIn_named.
      + simpl. unfold groupOf. by rewrite (filter_all _ data Hkey).
      + by intros x ->%list_elem_of_singleton.
    - by destruct data.
    - intros y (d & -> & Hd)%list_elem_of_fmap. by apply Hkey. }
  split; [done|]. intros Hex. by rewrite Hagg, rollup_totalWeight.
Qed.

Lemma aggregateByCol_missing_column_witness :
  scenarioData ≠ [] /\
  (forall d, d ∈ scenarioData -> getProp d "C" = None) /\
  aggregateByCol (OneCol "C") scenarioData ""
  = [Leaf "undefined" (rollup "" scenarioData)].
Proof.
  assert (forall d, d ∈ scenarioData -> getProp d "C" = None) as Hnone.
  { intros d Hd. repeat (apply elem_of_cons in Hd as [->|Hd]);
      [reflexivity..|]. by apply elem_of_nil in Hd. }
  split; [discriminate|]. split; [exact Hnone|].
  assert (scenarioData ≠ []) as Hne by discriminate.
  exact (proj1 (aggregateByCol_missing_column "C" scenarioData "" Hne Hnone)).
Defined.

(** A column that no record has among its own properties, but that
    names a member of [Object.prototype]: the key is the text of that
    member, not ["undefined"]. *)
Example aggregateByCol_inherited_column :
  getProp [("A", JStr "x")] "toString" = Some (JProto "toString") /\
  aggregateByCol (OneCol "toString") scenarioData ""
  = [Leaf "function toString() { [native code] }" (Num 3)].
Proof. split; vm_compute; reflexivity. Qed.

(** X14. [aggregateByCol] returns one entry for each distinct key, in
    the order in which [d3.nest] enumerates its keys: the keys of the
    entries are distinct, they are the keys of the records, they are no
    more than the records; the keys that are array indices come first,
    in ascending numeric order, and of two other keys the earlier one
    occurs in the dataset before the later one ever does; so without a
    key that is an array index the entries are in the order in which
    the keys are first seen. *)
Theorem aggregateByCol_key_order (colName : ColSpec) (data : list DataRow)
    (rc : string) :
  let ks := key <$> aggregateByCol colName data rc in
  let occ := nestKey colName <$> data in
  NoDup ks /\
  (forall k, k ∈ ks <-> k ∈ occ) /\
  (length ks <= length data)%nat /\
  enumOrdered occ ks /\
  ((forall k, k ∈ occ -> arrayIndex k = None) -> ks = firstSeen occ).
Proof.
  intros ks occ.
  destruct (aggregateByCol_enumOrdered colName data rc) as [Henum Hfirst].
  split_and!; [| | |done..].
  - apply NoDup_aggregateByCol_keys.
  - intros k. apply elem_of_aggregateByCol_keys.
  - rewrite <-(length_fmap (nestKey colName) data). fold occ.
    apply submseteq_length, NoDup_submseteq; [apply NoDup_aggregateByCol_keys|].
    intros k. apply elem_of_aggregateByCol_keys.
Qed.

(** ** Sorting again *)

(** X15. Where the rollups are exact integers, whatever the value of
    [sort], the hierarchy of [getNodes] is a fixed point of its own
    sorting: sorting the group-column nodes by key again, or the leaves
    of a group by value again, changes nothing. *)
Theorem getNodes_resort (styles : Styles) (data : list DataRow) (gs : list JNode) :
  exactRollup (rollupColName styles) data ->
  getNodes styles data = Ret (Inner "" gs) ->
  JS.sort (sortBy styles F_key) gs = gs /\
  forall col leaves, Inner col leaves ∈ gs ->
    JS.sort (sortBy styles F_values) leaves = leaves.
Proof.
  intros Hex Hroot. destruct (getNodes_inv _ _ _ Hroot) as [gr Hg].
  rewrite (getNodes_Ret_exact _ _ _ Hg Hex) in Hroot. injection Hroot as <-. split.
  - apply (sort_idempotent _ (fun _ => True)); [|by apply Forall_true].
    intros x y _ _. apply sortBy_key_total.
  - intros col leaves (e & _ & [= -> ->])%elem_of_sort%elem_of_rootValuesOf.
    apply (sort_idempotent _ isIntEntry); [|by apply aggregateByCol_intEntries].
    intros x y. apply sortBy_values_total.
Qed.

Lemma getNodes_resort_witness :
  exactRollup (rollupColName scenarioStyles) scenarioData /\
  getNodes scenarioStyles scenarioData
  = Ret (Inner "" [Inner "B" [Leaf "p" (Num 2); Leaf "q" (Num 1)];
                   Inner "A" [Leaf "x" (Num 2); Leaf "y" (Num 1)]]) /\
  JS.sort (sortBy scenarioStyles F_key)
    [Inner "B" [Leaf "p" (Num 2); Leaf "q" (Num 1)];
     Inner "A" [Leaf "x" (Num 2); Leaf "y" (Num 1)]]
  = [Inner "B" [Leaf "p" (Num 2); Leaf "q" (Num 1)];
     Inner "A" [Leaf "x" (Num 2); Leaf "y" (Num 1)]].
Proof.
  split; [left; reflexivity|]. split; [reflexivity|].
  apply (getNodes_resort scenarioStyles scenarioData _ (or_introl eq_refl) eq_refl).
Defined.

(** ** The shape of the hierarchy *)

(** X16. The hierarchy of [getNodes] has two levels below a root of key
    [""]: one group-column node for each derived group (as many times as
    the group is listed), each holding only rollup entries, which hold
    integers where the rollups are exact; and a group-column node is
    without leaves exactly when the dataset is empty. *)
Theorem getNodes_shape (styles : Styles) (data : list DataRow)
    (groups : list string) :
  getGroups styles data = Ret (Some groups) ->
  exists gs, getNodes styles data = Ret (Inner "" gs) /\
    key <$> gs ≡ₚ groups /\
    forall g, g ∈ gs ->
      exists leaves, g = Inner (key g) leaves /\ Forall isEntry leaves /\
                     (leaves = [] <-> data = []) /\
                     (exactRollup (rollupColName styles) data ->
                      Forall isIntEntry leaves).
Proof.
  intros Hg. eexists. split; [by apply getNodes_Ret|]. split.
  - rewrite copyObj_keys, sort_Permutation. by rewrite rootValuesOf_keys.
  - intros g Hin. destruct (root_children_shape _ _ _ _ Hin) as (k & lv & Hk & Hent).
    apply elem_of_root_children in Hin as (e & _ & ->).
    eexists. split_and!; [done| | |].
    + by injection Hk as _ ->.
    + rewrite <-(aggregateByCol_nil_iff (OneCol e) data (rollupColName styles)).
      unfold copyObj. split; intros Hnil.
      * apply fmap_nil_inv in Hnil.
        apply Permutation_nil_r. rewrite <-Hnil. symmetry. apply sort_Permutation.
      * by rewrite Hnil.
    + intros Hex. unfold copyObj. apply Forall_fmap, Forall_forall.
      intros leaf Hleaf%elem_of_sort. simpl.
      pose proof (aggregateByCol_intEntries (OneCol e) data (rollupColName styles) Hex)
        as Hint.
      rewrite Forall_forall in Hint. by destruct (Hint leaf Hleaf) as (k' & z & ->); eexists _, _.
Qed.

Lemma getNodes_shape_witness :
  getGroups scenarioStyles scenarioData = Ret (Some ["A"; "B"]) /\
  exists gs, getNodes scenarioStyles scenarioData = Ret (Inner "" gs) /\
    key <$> gs ≡ₚ ["A"; "B"] /\
    forall g, g ∈ gs ->
      exists leaves, g = Inner (key g) leaves /\ Forall isEntry leaves /\
                     (leaves = [] <-> scenarioData = []) /\
                     (exactRollup (rollupColName scenarioStyles) scenarioData ->
                      Forall isIntEntry leaves).
Proof.
  split; [reflexivity|].
  apply (getNodes_shape scenarioStyles scenarioData ["A"; "B"] eq_refl).
Defined.

(** ** The name lookup of [getLinks] *)

(** X17. When several nodes bear one key, the name resolves to the last
    of them in the order of the node list: a node that no later node
    shares its key with is what its key resolves to. *)
Theorem mapNameNodeOf_last_wins (before after : list JNode) (n : JNode) :
  (forall m, m ∈ after -> key m ≠ key n) ->
  mapNameNodeOf (before ++ n :: after) !! key n = Some n.
Proof.
  induction after as [|m after IH] using rev_ind; intros Hlater.
  - rewrite mapNameNodeOf_snoc. apply lookup_insert_eq.
  - rewrite app_comm_cons, app_assoc, mapNameNodeOf_snoc.
    rewrite lookup_insert_ne by (apply Hlater; set_solver).
    apply IH. intros m' Hm'. apply Hlater. set_solver.
Qed.

Lemma mapNameNodeOf_last_wins_witness :
  (forall m, m ∈ [Leaf "q" (Num 1)] -> key m ≠ key (Leaf "p" (Num 2))) /\
  mapNameNodeOf ([Leaf "p" (Num 7)] ++ Leaf "p" (Num 2) :: [Leaf "q" (Num 1)])
    !! key (Leaf "p" (Num 2)) = Some (Leaf "p" (Num 2)).
Proof.
  assert (forall m, m ∈ [Leaf "q" (Num 1)] -> key m ≠ key (Leaf "p" (Num 2))) as Hl.
  { intros m Hm. apply list_elem_of_singleton in Hm as ->. discriminate. }
  split; [exact Hl|].
  apply (mapNameNodeOf_last_wins [Leaf "p" (Num 7)] [Leaf "q" (Num 1)]
           (Leaf "p" (Num 2)) Hl).
Defined.

(** ** The laid-out nodes: which are texts, which are bars *)

Lemma cluster_walk_entry p n :
  isEntry n -> cluster_walk p n = [{| datum := n; parent := p |}].
Proof. by destruct n. Qed.

Lemma cluster_walk_datum p n : datum <$> cluster_walk p n = cluster_nodes n.
Proof.
  revert p. induction n as [k v|k|k l IH] using
    (fix F (n : JNode) : forall P : JNode -> Prop,
       (forall k v, P (Leaf k v)) ->
       (forall k, P (Nulled k)) ->
       (forall k l, Forall P l -> P (Inner k l)) -> P n :=
       fun P HL HN HI =>
         match n with
         | Leaf k v => HL k v
         | Nulled k => HN k
         | Inner k l =>
             HI k l ((fix G (l : list JNode) : Forall P l :=
                        match l with
                        | [] => Forall_nil_2 P
                        | m :: l' => Forall_cons_2 P m l' (F m P HL HN HI) (G l')
                        end) l)
         end); intros p; [done|done|].
  cbn [cluster_walk cluster_nodes]. rewrite fmap_cons. f_equal.
  generalize (Some (Inner k l)). intros q.
  induction IH as [|m l' Hm _ IHl]; [done|].
  cbn [flat_map]. rewrite fmap_app, Hm. f_equal. exact IHl.
Qed.

Lemma elem_of_cluster_walk_group p k leaves n :
  Forall isEntry leaves ->
  n ∈ cluster_walk p (Inner k leaves) <->
  n = {| datum := Inner k leaves; parent := p |} \/
  exists leaf, leaf ∈ leaves /\
               n = {| datum := leaf; parent := Some (Inner k leaves) |}.
Proof.
  intros Hl. simpl. rewrite elem_of_cons, list_elem_of_In, in_flat_map.
  split; (intros [?|H]; [by left|right]).
  - destruct H as (leaf & Hleaf%list_elem_of_In & Hn%list_elem_of_In).
    rewrite cluster_walk_entry in Hn by (by eapply Forall_forall).
    apply list_elem_of_singleton in Hn as ->. eauto.
  - destruct H as (leaf & Hleaf & ->). exists leaf.
    rewrite <-!list_elem_of_In. split; [done|].
    rewrite cluster_walk_entry by (by eapply Forall_forall). by left.
Qed.

Lemma elem_of_cluster_walk_root (gs : list JNode) n :
  (forall g, g ∈ gs -> exists k leaves, g = Inner k leaves /\ Forall isEntry leaves) ->
  n ∈ cluster_walk None (Inner "" gs) <->
  n = {| datum := Inner "" gs; parent := None |} \/
  (exists g, g ∈ gs /\ n = {| datum := g; parent := Some (Inner "" gs) |}) \/
  (exists g leaf, g ∈ gs /\ leaf ∈ childrenOf g /\ isEntry leaf /\
                  n = {| datum := leaf; parent := Some g |}).
Proof.
  intros Hgs. simpl. rewrite elem_of_cons, list_elem_of_In, in_flat_map. split.
  - intros [?|(g & Hg%list_elem_of_In & Hn%list_elem_of_In)]; [by left|right].
    destruct (Hgs g Hg) as (k & leaves & -> & Hleaves).
    apply elem_of_cluster_walk_group in Hn as [->|(leaf & Hleaf & ->)]; [| |done].
    + left. eauto.
    + right. exists (Inner k leaves), leaf. split_and!; [done..| |done].
      by eapply Forall_forall.
  - intros [?|[(g & Hg & ->)|(g & leaf & Hg & Hleaf & _ & ->)]]; [by left|right..].
    + exists g. rewrite <-!list_elem_of_In. split; [done|].
      destruct (Hgs g Hg) as (k & leaves & -> & _). by left.
    + exists g. rewrite <-!list_elem_of_In. split; [done|].
      destruct (Hgs g Hg) as (k & leaves & -> & Hleaves).
      apply elem_of_cluster_walk_group; [done|]. right. eauto.
Qed.

Lemma elem_of_nodeSelection styles nodes n :
  n ∈ nodeSelection styles nodes <->
  n ∈ nodes /\ (isLeafNode n = true \/ isGroupColNode styles n = true).
Proof.
  unfold nodeSelection. rewrite !list_elem_of_In, filter_In, orb_true_iff. done.
Qed.

Lemma elem_of_nodeBarSelection nodes n :
  n ∈ nodeBarSelection nodes <-> n ∈ nodes /\ isLeafNode n = true.
Proof. unfold nodeBarSelection. by rewrite !list_elem_of_In, filter_In. Qed.

Lemma isLeafNode_entry p leaf :
  isEntry leaf -> isLeafNode {| datum := leaf; parent := p |} = true.
Proof. by destruct leaf. Qed.

(** X18. On a dataset that is not empty, whose first record has distinct
    column names, when at least one group is derived and none is named
    [""]: of the nodes that the layout returns, [isGroupColNode] holds
    exactly of the children of the root and [isLeafNode] exactly of the
    rollup entries; so the [.node] texts are all the nodes but the root
    and the [.node-bar] rectangles are the leaves. *)
Theorem layout_selections (styles : Styles) (d0 : DataRow) (data : list DataRow)
    (groups : list string) :
  NoDup (Object_keys d0) ->
  getGroups styles (d0 :: data) = Ret (Some groups) ->
  groups ≠ [] -> "" ∉ groups ->
  exists root, getNodes styles (d0 :: data) = Ret root /\
    let nodes := cluster_walk None root in
    (forall n, n ∈ nodes ->
       (isGroupColNode styles n = true <-> parent n = Some root) /\
       (isLeafNode n = true <-> isEntry (datum n))) /\
    (forall n, n ∈ nodeSelection styles nodes <-> n ∈ nodes /\ parent n ≠ None) /\
    (forall n, n ∈ nodeBarSelection nodes <-> n ∈ nodes /\ isEntry (datum n)).
Proof.
  intros Hnd Hg Hne Hempty. eexists. split; [by apply getNodes_Ret|].
  set (gs := copyObj (JS.sort (sortBy styles F_key)
                        (rootValuesOf styles (d0 :: data) groups))).
  set (root := Inner "" gs). cbv zeta. set (nodes := cluster_walk None root).
  assert (forall g, g ∈ gs -> exists e leaves,
            g = Inner e leaves /\ e ∈ groups /\ leaves ≠ [] /\ Forall isEntry leaves)
    as Hgs.
  { intros g Hin. destruct (root_children_shape _ _ _ _ Hin) as (k & lv & Hk & Hent).
    apply elem_of_root_children in Hin as (e & He & ->).
    injection Hk as <- <-. eexists _, _. split_and!; [done..| |done].
    unfold copyObj. intros Hnil%fmap_nil_inv. apply (f_equal length) in Hnil.
    rewrite (Permutation_length (sort_Permutation _ _)) in Hnil.
    apply nil_length_inv, aggregateByCol_nil_iff in Hnil. done. }
  assert (forall g, g ∈ gs -> exists k leaves, g = Inner k leaves /\ Forall isEntry leaves)
    as Hshape.
  { intros g Hg'. destruct (Hgs g Hg') as (e & leaves & -> & _ & _ & Hl). eauto. }
  assert (gs ≠ []) as Hgsne.
  { intros Hnil. apply Hne. apply (f_equal (fmap key)) in Hnil.
    unfold gs in Hnil. apply (f_equal length) in Hnil.
    rewrite copyObj_keys, length_fmap,
      (Permutation_length (sort_Permutation _ _)) in Hnil.
    unfold rootValuesOf in Hnil. rewrite length_fmap in Hnil.
    by apply nil_length_inv. }
  assert (forall n, n ∈ nodes ->
            (isGroupColNode styles n = true <-> parent n = Some root) /\
            (isLeafNode n = true <-> isEntry (datum n))) as Hcls.
  { intros n Hn. apply (elem_of_cluster_walk_root gs n Hshape) in Hn
      as [->|[(g & Hg' & ->)|(g & leaf & Hg' & Hleaf & Hentry & ->)]].
    - unfold isGroupColNode, isLeafNode. simpl.
      destruct gs as [|g0 gs0]; [done|]. split; split; done.
    - destruct (Hgs g Hg') as (e & leaves & -> & He & Hl & _).
      unfold isGroupColNode, isLeafNode. simpl.
      destruct (getGroups_isInGroupColNames styles d0 data groups Hnd Hg) as [_ Hin].
      rewrite (Hin e He). destruct leaves as [|l0 ls]; [done|].
      split; split; done.
    - destruct (Hgs g Hg') as (e & leaves & -> & He & _ & _).
      rewrite isLeafNode_entry by done.
      unfold isGroupColNode. simpl.
      destruct (String.eqb_spec e "") as [Heq|_]; [by rewrite Heq in He|].
      split; split; try done.
      intros Heq. injection Heq as Hroot _. by rewrite Hroot in He. }
  split; [exact Hcls|]. split.
  - intros n. rewrite elem_of_nodeSelection. split.
    + intros [Hn Hor]. split; [done|].
      destruct (Hcls n Hn) as [Hgc Hlf]. pose proof Hn as Hn'.
      apply (elem_of_cluster_walk_root gs n Hshape) in Hn'
        as [->|[(g & _ & ->)|(g & leaf & _ & _ & _ & ->)]]; [|done..].
      exfalso. destruct Hor as [Hl|Hc].
      * by apply Hlf in Hl.
      * by apply Hgc in Hc.
    + intros [Hn Hp]. split; [done|].
      destruct (Hcls n Hn) as [Hgc Hlf]. pose proof Hn as Hn'.
      apply (elem_of_cluster_walk_root gs n Hshape) in Hn'
        as [->|[(g & _ & ->)|(g & leaf & _ & _ & He & ->)]].
      * done.
      * right. by apply Hgc.
      * left. by apply Hlf.
  - intros n. rewrite elem_of_nodeBarSelection. split.
    + intros [Hn Hl]. split; [done|]. by apply (Hcls n Hn).
    + intros [Hn He]. split; [done|]. by apply (Hcls n Hn).
Qed.

(** ** The domains of the two scales *)

Lemma d3_max_snoc {A} (l : list A) (x : A) (f : A -> option JSNum) :
  d3_max (l ++ [x]) f
  = match f x, d3_max l f with
    | Some b, Some a => if num_gt b a then Some b else Some a
    | Some b, None => if isNaN b then None else Some b
    | None, m => m
    end.
Proof. unfold d3_max. rewrite foldl_app. simpl. by destruct (f x). Qed.

(** On values that are integers, [d3.max] is the greatest of them. *)
Lemma d3_max_cases {A} (l : list A) (f : A -> option JSNum) :
  (forall x b, x ∈ l -> f x = Some b -> exists z, b = Num z) ->
  match d3_max l f with
  | Some m => exists zm, m = Num zm /\
                (forall x v, x ∈ l -> f x = Some (Num v) -> v <= zm) /\
                exists x, x ∈ l /\ f x = Some m
  | None => forall x, x ∈ l -> f x = None
  end.
Proof.
  induction l as [|y l IH] using rev_ind; intros Hint.
  - simpl. by intros x ?%elem_of_nil.
  - rewrite d3_max_snoc.
    assert (forall x b, x ∈ l -> f x = Some b -> exists z, b = Num z) as Hint'
      by (intros x b Hx; apply Hint; set_solver).
    specialize (IH Hint').
    destruct (f y) as [b|] eqn:Hy.
    + destruct (Hint y b ltac:(set_solver) Hy) as [v ->].
      destruct (d3_max l f) as [a|].
      * destruct IH as (za & -> & Hub & x & Hx & Hfx). simpl.
        destruct (Z.ltb_spec za v).
        -- exists v. split_and!; [done| |exists y; set_solver].
           intros x' v' [Hx'|Hx']%elem_of_app Hv'.
           ++ specialize (Hub x' v' Hx' Hv'). lia.
           ++ apply list_elem_of_singleton in Hx' as ->.
              rewrite Hy in Hv'. injection Hv' as <-. lia.
        -- exists za. split_and!; [done| |exists x; set_solver].
           intros x' v' [Hx'|Hx']%elem_of_app Hv'.
           ++ by apply (Hub x' v').
           ++ apply list_elem_of_singleton in Hx' as ->.
              rewrite Hy in Hv'. injection Hv' as <-. lia.
      * simpl. exists v. split_and!; [done| |exists y; set_solver].
        intros x' v' [Hx'|Hx']%elem_of_app Hv'.
        -- by rewrite (IH x' Hx') in Hv'.
        -- apply list_elem_of_singleton in Hx' as ->.
           rewrite Hy in Hv'. by injection Hv' as <-.
    + destruct (d3_max l f) as [a|].
      * destruct IH as (za & -> & Hub & x & Hx & Hfx).
        exists za. split_and!; [done| |exists x; set_solver].
        intros x' v' [Hx'|Hx']%elem_of_app Hv'.
        -- by apply (Hub x' v').
        -- apply list_elem_of_singleton in Hx' as ->. by rewrite Hy in Hv'.
      * intros x' [Hx'|Hx']%elem_of_app; [by apply IH|].
        by apply list_elem_of_singleton in Hx' as ->.
Qed.

Lemma barValue_Some d b : barValue d = Some b -> exists k z, d = Leaf k (Num z) /\ b = Num z.
Proof.
  unfold barValue. destruct d as [k [|z|s]|k|k l]; try done.
  simpl. intros [= <-]. eauto.
Qed.

(** X19. In count mode, on a dataset that is not empty with at least one
    derived group, the greatest leaf value that the bar scale takes for
    its domain exists and lies between 1 and the number of records; with
    at least two groups the same holds of the greatest link value of the
    link scale. Neither domain is the degenerate [[0, 0]]. *)
Theorem scale_domains (styles : Styles) (data : list DataRow)
    (groups : list string) :
  rollupColName styles = "" ->
  data ≠ [] ->
  getGroups styles data = Ret (Some groups) ->
  groups ≠ [] ->
  exists root, getNodes styles data = Ret root /\
    (exists m, d3_max (cluster_nodes root) barValue = Some (Num m) /\
               1 <= m <= Z.of_nat (length data)) /\
    ((2 <= length groups)%nat ->
     exists links m, getLinks styles data (cluster_nodes root) = Ret links /\
                     d3_max links linkValue = Some (Num m) /\
                     1 <= m <= Z.of_nat (length data)).
Proof.
  intros Hrc Hdata Hg Hgroups.
  assert (exactRollup (rollupColName styles) data) as Hex by by left.
  eexists. split; [by apply getNodes_Ret_exact|].
  set (root := Inner "" (JS.sort (sortBy styles F_key) (rootValuesOf styles data groups))).
  split.
  - pose proof (d3_max_cases (cluster_nodes root) barValue) as Hmax.
    destruct (d3_max (cluster_nodes root) barValue) as [m|].
    + destruct Hmax as (zm & -> & _ & x & Hx & Hm).
      { intros x b _ (k & z & _ & ->)%barValue_Some. eauto. }
      exists zm. split; [done|].
      apply elem_of_cluster_nodes_root in Hx as [->|[Hx|(g & Hg' & Hx & _)]];
        [| | |apply rootValues_shape].
      * done.
      * by apply elem_of_sort, elem_of_rootValuesOf in Hx as (e & _ & ->).
      * apply elem_of_sort, elem_of_rootValuesOf in Hg' as (e & _ & ->).
        simpl in Hx. apply elem_of_sort in Hx. rewrite Hrc in Hx.
        apply aggregateByCol_count_bounds in Hx as (n & Hn & Hb).
        rewrite Hn in Hm. injection Hm as <-. done.
    + exfalso. destruct groups as [|g0 groups']; [done|].
      destruct (aggregateByCol_inhabited (OneCol g0) data (rollupColName styles) Hdata)
        as [e He].
      assert (e ∈ cluster_nodes root) as Hin.
      { apply elem_of_cluster_nodes_root; [apply rootValues_shape|].
        right. right. eexists. split_and!.
        - apply elem_of_sort, elem_of_rootValuesOf. exists g0. split; [left|done].
        - simpl. by apply elem_of_sort.
        - by eapply Forall_forall; [apply aggregateByCol_entries|]. }
      specialize (Hmax ltac:(intros x b _ (k & z & _ & ->)%barValue_Some; eauto) e Hin).
      pose proof (aggregateByCol_intEntries (OneCol g0) data (rollupColName styles) Hex)
        as Hent.
      rewrite Forall_forall in Hent. destruct (Hent e He) as (k & z & ->). done.
  - intros Hlen.
    rewrite (getLinks_Ret _ _ _ _ (getGroupPairs_Ret _ _ _ Hg)).
    set (links := pairsOf groups ≫= linksOfPair styles (mapNameNodeOf (cluster_nodes root)) data).
    exists links.
    assert (forall l, l ∈ links ->
              exists n, linkValue l = Some (Num n) /\ 1 <= n <= Z.of_nat (length data))
      as Hval.
    { intros l (pair & Hl & _)%list_elem_of_bind.
      unfold linksOfPair in Hl. apply list_elem_of_fmap in Hl as (e & -> & He).
      rewrite Hrc in He. apply aggregateByCol_count_bounds in He as (n & Hn & Hb).
      exists n. split; [|done]. unfold linkValue. simpl. by rewrite Hn. }
    pose proof (d3_max_cases links linkValue) as Hmax.
    destruct (d3_max links linkValue) as [m|].
    + destruct Hmax as (zm & -> & _ & x & Hx & Hm).
      { intros x b Hx Hb. destruct (Hval x Hx) as (n & Hn & _).
        rewrite Hn in Hb. injection Hb as <-. eauto. }
      exists zm. split; [done|]. split; [done|].
      destruct (Hval x Hx) as (n & Hn & Hb). congruence.
    + exfalso.
      pose proof (length_pairsOf groups) as Hp.
      destruct (pairsOf groups) as [|pair pairs] eqn:Hpairs; [simpl in Hp; nia|].
      destruct (aggregateByCol_inhabited (ManyCols pair) data (rollupColName styles) Hdata)
        as [e He].
      assert (exists l, l ∈ links) as [l Hl].
      { eexists. unfold links. rewrite ?Hpairs. apply list_elem_of_bind.
        exists pair. split; [|left]. unfold linksOfPair.
        by apply list_elem_of_fmap_2. }
      destruct (Hval l Hl) as (n & Hn & _).
      assert (linkValue l = None) as Hnone.
      { apply Hmax; [|done]. intros x b Hx Hb. destruct (Hval x Hx) as (n' & Hn' & _).
        rewrite Hn' in Hb. injection Hb as <-. eauto. }
      by rewrite Hnone in Hn.
Qed.

Lemma scale_domains_witness :
  rollupColName scenarioStyles = "" /\
  scenarioData ≠ [] /\
  getGroups scenarioStyles scenarioData = Ret (Some ["A"; "B"]) /\
  exists root, getNodes scenarioStyles scenarioData = Ret root /\
    exists m, d3_max (cluster_nodes root) barValue = Some (Num m) /\
              1 <= m <= Z.of_nat (length scenarioData).
Proof.
  split; [reflexivity|]. split; [discriminate|]. split; [reflexivity|].
  destruct (scale_domains scenarioStyles scenarioData ["A"; "B"] eq_refl)
    as (root & Hroot & Hm & _); [discriminate|reflexivity|discriminate|].
  exists root. split; [exact Hroot|exact Hm].
Defined.

(** ** Hovering: the flags and the classes *)

Lemma flagsOf_insert st i f n :
  flagsOf (<[i := f]> st) n = if decide (i = nid n) then f else flagsOf st n.
Proof.
  unfold flagsOf. destruct (decide (i = nid n)) as [->|Hne].
  - by rewrite lookup_insert_eq.
  - by rewrite lookup_insert_ne.
Qed.

Lemma same_eq a b : same a b = true <-> nid a = nid b.
Proof. unfold same. apply Nat.eqb_eq. Qed.

Lemma flagsOf_same st a b : same a b = true -> flagsOf st a = flagsOf st b.
Proof. intros Hab%same_eq. unfold flagsOf. by rewrite Hab. Qed.

Lemma clearFlags_flags sel st n :
  flagsOf (clearFlags sel st) n
  = if existsb (fun m => same m n) sel then noFlags else flagsOf st n.
Proof.
  induction sel as [|m sel IH] using rev_ind; [done|].
  unfold clearFlags in *. rewrite foldl_app, existsb_app. simpl.
  rewrite flagsOf_insert, IH, orb_false_r.
  destruct (decide (nid m = nid n)) as [Heq|Hne].
  - apply same_eq in Heq. rewrite Heq, orb_true_r. done.
  - assert (same m n = false) as ->.
    { destruct (same m n) eqn:Hs; [|done]. by apply same_eq in Hs. }
    by rewrite orb_false_r.
Qed.

Lemma linked_snoc links l a b :
  linked (links ++ [l]) a b
  = linked links a b || (same (path_source l) a && same (path_target l) b).
Proof. unfold linked. rewrite existsb_app. simpl. by rewrite orb_false_r. Qed.

Lemma markSources_flags d links st n :
  flagsOf (markSources d links st) n
  = {| is_source := is_source (flagsOf st n) || linked links n d;
       is_target := is_target (flagsOf st n) |}.
Proof.
  induction links as [|l links IH] using rev_ind.
  - simpl. rewrite orb_false_r. by destruct (flagsOf st n).
  - unfold markSources in *. rewrite foldl_app, linked_snoc. simpl.
    destruct (same (path_target l) d) eqn:Ht.
    + rewrite flagsOf_insert. destruct (decide (nid (path_source l) = nid n)) as [Heq|Hne].
      * apply same_eq in Heq. rewrite (flagsOf_same _ _ _ Heq), IH, Heq. simpl.
        by rewrite !orb_true_r.
      * assert (same (path_source l) n = false) as ->.
        { destruct (same (path_source l) n) eqn:Hs; [|done]. by apply same_eq in Hs. }
        by rewrite IH, orb_false_r.
    + by rewrite IH, andb_false_r, orb_false_r.
Qed.

Lemma markTargets_flags d links st n :
  flagsOf (markTargets d links st) n
  = {| is_source := is_source (flagsOf st n);
       is_target := is_target (flagsOf st n) || linked links d n |}.
Proof.
  induction links as [|l links IH] using rev_ind.
  - simpl. rewrite orb_false_r. by destruct (flagsOf st n).
  - unfold markTargets in *. rewrite foldl_app, linked_snoc. simpl.
    destruct (same (path_source l) d) eqn:Hs.
    + rewrite flagsOf_insert. destruct (decide (nid (path_target l) = nid n)) as [Heq|Hne].
      * apply same_eq in Heq. rewrite (flagsOf_same _ _ _ Heq), IH, Heq. simpl.
        by rewrite !orb_true_r.
      * assert (same (path_target l) n = false) as ->.
        { destruct (same (path_target l) n) eqn:Hs'; [|done]. by apply same_eq in Hs'. }
        by rewrite IH, andb_false_r, orb_false_r.
    + by rewrite IH, orb_false_r.
Qed.

(** The flags of a node after the two passes over the links, when the
    node was reset before them. *)
Lemma hover_flags d links st n :
  flagsOf st n = noFlags ->
  nodeClassesOf d (markTargets d links (markSources d links st)) n
  = hoverClasses d links n.
Proof.
  intros Hst. unfold nodeClassesOf, hoverClasses.
  rewrite markTargets_flags, markSources_flags, Hst. done.
Qed.

Lemma same_refl n : same n n = true.
Proof. by apply same_eq. Qed.

Lemma existsb_same_elem (sel : list NodeObj) n :
  n ∈ sel -> existsb (fun m => same m n) sel = true.
Proof.
  intros Hn. apply existsb_exists. exists n. split; [by apply list_elem_of_In|].
  apply same_refl.
Qed.

(** X20. While a node [d] is hovered, whatever was highlighted before:
    a node text or bar has class [node-source] exactly when a link runs
    from it to [d], class [node-target] exactly when a link runs from [d]
    to it, and class [node-bg] exactly when neither holds and its key
    differs from the key of [d]; a link path is [link-bg] exactly when it
    is neither [link-source] nor [link-target]; and no element with the
    key of [d] is dimmed. *)
Theorem mouseovered_classes (nodeSel barSel : list NodeObj) (links : list Path)
    (d : NodeObj) (sc : Scene) :
  let sc' := mouseovered nodeSel barSel links d sc in
  nodeClasses sc' = hoverClasses d links <$> nodeSel /\
  barClasses sc' = hoverClasses d links <$> barSel /\
  Forall (fun c => link_bg c = negb (link_source c || link_target c))
         (linkClasses sc') /\
  forall n, nkey n = nkey d -> node_bg (hoverClasses d links n) = false.
Proof.
  intros sc'. unfold sc', mouseovered. cbn [nodeClasses barClasses linkClasses].
  split_and!.
  - apply list_fmap_ext. intros i n Hn%list_elem_of_lookup_2. apply hover_flags.
    rewrite !clearFlags_flags.
    destruct (existsb (fun m => same m n) barSel); [done|].
    by rewrite existsb_same_elem.
  - apply list_fmap_ext. intros i n Hn%list_elem_of_lookup_2. apply hover_flags.
    rewrite clearFlags_flags. by rewrite existsb_same_elem.
  - apply Forall_fmap, Forall_true. intros l. simpl.
    by destruct (same (path_target l) d), (same (path_source l) d).
  - intros n Hk. simpl. rewrite Hk, String.eqb_refl. by rewrite andb_false_r.
Qed.

(** ** Hovering: the order of the link paths *)

(** X21. Hovering [d] moves the link paths that touch [d] behind all the
    others and moves nothing else: the paths stay the same paths, those
    that do not touch [d] keep their places among themselves, those that
    touch [d] come last in the order of the selection, and hovering [d]
    a second time changes nothing. *)
Theorem raiseLinks_order (d : NodeObj) (links : list Path) (dom : list nat) :
  dom ≡ₚ seq 0 (length links) ->
  let dom' := raiseLinks d links dom in
  dom' ≡ₚ seq 0 (length links) /\
  List.filter (fun i => negb (touches d links i)) dom'
  = List.filter (fun i => negb (touches d links i)) dom /\
  List.filter (touches d links) dom'
  = List.filter (touches d links) (seq 0 (length links)) /\
  (exists rest raised, dom' = rest ++ raised /\
     Forall (fun i => touches d links i = false) rest /\
     Forall (fun i => touches d links i = true) raised) /\
  raiseLinks d links dom' = dom'.
Proof.
  intros Hdom dom'. unfold dom', raiseLinks.
  destruct (List_filter_filter_neg (touches d links) dom) as [Hn1 _].
  destruct (List_filter_filter_neg (touches d links) (seq 0 (length links)))
    as [_ Hn2].
  split_and!.
  - rewrite <-(List_filter_partition (touches d links) (seq 0 (length links))) at 2.
    apply Permutation_app; [|done].
    rewrite !List_filter_stdpp. by rewrite Hdom.
  - by rewrite List_filter_app, List_filter_filter_same, Hn2, app_nil_r.
  - by rewrite List_filter_app, List_filter_filter_same, Hn1.
  - eexists _, _. split; [done|]. split; apply Forall_forall; intros i;
      rewrite list_elem_of_In, filter_In; intros [_ Hi]; [|done].
    by apply negb_true_iff.
  - by rewrite List_filter_app, List_filter_filter_same, Hn2, app_nil_r.
Qed.

Lemma raiseLinks_order_witness :
  [0; 1; 2]%nat ≡ₚ seq 0 (length hoverLinks) /\
  raiseLinks {| nid := 3; nkey := "q" |} hoverLinks
    (raiseLinks {| nid := 3; nkey := "q" |} hoverLinks [0; 1; 2]%nat)
  = raiseLinks {| nid := 3; nkey := "q" |} hoverLinks [0; 1; 2]%nat.
Proof.
  split; [reflexivity|].
  apply (raiseLinks_order {| nid := 3; nkey := "q" |} hoverLinks [0; 1; 2]%nat).
  reflexivity.
Defined.


(** ** [getGroups] and [isInGroupColNames] on a well-formed exclude-list *)

(** X22. With an empty include-list and an exclude-list that is not
    empty, when every name of the exclude-list is a column of the first
    record and neither the columns nor the excluded names repeat,
    [getGroups] returns the columns of the first record that are not
    excluded, in their order. *)
Theorem getGroups_exclude_filter (styles : Styles) (d0 : DataRow)
    (data : list DataRow) :
  groupColNames styles = [] ->
  groupColNamesAllExcept styles ≠ [] ->
  NoDup (Object_keys d0) ->
  NoDup (groupColNamesAllExcept styles) ->
  (forall c, c ∈ groupColNamesAllExcept styles -> c ∈ Object_keys d0) ->
  getGroups styles (d0 :: data)
  = Ret (Some (filter (fun c => c ∉ groupColNamesAllExcept styles) (Object_keys d0))).
Proof.
  intros Hinc Hexc Hk Hx Hsub.
  rewrite (getGroups_described_agree styles d0 data Hk Hx Hsub) by (by right).
  unfold getGroups_described. by rewrite Hinc.
Qed.

(** X23. With an include-list that is not empty, [isInGroupColNames]
    and [getGroups] agree on every name. With an empty include-list and
    an exclude-list that is not empty, when every name of the
    exclude-list is a column of the first record and neither the columns
    nor the excluded names repeat, they agree on every column of the
    first record. *)
Theorem isInGroupColNames_agrees (styles : Styles) (d0 : DataRow)
    (data : list DataRow) (col : string) :
  groupColNames styles ≠ [] \/
  (groupColNamesAllExcept styles ≠ [] /\
   NoDup (Object_keys d0) /\
   NoDup (groupColNamesAllExcept styles) /\
   (forall c, c ∈ groupColNamesAllExcept styles -> c ∈ Object_keys d0) /\
   col ∈ Object_keys d0) ->
  exists groups, getGroups styles (d0 :: data) = Ret (Some groups) /\
                 (isInGroupColNames styles col = true <-> col ∈ groups).
Proof.
  intros Hcases.
  destruct (groupColNames styles) as [|g gs] eqn:Hinc.
  - destruct Hcases as [?|(Hexc & Hk & Hx & Hsub & Hcol)]; [done|].
    rewrite (getGroups_described_agree styles d0 data Hk Hx Hsub) by (by right).
    destruct (getGroups_described styles (d0 :: data)) as [groups|] eqn:Hd.
    + exists groups. split; [done|].
      by apply (isInGroupColNames_described styles d0 data).
    + unfold getGroups_described in Hd. by rewrite Hinc in Hd.
  - exists (g :: gs). unfold getGroups, isInGroupColNames. rewrite Hinc.
    split; [done|]. cbn -[indexOf]. rewrite Z.leb_le.
    apply (indexOf_nonneg_iff col (g :: gs)).
Qed.

(** X24. With an empty include-list and a single excluded name that is
    no column of the first record, [getGroups] returns the columns of the
    first record without the last one. *)
Theorem getGroups_absent_name (styles : Styles) (d0 : DataRow)
    (data : list DataRow) (c : string) :
  groupColNames styles = [] ->
  groupColNamesAllExcept styles = [c] ->
  c ∉ Object_keys d0 ->
  getGroups styles (d0 :: data)
  = Ret (Some (take (length (Object_keys d0) - 1) (Object_keys d0))).
Proof.
  intros Hinc Hexc Hc. unfold getGroups. rewrite Hinc, Hexc.
  cbn -[indexOf splice1 Object_keys]. by rewrite splice1_absent.
Qed.

Lemma getGroups_absent_name_witness :
  groupColNames defaultStyles = [] /\
  groupColNamesAllExcept defaultStyles = ["salesAmount"] /\
  ("salesAmount" ∉ Object_keys [("A", JStr "x"); ("B", JStr "p")]) /\
  getGroups defaultStyles twoColumnData
  = Ret (Some (take (length (Object_keys [("A", JStr "x"); ("B", JStr "p")]) - 1)
                    (Object_keys [("A", JStr "x"); ("B", JStr "p")]))).
Proof.
  assert ("salesAmount" ∉ Object_keys [("A", JStr "x"); ("B", JStr "p")]) as Hnin.
  { intros Hin. repeat (apply elem_of_cons in Hin as [Hin|Hin]; [discriminate|]).
    by apply elem_of_nil in Hin. }
  split; [reflexivity|]. split; [reflexivity|]. split; [exact Hnin|].
  apply (getGroups_absent_name defaultStyles [("A", JStr "x"); ("B", JStr "p")] []
           "salesAmount" eq_refl eq_refl Hnin).
Defined.

(** ** Composite keys: join and split *)

Lemma splitOn_not_nil sep s : splitOn sep s ≠ [].
Proof.
  destruct s as [|c s]; simpl; [done|].
  destruct (Ascii.eqb c sep); [done|]. by destruct (splitOn sep s).
Qed.

Lemma splitOn_append_comma a b :
  splitOn "," (a +:+ String "," b) = splitOn "," a ++ splitOn "," b.
Proof.
  induction a as [|c a IH]; [done|].
  rewrite append_String. cbn [splitOn]. rewrite IH.
  destruct (Ascii.eqb c ","); [done|].
  pose proof (splitOn_not_nil "," a). by destruct (splitOn "," a).
Qed.

Lemma splitOn_length_one s :
  length (splitOn "," s) = 1%nat <-> hasComma s = false.
Proof.
  split; [|by intros ->%splitOn_no_comma].
  induction s as [|c s IH]; simpl; [done|].
  destruct (Ascii.eqb c ",") eqn:Hc; simpl.
  - pose proof (splitOn_not_nil "," s). destruct (splitOn "," s); [done|]. simpl. lia.
  - pose proof (splitOn_not_nil "," s). destruct (splitOn "," s) eqn:Hs; [done|].
    simpl in *. done.
Qed.

(** X25. A composite key, two values joined by a comma, splits back into
    the two values exactly when neither value has a comma in it; in
    every case it splits into as many parts as the two values split into
    together. *)
Theorem composite_key_round_trip (a b : string) :
  (splitOn "," (String.concat "," [a; b]) = [a; b]
   <-> hasComma a = false /\ hasComma b = false) /\
  length (splitOn "," (String.concat "," [a; b]))
  = (length (splitOn "," a) + length (splitOn "," b))%nat.
Proof.
  change (String.concat "," [a; b]) with (a +:+ String "," b).
  rewrite splitOn_append_comma, length_app. split; [|done]. split.
  - intros Heq. apply (f_equal length) in Heq. rewrite length_app in Heq.
    simpl in Heq. rewrite <-!splitOn_length_one.
    pose proof (splitOn_not_nil "," a). pose proof (splitOn_not_nil "," b).
    destruct (splitOn "," a), (splitOn "," b); simpl in *; try done; lia.
  - intros [Ha Hb]. by rewrite !splitOn_no_comma.
Qed.


(** ** The properties at the sample inputs *)

Lemma scenario_groups_NoDup : NoDup ["A"; "B"].
Proof. apply (bool_decide_unpack _). vm_compute. exact I. Qed.

Lemma scenario_exact : exactRollup (rollupColName scenarioStyles) scenarioData.
Proof. by left. Qed.

Lemma getGroupPairs_distinct_witness :
  NoDup ["A"; "B"] /\
  getGroups scenarioStyles scenarioData = Ret (Some ["A"; "B"]) /\
  getGroupPairs scenarioStyles scenarioData = Ret [["A"; "B"]] /\
  NoDup [["A"; "B"]] /\
  forall a b, [a; b] ∈ [["A"; "B"]] -> a ≠ b /\ [b; a] ∉ [["A"; "B"]].
Proof.
  split; [exact scenario_groups_NoDup|]. split; [reflexivity|]. split; [reflexivity|].
  apply (getGroupPairs_distinct scenarioStyles scenarioData ["A"; "B"] [["A"; "B"]]
           scenario_groups_NoDup eq_refl eq_refl).
Defined.

Lemma scenario_pairTidy : pairTidy scenarioData "A" "B".
Proof.
  intros d Hd. repeat (apply elem_of_cons in Hd as [->|Hd]);
    [split_and!; (by eexists) || reflexivity..|].
  by apply elem_of_nil in Hd.
Qed.

Lemma scenario_columnsApart : columnsApart scenarioData ["A"; "B"].
Proof.
  intros d d' g g' Hd Hd' Hg Hg' Hne.
  repeat (apply elem_of_cons in Hd as [->|Hd]); [| | |by apply elem_of_nil in Hd];
    (repeat (apply elem_of_cons in Hd' as [->|Hd']); [| | |by apply elem_of_nil in Hd']);
    (repeat (apply elem_of_cons in Hg as [->|Hg]); [| |by apply elem_of_nil in Hg]);
    (repeat (apply elem_of_cons in Hg' as [->|Hg']); [| |by apply elem_of_nil in Hg']);
    try done; vm_compute; discriminate.
Qed.

Lemma scenario_leaf_x : Leaf "x" (Num 2) ∈ aggregateByCol (OneCol "A") scenarioData "".
Proof. vm_compute. left. Qed.

Lemma aggregateByCol_marginal_witness :
  pairTidy scenarioData "A" "B" /\
  exactRollup "" scenarioData /\
  Leaf "x" (Num 2) ∈ aggregateByCol (OneCol "A") scenarioData "" /\
  sumValues (filter (fun e => namePart 0 (key e) = "x")
               (aggregateByCol (ManyCols ["A"; "B"]) scenarioData ""))
  = Num 2.
Proof.
  split; [exact scenario_pairTidy|]. split; [exact scenario_exact|].
  split; [exact scenario_leaf_x|].
  exact (proj1 (aggregateByCol_marginal scenarioData "" "A" "B" (Leaf "x" (Num 2))
                  scenario_pairTidy scenario_exact) scenario_leaf_x).
Defined.

Lemma getNodes_group_total_witness :
  exactRollup (rollupColName scenarioStyles) scenarioData /\
  getNodes scenarioStyles scenarioData
  = Ret (Inner "" [Inner "B" [Leaf "p" (Num 2); Leaf "q" (Num 1)];
                   Inner "A" [Leaf "x" (Num 2); Leaf "y" (Num 1)]]) /\
  sumValues [Leaf "x" (Num 2); Leaf "y" (Num 1)]
  = Num (totalWeight (rollupColName scenarioStyles) scenarioData).
Proof.
  split; [exact scenario_exact|]. split; [reflexivity|].
  apply (getNodes_group_total scenarioStyles scenarioData _ "A" _ scenario_exact eq_refl).
  right. left.
Defined.

Lemma getLinks_leaf_total_witness :
  getGroups scenarioStyles scenarioData = Ret (Some ["A"; "B"]) /\
  tidy scenarioData ["A"; "B"] /\
  columnsApart scenarioData ["A"; "B"] /\
  exactRollup (rollupColName scenarioStyles) scenarioData /\
  getNodes scenarioStyles scenarioData
  = Ret (Inner "" [Inner "B" [Leaf "p" (Num 2); Leaf "q" (Num 1)];
                   Inner "A" [Leaf "x" (Num 2); Leaf "y" (Num 1)]]) /\
  linkTotal
    (filter (fun l => key <$> source l = Some "x")
       (linksOfPair scenarioStyles
          (mapNameNodeOf
             (cluster_nodes
                (Inner "" [Inner "B" [Leaf "p" (Num 2); Leaf "q" (Num 1)];
                           Inner "A" [Leaf "x" (Num 2); Leaf "y" (Num 1)]])))
          scenarioData ["A"; "B"]))
  = Num 2.
Proof.
  split; [reflexivity|]. split; [exact scenario_tidy|].
  split; [exact scenario_columnsApart|]. split; [exact scenario_exact|].
  split; [reflexivity|].
  refine (proj2 (proj1 (getLinks_leaf_total scenarioStyles scenarioData ["A"; "B"]
                          "A" "B" _ (Leaf "x" (Num 2)) eq_refl scenario_tidy
                          scenario_columnsApart scenario_exact _ _ eq_refl)
                   [Leaf "x" (Num 2); Leaf "y" (Num 1)] _ _)).
  - left.
  - right. left.
  - right. left.
  - left.
Defined.

Lemma integerMetric_ints :
  forall d, d ∈ integerMetricData -> exists z, getProp d "m" = Some (JInt z).
Proof.
  intros d Hd. repeat (apply elem_of_cons in Hd as [->|Hd]); [by eexists..|].
  by apply elem_of_nil in Hd.
Qed.

Lemma integerMetric_bound :
  sumZ ((fun d => Z.abs (metricInt "m" d)) <$> integerMetricData) <= maxExact.
Proof. by vm_compute. Qed.

Lemma integerMetric_exact : exactRollup "m" integerMetricData.
Proof.
  apply integer_metric_exact;
    [discriminate|exact integerMetric_ints|exact integerMetric_bound].
Qed.

Lemma aggregateByCol_integer_metric_witness :
  "m" ≠ "" /\
  (forall d, d ∈ integerMetricData -> exists z, getProp d "m" = Some (JInt z)) /\
  sumZ ((fun d => Z.abs (metricInt "m" d)) <$> integerMetricData) <= maxExact /\
  Leaf "x" (Num 3) ∈ aggregateByCol (OneCol "A") integerMetricData "m" /\
  values (Leaf "x" (Num 3))
  = VNum (Num (sumZ (metricInt "m" <$> groupOf (OneCol "A") integerMetricData "x"))).
Proof.
  assert (Leaf "x" (Num 3) ∈ aggregateByCol (OneCol "A") integerMetricData "m") as Hin
    by (vm_compute; left).
  assert ("m" ≠ "") as Hm by discriminate.
  split; [exact Hm|]. split; [exact integerMetric_ints|].
  split; [exact integerMetric_bound|]. split; [exact Hin|].
  exact (proj2 (aggregateByCol_integer_metric (OneCol "A") integerMetricData "m"
                  (Leaf "x" (Num 3)) Hm integerMetric_ints integerMetric_bound Hin)).
Defined.

Lemma aggregateByCol_total_witness :
  exactRollup "m" integerMetricData /\
  sumValues (aggregateByCol (OneCol "A") integerMetricData "m")
  = Num (totalWeight "m" integerMetricData).
Proof.
  split; [exact integerMetric_exact|].
  apply (aggregateByCol_total (OneCol "A") integerMetricData "m" integerMetric_exact).
Defined.

Lemma scenario_keys_NoDup : NoDup (Object_keys [("A", JStr "x"); ("B", JStr "p")]).
Proof. exact twoColumn_keys_NoDup. Qed.

Lemma layout_selections_witness :
  NoDup (Object_keys [("A", JStr "x"); ("B", JStr "p")]) /\
  getGroups scenarioStyles scenarioData = Ret (Some ["A"; "B"]) /\
  exists root, getNodes scenarioStyles scenarioData = Ret root /\
    (forall n, n ∈ nodeBarSelection (cluster_walk None root) <->
               n ∈ cluster_walk None root /\ isEntry (datum n)).
Proof.
  split; [exact scenario_keys_NoDup|]. split; [reflexivity|].
  destruct (layout_selections scenarioStyles [("A", JStr "x"); ("B", JStr "p")]
              [[("A", JStr "x"); ("B", JStr "q")]; [("A", JStr "y"); ("B", JStr "p")]]
              ["A"; "B"] scenario_keys_NoDup eq_refl)
    as (root & Hroot & _ & _ & Hbars).
  - discriminate.
  - intros Hin. repeat (apply elem_of_cons in Hin as [Hin|Hin]; [discriminate|]).
    by apply elem_of_nil in Hin.
  - exists root. split; [exact Hroot|exact Hbars].
Defined.

Lemma excludeB_wellformed :
  NoDup (groupColNamesAllExcept excludeBStyles) /\
  forall c, c ∈ groupColNamesAllExcept excludeBStyles ->
            c ∈ Object_keys [("A", JStr "x"); ("B", JStr "p")].
Proof.
  split; [apply NoDup_singleton|].
  intros c Hc. apply list_elem_of_singleton in Hc as ->. right. left.
Qed.

Lemma getGroups_exclude_filter_witness :
  groupColNames excludeBStyles = [] /\
  groupColNamesAllExcept excludeBStyles ≠ [] /\
  getGroups excludeBStyles twoColumnData
  = Ret (Some (filter (fun c => c ∉ groupColNamesAllExcept excludeBStyles)
                 (Object_keys [("A", JStr "x"); ("B", JStr "p")]))).
Proof.
  split; [reflexivity|]. split; [discriminate|].
  apply (getGroups_exclude_filter excludeBStyles [("A", JStr "x"); ("B", JStr "p")] []
           eq_refl); [discriminate|exact scenario_keys_NoDup|apply excludeB_wellformed..].
Defined.

Lemma isInGroupColNames_agrees_witness :
  groupColNamesAllExcept excludeBStyles ≠ [] /\
  NoDup (Object_keys [("A", JStr "x"); ("B", JStr "p")]) /\
  exists groups, getGroups excludeBStyles twoColumnData = Ret (Some groups) /\
                 (isInGroupColNames excludeBStyles "B" = true <-> "B" ∈ groups).
Proof.
  split; [discriminate|]. split; [exact scenario_keys_NoDup|].
  apply (isInGroupColNames_agrees excludeBStyles [("A", JStr "x"); ("B", JStr "p")] []
           "B").
  right. split_and!;
    [discriminate|exact scenario_keys_NoDup|apply excludeB_wellformed..|right; left].
Defined.

Lemma scenario_finite : finiteRollups scenarioStyles scenarioData ["A"; "B"].
Proof. apply exactRollup_finiteRollups, scenario_exact. Qed.

Lemma getLinks_resolve_on_tidy_data_witness :
  getGroups scenarioStyles scenarioData = Ret (Some ["A"; "B"]) /\
  tidy scenarioData ["A"; "B"] /\
  finiteRollups scenarioStyles scenarioData ["A"; "B"] /\
  exists s t,
    source {| source := Some (Leaf "x" (Num 2)); target := Some (Leaf "p" (Num 2));
              value := VNum (Num 1) |} = Some s /\
    target {| source := Some (Leaf "x" (Num 2)); target := Some (Leaf "p" (Num 2));
              value := VNum (Num 1) |} = Some t /\
    isLeafOf (Inner "" [Inner "B" [Leaf "p" (Num 2); Leaf "q" (Num 1)];
                        Inner "A" [Leaf "x" (Num 2); Leaf "y" (Num 1)]]) s /\
    isLeafOf (Inner "" [Inner "B" [Leaf "p" (Num 2); Leaf "q" (Num 1)];
                        Inner "A" [Leaf "x" (Num 2); Leaf "y" (Num 1)]]) t.
Proof.
  split; [reflexivity|]. split; [exact scenario_tidy|]. split; [exact scenario_finite|].
  apply (getLinks_resolve_on_tidy_data scenarioStyles scenarioData ["A"; "B"]
           (Inner "" [Inner "B" [Leaf "p" (Num 2); Leaf "q" (Num 1)];
                      Inner "A" [Leaf "x" (Num 2); Leaf "y" (Num 1)]])
           scenarioLinks _ eq_refl scenario_tidy scenario_finite eq_refl).
  - vm_compute. reflexivity.
  - unfold scenarioLinks. left.
Defined.
